(** * mesher: a UDP mesh overlay with a rendezvous server

    A shallow embedding of [mesher.go].  The file follows the layout of
    the Go source: the address codec and the socket writer (GENERAL),
    the server core (SERVER) and the peer core (PEER).

    Conventions.
    - A byte is a [Z] in [0, 256); a byte slice is a [list Z].
    - [address] ([[18]byte] in Go) is a [list Z]; [legalKey] says it has
      18 entries that are bytes.
    - A Go [map[address]T] is a [gmap address T], a [map[address]struct{}]
      a [gset address].  Go ranges over a map in an unspecified order:
      every loop over a map takes the order of the visit as an argument,
      and the theorems quantify over every order that lists the keys.
    - A send on a channel and a [log.Println] are recorded, in program
      order, in the list of effects a function returns.
    - The goroutines ([meshServer] or [meshPeer], [watcher], [watchdog])
      are put together in a transition system: a state says where each
      goroutine waits, an action is a rendezvous on an unbuffered
      channel, the firing of a timer or the closing of a channel, and a
      schedule is a list of actions.  Time is not modelled: a timer may
      fire at any moment.
    - [encoding/gob], [net] and [net/netip] are libraries outside the
      repository.  The few [net]/[netip] functions used by the address
      codec are modelled after their documentation; gob is a parameter
      ([gob]) of the definitions that call it. *)

From Stdlib Require Import ZArith Lia.
From stdpp Require Import base gmap sets list strings.

Local Open Scope Z_scope.

(** ** Bytes and slices *)

Abbreviation bytes := (list Z).

Definition isByte (b : Z) : Prop := 0 <= b < 256.

#[global] Instance isByte_dec b : Decision (isByte b).
Proof. unfold isByte. apply _. Defined.

(** [copy(dst, src)]: overwrites the first [min (len dst) (len src)]
    cells of [dst]. *)
Definition copy (dst src : bytes) : bytes :=
  take (length dst) src ++ drop (length src) dst.

(** [make([]byte, n)] *)
Definition make (n : nat) : bytes := replicate n 0.

(** [byte(v)] for an unsigned [v]. *)
Definition byte_of (v : Z) : Z := Z.land v 255.

(** [binary.BigEndian.PutUint16(b, v)]; [b] has at least two cells. *)
Definition PutUint16 (b : bytes) (v : Z) : bytes :=
  <[1%nat := byte_of v]> (<[0%nat := byte_of (Z.shiftr v 8)]> b).

(** [binary.BigEndian.Uint16(b)] *)
Definition Uint16 (b : bytes) : Z :=
  Z.lor (b !!! 1%nat) (Z.shiftl (b !!! 0%nat) 8).

(** [uint16(x)] for an [int] [x]. *)
Definition uint16 (x : Z) : Z := x mod 65536.

(** ** Endpoints ([net.UDPAddr]) and [netip] *)

Record UDPAddr := mkUDPAddr {
  IP : bytes;
  Port : Z;
  Zone : string
}.

#[global] Instance UDPAddr_eq_dec : EqDecision UDPAddr.
Proof. solve_decision. Defined.

(** [netip.Addr]: the zero value, an IPv4 address, or an IPv6 address
    with its zone. *)
Inductive netipAddr :=
| AddrZero
| Addr4 (b : bytes)
| Addr6 (b : bytes) (zone : string).

Definition v4InV6Prefix : bytes := [0; 0; 0; 0; 0; 0; 0; 0; 0; 0; 255; 255].

(** [netip.AddrFromSlice]: a 4-byte slice is an IPv4 address, a 16-byte
    slice an IPv6 address (an IPv4-mapped one is kept as IPv6); any
    other length fails. *)
Definition AddrFromSlice (s : bytes) : netipAddr * bool :=
  if decide (length s = 4%nat) then (Addr4 s, true)
  else if decide (length s = 16%nat) then (Addr6 s EmptyString, true)
  else (AddrZero, false).

(** [Addr.WithZone]: only an IPv6 address carries a zone. *)
Definition WithZone (ip : netipAddr) (zone : string) : netipAddr :=
  match ip with
  | Addr6 b _ => Addr6 b zone
  | _ => ip
  end.

(** [Addr.As16]: IPv4 in its IPv4-mapped form, IPv6 without its zone,
    the zero address as sixteen zero bytes. *)
Definition As16 (ip : netipAddr) : bytes :=
  match ip with
  | AddrZero => replicate 16 0
  | Addr4 b => v4InV6Prefix ++ b
  | Addr6 b _ => b
  end.

(** [Addr.AsSlice] *)
Definition AsSlice (ip : netipAddr) : bytes :=
  match ip with
  | AddrZero => []
  | Addr4 b => b
  | Addr6 b _ => b
  end.

(** [Addr.Zone] *)
Definition ZoneOf (ip : netipAddr) : string :=
  match ip with
  | Addr6 _ z => z
  | _ => EmptyString
  end.

(** [netip.AddrPort] and [netip.AddrPortFrom] *)
Definition AddrPortT : Type := netipAddr * Z.

Definition AddrPortFrom (ip : netipAddr) (port : Z) : AddrPortT := (ip, port).

(** [UDPAddr.AddrPort], for a non-nil receiver *)
Definition AddrPort (a : UDPAddr) : AddrPortT :=
  let na := fst (AddrFromSlice (IP a)) in
  let na := WithZone na (Zone a) in
  AddrPortFrom na (uint16 (Port a)).

(** [net.UDPAddrFromAddrPort] *)
Definition UDPAddrFromAddrPort (ap : AddrPortT) : UDPAddr :=
  {| IP := AsSlice (fst ap); Zone := ZoneOf (fst ap); Port := snd ap |}.

(** ** The address codec *)

Abbreviation address := (list Z).

Definition legalKey (a : address) : Prop :=
  length a = 18%nat ∧ Forall isByte a.

#[global] Instance legalKey_dec a : Decision (legalKey a).
Proof. unfold legalKey. apply _. Defined.

(** [func addrKey(addr *net.UDPAddr) address] *)
Definition addrKey (addr : UDPAddr) : address :=
  let a := replicate 18 0 in
  let ip := As16 (fst (AddrPort addr)) in
  let port := snd (AddrPort addr) in
  let a := copy (take 16 a) ip ++ drop 16 a in
  take 16 a ++ PutUint16 (drop 16 a) port.

(** [func addrFromKey(a address) *net.UDPAddr]; [None] is [nil]. *)
Definition addrFromKey (a : address) : option UDPAddr :=
  let '(ip, ok) := AddrFromSlice (take 16 a) in
  if negb ok then None
  else
    let port := Uint16 (drop 16 a) in
    let addr := AddrPortFrom ip port in
    Some (UDPAddrFromAddrPort addr).

(** What it means for two endpoints to denote the same UDP endpoint:
    [net.IP.Equal] on the addresses (a 4-byte address equals its
    16-byte IPv4-mapped form), the same port and the same zone. *)
Definition ipEqual (x y : bytes) : bool :=
  if decide (length x = length y) then bool_decide (x = y)
  else if decide (length x = 4%nat ∧ length y = 16%nat)
       then bool_decide (take 12 y = v4InV6Prefix) && bool_decide (x = drop 12 y)
  else if decide (length x = 16%nat ∧ length y = 4%nat)
       then bool_decide (take 12 x = v4InV6Prefix) && bool_decide (drop 12 x = y)
  else false.

Definition sameEndpoint (e1 e2 : UDPAddr) : bool :=
  ipEqual (IP e1) (IP e2)
  && bool_decide (Port e1 = Port e2)
  && bool_decide (Zone e1 = Zone e2).

(** An endpoint as a UDP socket reports it: a 4- or 16-byte address and
    a 16-bit port. *)
Definition wfEndpoint (e : UDPAddr) : Prop :=
  (length (IP e) = 4%nat ∨ length (IP e) = 16%nat)
  ∧ Forall isByte (IP e)
  ∧ 0 <= Port e < 65536.

#[global] Instance wfEndpoint_dec e : Decision (wfEndpoint e).
Proof. unfold wfEndpoint. apply _. Defined.

(** ** Messages

    The seven struct types registered with gob.  The payload type [B] is
    [bytes] for a message as a value and a reference into a [store] for a
    message that holds a slice whose backing array another task may
    still write (see [broadcastStore]). *)

Inductive messageOf (B : Type) :=
| getPeerList
| peerList (Addresses : list address)
| keepAlive
| isAlive
| dataRelayTo (To : address) (Data : B)
| dataRelayedFrom (From : address) (Data : B)
| dataDirect (Data : B).

Arguments getPeerList {B}.
Arguments peerList {B} Addresses.
Arguments keepAlive {B}.
Arguments isAlive {B}.
Arguments dataRelayTo {B} To Data.
Arguments dataRelayedFrom {B} From Data.
Arguments dataDirect {B} Data.

Abbreviation message := (messageOf bytes).

(** [type request struct] *)
Record request := mkRequest {
  from : UDPAddr;
  buffer : bytes
}.

(** [type response struct]; [to] is a pointer, [None] is [nil]. *)
Record responseOf (B : Type) := mkResponse {
  to : option UDPAddr;
  m : messageOf B
}.

Arguments mkResponse {B} to m.
Arguments to {B} r.
Arguments m {B} r.

Abbreviation response := (responseOf bytes).

(** [type PeerMsg struct] *)
Record PeerMsg := mkPeerMsg {
  PeerId : Z;
  Buf : bytes
}.

(** The interface [serverRequest]: the types with an [updateServer]
    method. *)
Inductive serverRequest :=
| serverRequest_getPeerList
| serverRequest_dataRelayTo (To : address) (Data : bytes).

(** The interface [peerRequest]: the types with an [updatePeer] method. *)
Inductive peerRequest :=
| peerRequest_peerList (Addresses : list address)
| peerRequest_keepAlive
| peerRequest_isAlive
| peerRequest_dataRelayedFrom (From : address) (Data : bytes)
| peerRequest_dataDirect (Data : bytes).

(** Is the dynamic type of [v] assignable to [serverRequest]? *)
Definition asServerRequest (v : message) : option serverRequest :=
  match v with
  | getPeerList => Some serverRequest_getPeerList
  | dataRelayTo t d => Some (serverRequest_dataRelayTo t d)
  | _ => None
  end.

(** Is the dynamic type of [v] assignable to [peerRequest]? *)
Definition asPeerRequest (v : message) : option peerRequest :=
  match v with
  | peerList l => Some (peerRequest_peerList l)
  | keepAlive => Some peerRequest_keepAlive
  | isAlive => Some peerRequest_isAlive
  | dataRelayedFrom f d => Some (peerRequest_dataRelayedFrom f d)
  | dataDirect d => Some (peerRequest_dataDirect d)
  | _ => None
  end.

Definition messageOfServerRequest (r : serverRequest) : message :=
  match r with
  | serverRequest_getPeerList => getPeerList
  | serverRequest_dataRelayTo t d => dataRelayTo t d
  end.

Definition messageOfPeerRequest (r : peerRequest) : message :=
  match r with
  | peerRequest_peerList l => peerList l
  | peerRequest_keepAlive => keepAlive
  | peerRequest_isAlive => isAlive
  | peerRequest_dataRelayedFrom f d => dataRelayedFrom f d
  | peerRequest_dataDirect d => dataDirect d
  end.

(** ** gob

    What [Decoder.Decode] leaves in an interface variable: an error, the
    nil interface (gob reads an empty type name as nil), or a value of a
    registered type. *)
Inductive decoded (A : Type) :=
| DecodeError
| DecodedNil
| Decoded (v : A).

Arguments DecodeError {A}.
Arguments DecodedNil {A}.
Arguments Decoded {A} v.

(** The gob library, as the program uses it: [gobEncode v] is what
    [Encode(&v)] writes for an [interface{}] holding [v] ([None] when it
    returns an error); [gobDecode b] is what a fresh decoder reads from
    [b] as an interface value of one of the registered types. *)
Record gob := mkGob {
  gobEncode : message → option bytes;
  gobDecode : bytes → decoded message
}.

(** [var m serverRequest; err := dec.Decode(&m)]: gob refuses a value
    whose type is not assignable to the interface of the target. *)
Definition decodeServerRequest (g : gob) (b : bytes) : decoded serverRequest :=
  match gobDecode g b with
  | DecodeError => DecodeError
  | DecodedNil => DecodedNil
  | Decoded v =>
      match asServerRequest v with
      | Some r => Decoded r
      | None => DecodeError
      end
  end.

(** [var m peerRequest; err := dec.Decode(&m)] *)
Definition decodePeerRequest (g : gob) (b : bytes) : decoded peerRequest :=
  match gobDecode g b with
  | DecodeError => DecodeError
  | DecodedNil => DecodedNil
  | Decoded v =>
      match asPeerRequest v with
      | Some r => Decoded r
      | None => DecodeError
      end
  end.

(** The library's contract for the seven registered types. *)
Definition gobRoundTrip (g : gob) : Prop :=
  ∀ v b, gobEncode g v = Some b → gobDecode g b = Decoded v.

(** ** Effects and results of one iteration of an event loop *)

Inductive effect :=
| Log (text : string)
| SendSeen (a : UDPAddr)
| SendResponse (r : response)
| SendData (d : PeerMsg).

(** [Next s es]: the iteration ends in state [s] after the effects [es];
    [Panicked es]: a method was called on a nil interface after [es]. *)
Inductive result (S : Type) :=
| Next (s : S) (es : list effect)
| Panicked (es : list effect).

Arguments Next {S} s es.
Arguments Panicked {S} es.

Definition effectsOf {S : Type} (r : result S) : list effect :=
  match r with
  | Next _ es => es
  | Panicked es => es
  end.

Definition seenOf (es : list effect) : list UDPAddr :=
  omap (λ e, match e with SendSeen a => Some a | _ => None end) es.

Definition responsesOf (es : list effect) : list response :=
  omap (λ e, match e with SendResponse r => Some r | _ => None end) es.

Definition dataOf (es : list effect) : list PeerMsg :=
  omap (λ e, match e with SendData d => Some d | _ => None end) es.

(** An event loop: the iterations for a list of inputs, until a panic. *)
Fixpoint run {S I : Type} (step : S → I → result S) (s : S) (ins : list I)
  : result S :=
  match ins with
  | [] => Next s []
  | i :: rest =>
      match step s i with
      | Panicked es => Panicked es
      | Next s' es =>
          match run step s' rest with
          | Next s'' es' => Next s'' (es ++ es')
          | Panicked es' => Panicked (es ++ es')
          end
      end
  end.

(** An order in which a [range] loop may visit the keys [X]. *)
Definition rangeOrder (X : gset address) (order : list address) : Prop :=
  order ≡ₚ elements X.

(** ** The socket writer *)

(** What the writer does with one entry of its channel: skip it (nil
    target), stop the process ([log.Fatal]) or hand a datagram to the
    socket; [err] is whether [WriteToUDP] reported an error. *)
Inductive written :=
| Skipped
| Fatal
| Wrote (b : bytes) (dst : UDPAddr) (err : bool).

(** The body of [for m := range out] in [writer]; [conn b dst] is
    whether writing [b] to [dst] fails. *)
Definition writerStep (g : gob) (conn : bytes → UDPAddr → bool) (r : response)
  : written :=
  match to r with
  | None => Skipped
  | Some dst =>
      match gobEncode g (m r) with
      | None => Fatal
      | Some b => Wrote b dst (conn b dst)
      end
  end.

(** [writer]: the steps for the entries of [out] until the channel is
    closed ([true]: the writer signals [done]) or the process is stopped
    ([false]). *)
Fixpoint writer (g : gob) (conn : bytes → UDPAddr → bool) (out : list response)
  : list written * bool :=
  match out with
  | [] => ([], true)
  | r :: rest =>
      match writerStep g conn r with
      | Fatal => ([Fatal], false)
      | w => let '(ws, fin) := writer g conn rest in (w :: ws, fin)
      end
  end.

(** A response the writer gets past: no target, or a message that gob
    encodes. *)
Definition encodes (g : gob) (r : response) : Prop :=
  to r = None ∨ gobEncode g (m r) ≠ None.

(** ** SERVER *)

(** [type server struct] *)
Record server := mkServer {
  peers : gset address
}.

(** [func (m getPeerList) updateServer]; [order] is the order in which
    [range s.peers] visits the keys. *)
Definition getPeerList_updateServer (order : list address) (s : server)
    (from : UDPAddr) : server * list effect :=
  let a := addrKey from in
  let s := {| peers := {[a]} ∪ peers s |} in
  let reply :=
    foldl (λ acc k, if decide (k ≠ a) then acc ++ [k] else acc) [] order in
  (s, [Log "getPeerList from";
       SendResponse {| to := Some from; m := peerList reply |}]).

(** [func (m dataRelayTo) updateServer] *)
Definition dataRelayTo_updateServer (To : address) (Data : bytes) (s : server)
    (from : UDPAddr) : server * list effect :=
  let ok := bool_decide (To ∈ peers s) in
  (s, Log "dataRelayTo from" ::
      if ok
      then [SendResponse {| to := addrFromKey To;
                            m := dataRelayedFrom (addrKey from) Data |}]
      else []).

(** [m.updateServer(&s, request.from, responses)] *)
Definition updateServer (order : list address) (r : serverRequest) (s : server)
    (from : UDPAddr) : server * list effect :=
  match r with
  | serverRequest_getPeerList => getPeerList_updateServer order s from
  | serverRequest_dataRelayTo t d => dataRelayTo_updateServer t d s from
  end.

(** The inputs of the server loop: a value received from [timeout] or
    from [requests] (with the order of the map visit, should the request
    range over the members). *)
Inductive serverInput :=
| ServerTimeout (a : UDPAddr)
| ServerRequest (order : list address) (req : request).

(** [case request, ok := <-requests] of [meshServer], for [ok]. *)
Definition serverOnRequest (g : gob) (order : list address) (s : server)
    (req : request) : result server :=
  match decodeServerRequest g (buffer req) with
  | DecodeError => Next s [Log "ignoring"]
  | DecodedNil => Panicked [SendSeen (from req)]
  | Decoded r =>
      let '(s', es) := updateServer order r s (from req) in
      Next s' (SendSeen (from req) :: es)
  end.

(** [case a, ok := <-timeout] of [meshServer], for [ok]. *)
Definition serverOnTimeout (s : server) (a : UDPAddr) : result server :=
  Next {| peers := peers s ∖ {[addrKey a]} |} [].

Definition serverStep (g : gob) (s : server) (i : serverInput) : result server :=
  match i with
  | ServerTimeout a => serverOnTimeout s a
  | ServerRequest order req => serverOnRequest g order s req
  end.

Definition server0 : server := {| peers := ∅ |}.

Definition meshServer (g : gob) (ins : list serverInput) : result server :=
  run (serverStep g) server0 ins.

(** ** PEER *)

(** Go's [int], 64 bits wide: the value of [x] after wrap-around. *)
Definition wrapInt (x : Z) : Z := (x + 2 ^ 63) mod 2 ^ 64 - 2 ^ 63.

(** [type peer struct]; the channel [seenPeerAlive] is the [SendSeen]
    effect. *)
Record peer := mkPeer {
  peerIds : gmap address Z;
  nextPeerId : Z;
  alivePeers : gset address
}.

(** The loop of [peerList.updatePeer]: [old] is [p.peerIds], which the
    loop only reads. *)
Fixpoint assignIds (old : gmap address Z) (addrs : list address)
    (knownPeerIds : gmap address Z) (next : Z) : gmap address Z * Z :=
  match addrs with
  | [] => (knownPeerIds, next)
  | a :: rest =>
      match old !! a with
      | Some id => assignIds old rest (<[a := id]> knownPeerIds) next
      | None =>
          assignIds old rest (<[a := next]> knownPeerIds) (wrapInt (next + 1))
      end
  end.

(** [func (m peerList) updatePeer] *)
Definition peerList_updatePeer (Addresses : list address) (p : peer) : peer :=
  let '(knownPeerIds, next) := assignIds (peerIds p) Addresses ∅ (nextPeerId p) in
  {| peerIds := knownPeerIds; nextPeerId := next; alivePeers := alivePeers p |}.

(** [func (m keepAlive) updatePeer] *)
Definition keepAlive_updatePeer (p : peer) (from : UDPAddr) : peer * list effect :=
  (p, [SendResponse {| to := Some from; m := isAlive |}]).

(** [func (m isAlive) updatePeer] *)
Definition isAlive_updatePeer (p : peer) (from : UDPAddr) : peer * list effect :=
  ({| peerIds := peerIds p; nextPeerId := nextPeerId p;
      alivePeers := {[addrKey from]} ∪ alivePeers p |},
   [SendSeen from]).

(** [func (m dataRelayedFrom) updatePeer] *)
Definition dataRelayedFrom_updatePeer (From : address) (Data : bytes) (p : peer)
  : peer * list effect :=
  match peerIds p !! From with
  | None => (p, [Log "dataRelayedFrom unknown Peer, ignoring it"])
  | Some id => (p, [SendData {| PeerId := id; Buf := Data |}])
  end.

(** [func (m dataDirect) updatePeer] *)
Definition dataDirect_updatePeer (Data : bytes) (p : peer) (from : UDPAddr)
  : peer * list effect :=
  let a := addrKey from in
  match peerIds p !! a with
  | None => (p, [Log "dataDirect from";
                 Log "dataDirect from unknown Peer, ignoring it"])
  | Some id => (p, [Log "dataDirect from";
                    SendData {| PeerId := id; Buf := Data |}])
  end.

(** [m.updatePeer(&p, request.from, responses, data)] *)
Definition updatePeer (r : peerRequest) (p : peer) (from : UDPAddr)
  : peer * list effect :=
  match r with
  | peerRequest_peerList l => (peerList_updatePeer l p, [])
  | peerRequest_keepAlive => keepAlive_updatePeer p from
  | peerRequest_isAlive => isAlive_updatePeer p from
  | peerRequest_dataRelayedFrom f d => dataRelayedFrom_updatePeer f d p
  | peerRequest_dataDirect d => dataDirect_updatePeer d p from
  end.

(** [case <-ticker] of [meshPeer]; [order] is the order in which
    [range p.peerIds] visits the keys. *)
Definition peerOnTick (serverAddressUdp : UDPAddr) (order : list address)
  : list effect :=
  SendResponse {| to := Some serverAddressUdp; m := getPeerList |}
  :: flat_map (λ addr, [Log "Sending keep alive";
                        SendResponse {| to := addrFromKey addr; m := keepAlive |}])
       order.

(** [case a, ok := <-timeout] of [meshPeer], for [ok]. *)
Definition peerOnTimeout (p : peer) (a : UDPAddr) : peer * list effect :=
  ({| peerIds := peerIds p; nextPeerId := nextPeerId p;
      alivePeers := alivePeers p ∖ {[addrKey a]} |},
   [Log "Peer timed out"]).

(** The response the broadcast loop sends for the key [addr], given the
    copy [cp] it made of the buffer. *)
Definition broadcastTo {B : Type} (serverAddressUdp : UDPAddr) (p : peer)
    (cp : B) (addr : address) : responseOf B :=
  if bool_decide (addr ∈ alivePeers p)
  then {| to := addrFromKey addr; m := dataDirect cp |}
  else {| to := Some serverAddressUdp; m := dataRelayTo addr cp |}.

(** [case buf, ok := <-broadcast] of [meshPeer], for [ok].  The slice
    [buf] shares its array with the sender of the broadcast, who runs on
    once the receive has taken place; every round of the loop copies
    what the array holds when the round runs, after the send of the
    round before.  [visits] lists the rounds: the key visited and the
    contents of [buf] at that moment. *)
Definition peerOnBroadcast (serverAddressUdp : UDPAddr) (p : peer)
    (visits : list (address * bytes)) : list effect :=
  map (λ v : address * bytes,
         let buf := snd v in
         let cp := make (length buf) in
         let cp := copy cp buf in
         SendResponse (broadcastTo serverAddressUdp p cp (fst v)))
      visits.

(** The same loop on slices in memory.  A [store] holds the backing
    arrays, a slice is the index of its array; [buf] belongs to the
    sender of the broadcast, who may write it while the loop waits at a
    send. *)
Abbreviation store := (list bytes).

(** [make([]byte, n)] in the store: a new array after the existing ones. *)
Definition alloc (n : nat) (st : store) : nat * store :=
  (length st, st ++ [make n]).

(** [copy(dst, src)] in the store. *)
Definition copyAt (dst src : nat) (st : store) : store :=
  match st !! dst, st !! src with
  | Some d, Some s => <[dst := copy d s]> st
  | _, _ => st
  end.

(** What the sender of the broadcast does to the array of [buf] before
    a round of the loop: nothing, or it writes the bytes [b] into it. *)
Definition callerWrites (buf : nat) (w : option bytes) (st : store) : store :=
  match w, st !! buf with
  | Some b, Some old => <[buf := copy old b]> st
  | _, _ => st
  end.

(** The loop in the store: each round comes with what the sender of the
    broadcast has done to its array since the round before (before the
    first round: since the receive). *)
Fixpoint broadcastStore (serverAddressUdp : UDPAddr) (p : peer) (buf : nat)
    (visits : list (address * option bytes)) (st : store)
  : list (responseOf nat) * store :=
  match visits with
  | [] => ([], st)
  | (addr, w) :: rest =>
      let st := callerWrites buf w st in
      let '(cp, st) := alloc (length (st !!! buf)) st in
      let st := copyAt cp buf st in
      let r := broadcastTo serverAddressUdp p cp addr in
      let '(rs, st) := broadcastStore serverAddressUdp p buf rest st in
      (r :: rs, st)
  end.

(** What the array of [buf] holds at each round of [broadcastStore]. *)
Fixpoint readsOf (buf : nat) (visits : list (address * option bytes))
    (st : store) : list (address * bytes) :=
  match visits with
  | [] => []
  | (addr, w) :: rest =>
      let st := callerWrites buf w st in
      (addr, st !!! buf) :: readsOf buf rest st
  end.

(** The payload of a message, if it has one. *)
Definition payloadOf {B : Type} (v : messageOf B) : option B :=
  match v with
  | dataRelayTo _ d | dataRelayedFrom _ d | dataDirect d => Some d
  | _ => None
  end.

(** The message the writer encodes when it reads the slices of [v] in
    the store [st]. *)
Definition loadMessage (st : store) (v : messageOf nat) : message :=
  match v with
  | getPeerList => getPeerList
  | peerList l => peerList l
  | keepAlive => keepAlive
  | isAlive => isAlive
  | dataRelayTo t d => dataRelayTo t (st !!! d)
  | dataRelayedFrom f d => dataRelayedFrom f (st !!! d)
  | dataDirect d => dataDirect (st !!! d)
  end.

Definition load (st : store) (r : responseOf nat) : response :=
  {| to := to r; m := loadMessage st (m r) |}.

(** [case request, ok := <-requests] of [meshPeer], for [ok]. *)
Definition peerOnRequest (g : gob) (p : peer) (req : request) : result peer :=
  match decodePeerRequest g (buffer req) with
  | DecodeError => Next p [Log "ignoring"]
  | DecodedNil => Panicked []
  | Decoded r =>
      let '(p', es) := updatePeer r p (from req) in
      Next p' es
  end.

(** The inputs of the peer loop: a tick (with the order of the map
    visit), a value received from [timeout], a slice received from
    [broadcast] (with the rounds of the loop over the map, see
    [peerOnBroadcast]) or a value received from [requests]. *)
Inductive peerInput :=
| PeerTick (order : list address)
| PeerTimeout (a : UDPAddr)
| PeerBroadcast (visits : list (address * bytes))
| PeerRequest (req : request).

Definition peerStep (g : gob) (serverAddressUdp : UDPAddr) (p : peer)
    (i : peerInput) : result peer :=
  match i with
  | PeerTick order => Next p (peerOnTick serverAddressUdp order)
  | PeerTimeout a => let '(p', es) := peerOnTimeout p a in Next p' es
  | PeerBroadcast visits =>
      Next p (peerOnBroadcast serverAddressUdp p visits)
  | PeerRequest req => peerOnRequest g p req
  end.

Definition peer0 : peer :=
  {| peerIds := ∅; nextPeerId := 0; alivePeers := ∅ |}.

Definition meshPeer (g : gob) (serverAddressUdp : UDPAddr)
    (ins : list peerInput) : result peer :=
  run (peerStep g serverAddressUdp) peer0 ins.

(** The sender the server reports on [seen] for an input: the sender
    of a datagram that the decoder accepts. *)
Definition sighting (g : gob) (i : serverInput) : option UDPAddr :=
  match i with
  | ServerTimeout _ => None
  | ServerRequest _ req =>
      match decodeServerRequest g (buffer req) with
      | DecodeError => None
      | _ => Some (from req)
      end
  end.

(** The key a message of the broadcast is meant for: the key of the
    target of a direct message, the [To] field of a relayed one. *)
Definition addressee (r : response) : option address :=
  match m r with
  | dataDirect _ => addrKey <$> to r
  | dataRelayTo k _ => Some k
  | _ => None
  end.

(** The number of addresses an input makes the peer look at: the length
    of the list when the input is a datagram that decodes to a
    [peerList]. *)
Definition announcedBy (g : gob) (i : peerInput) : nat :=
  match i with
  | PeerRequest req =>
      match decodePeerRequest g (buffer req) with
      | Decoded (peerRequest_peerList l) => length l
      | _ => 0%nat
      end
  | _ => 0%nat
  end.

Definition announced (g : gob) (ins : list peerInput) : nat :=
  sum_list (map (announcedBy g) ins).

(** What the loop of [peerList.updatePeer] maintains: an entry of
    [knownPeerIds] is either the entry of [old] or, for a key [old] does
    not have, an id taken from the counter since it stood at [lo]; two
    such keys never share an id. *)
Definition idsInv (old : gmap address Z) (lo : Z) (knownPeerIds : gmap address Z)
    (next : Z) : Prop :=
  lo <= next
  ∧ (∀ a i, knownPeerIds !! a = Some i →
            old !! a = Some i ∨ (old !! a = None ∧ lo <= i < next))
  ∧ (∀ a b i, knownPeerIds !! a = Some i → knownPeerIds !! b = Some i →
              old !! a = None → old !! b = None → a = b).

(** What the peer loop maintains: the ids in use were taken from the
    counter, and no two keys share an id. *)
Definition peerInv (p : peer) : Prop :=
  0 <= nextPeerId p
  ∧ (∀ a i, peerIds p !! a = Some i → 0 <= i < nextPeerId p)
  ∧ (∀ a b i, peerIds p !! a = Some i → peerIds p !! b = Some i → a = b).

(** ** A codec to run the model on

    gob's wire format is not part of the repository.  [tagCodec] is a
    stand-in with the same interface, used wherever a concrete codec is
    needed: the number of the variant, then its fields, each list
    preceded by its length. *)

Definition putList (l : list Z) : bytes := Z.of_nat (length l) :: l.

Definition getList (b : bytes) : option (list Z * bytes) :=
  match b with
  | [] => None
  | n :: rest =>
      if decide (0 <= n ∧ (Z.to_nat n <= length rest)%nat)
      then Some (take (Z.to_nat n) rest, drop (Z.to_nat n) rest)
      else None
  end.

Fixpoint putLists (ls : list (list Z)) : bytes :=
  match ls with
  | [] => []
  | l :: rest => putList l ++ putLists rest
  end.

Fixpoint getLists (n : nat) (b : bytes) : option (list (list Z) * bytes) :=
  match n with
  | O => Some ([], b)
  | S n =>
      match getList b with
      | None => None
      | Some (l, b) =>
          match getLists n b with
          | None => None
          | Some (ls, b) => Some (l :: ls, b)
          end
      end
  end.

Definition tagEncode (v : message) : option bytes :=
  Some match v with
       | getPeerList => [0]
       | peerList l => 1 :: Z.of_nat (length l) :: putLists l
       | keepAlive => [2]
       | isAlive => [3]
       | dataRelayTo t d => 4 :: putList t ++ putList d
       | dataRelayedFrom f d => 5 :: putList f ++ putList d
       | dataDirect d => 6 :: putList d
       end.

Definition getAddressAndData (b : bytes) (k : address → bytes → message)
  : decoded message :=
  match getList b with
  | Some (a, b) =>
      match getList b with
      | Some (d, []) => Decoded (k a d)
      | _ => DecodeError
      end
  | None => DecodeError
  end.

Definition tagDecode (b : bytes) : decoded message :=
  match b with
  | [0] => Decoded getPeerList
  | 1 :: n :: b =>
      if decide (0 <= n)
      then match getLists (Z.to_nat n) b with
           | Some (l, []) => Decoded (peerList l)
           | _ => DecodeError
           end
      else DecodeError
  | [2] => Decoded keepAlive
  | [3] => Decoded isAlive
  | 4 :: b => getAddressAndData b dataRelayTo
  | 5 :: b => getAddressAndData b dataRelayedFrom
  | 6 :: b =>
      match getList b with
      | Some (d, []) => Decoded (dataDirect d)
      | _ => DecodeError
      end
  | _ => DecodeError
  end.

Definition tagCodec : gob := {| gobEncode := tagEncode; gobDecode := tagDecode |}.

(** A codec that, like gob, reads the encoding of a nil interface
    value (the four bytes 03 10 00 00: an interface with an empty type
    name) without an error and leaves the variable nil. *)
Definition nilCodec : gob :=
  {| gobEncode := tagEncode;
     gobDecode := λ b, if decide (b = [3; 16; 0; 0]) then DecodedNil
                       else tagDecode b |}.

(** A codec whose encoder refuses [keepAlive], to exercise the error
    path of the writer. *)
Definition refusingCodec : gob :=
  {| gobEncode := λ v, match v with keepAlive => None | _ => tagEncode v end;
     gobDecode := tagDecode |}.

(** ** Sample endpoints, keys and states *)

Definition endpointS : UDPAddr :=
  {| IP := [192; 0; 2; 1]; Port := 9000; Zone := EmptyString |}.

Definition endpointP1 : UDPAddr :=
  {| IP := [192; 0; 2; 11]; Port := 4001; Zone := EmptyString |}.

Definition endpointP2 : UDPAddr :=
  {| IP := [192; 0; 2; 12]; Port := 4002; Zone := EmptyString |}.

Definition keyP1 : address := Eval vm_compute in addrKey endpointP1.

Definition keyP2 : address := Eval vm_compute in addrKey endpointP2.

(** The link-local address fe80::1, port 9000, on the interface [zone]. *)
Definition linkLocal (zone : string) : UDPAddr :=
  {| IP := [254; 128; 0; 0; 0; 0; 0; 0; 0; 0; 0; 0; 0; 0; 0; 1];
     Port := 9000; Zone := zone |}.

(** A server with the members P1 and P2. *)
Definition serverP1P2 : server := {| peers := {[keyP1; keyP2]} |}.

(** A peer that knows P1 (id 0, alive) and P2 (id 1, not alive). *)
Definition peerP1P2 : peer :=
  {| peerIds := {[keyP1 := 0; keyP2 := 1]}; nextPeerId := 2;
     alivePeers := {[keyP1]} |}.

(** The datagram that carries [v] from [sender] under [tagCodec]. *)
Definition datagram (sender : UDPAddr) (v : message) : request :=
  {| from := sender; buffer := default [] (tagEncode v) |}.

(** The datagram of a [peerList] naming P1, as the server sends it. *)
Definition datagramListP1 : request := datagram endpointS (peerList [keyP1]).

(** ** The socket reader *)

(** What [conn.ReadFromUDP] returns: a datagram with its sender, or an
    error. *)
Inductive readResult :=
| ReadOk (payload : bytes) (sender : UDPAddr)
| ReadErr.

(** [conn.ReadFromUDP(buf)] for a datagram [payload]: the cells of [buf]
    after the read and the number of bytes read; what does not fit is
    lost. *)
Definition ReadFromUDP (buf payload : bytes) : bytes * nat :=
  (copy buf payload, Nat.min (length buf) (length payload)).

(** The size of the buffer of the reader: 65536 bytes. *)
Definition readBufferSize : nat := Z.to_nat 65536.

(** [func reader]: the requests sent on the channel for the results
    [reads] of the successive reads, and whether the channel is closed
    at the end (it is when a read fails; otherwise the reader waits for
    the next datagram). *)
Fixpoint reader (reads : list readResult) : list request * bool :=
  match reads with
  | [] => ([], false)
  | ReadErr :: _ => ([], true)
  | ReadOk payload sender :: rest =>
      let buf := make readBufferSize in
      let '(buf, n) := ReadFromUDP buf payload in
      let '(requests, closed) := reader rest in
      ({| from := sender; buffer := take n buf |} :: requests, closed)
  end.

(** The datagrams among the steps of the writer, in order. *)
Definition datagramsOf (ws : list written) : list (bytes * UDPAddr) :=
  omap (λ w, match w with Wrote b dst _ => Some (b, dst) | _ => None end) ws.

(** ** Vocabulary for traces *)

(** The input is a datagram from an endpoint with the key [k] that the
    server decodes to a [getPeerList]. *)
Definition joins (g : gob) (k : address) (i : serverInput) : Prop :=
  match i with
  | ServerRequest _ req =>
      decodeServerRequest g (buffer req) = Decoded serverRequest_getPeerList
      ∧ addrKey (from req) = k
  | ServerTimeout _ => False
  end.

(** The input is a watcher timeout for an endpoint with the key [k]. *)
Definition evicts (k : address) (i : serverInput) : Prop :=
  match i with
  | ServerTimeout a => addrKey a = k
  | ServerRequest _ _ => False
  end.

(** The input is a datagram from an endpoint with the key [k] that the
    peer decodes to an [isAlive]. *)
Definition revives (g : gob) (k : address) (i : peerInput) : Prop :=
  match i with
  | PeerRequest req =>
      decodePeerRequest g (buffer req) = Decoded peerRequest_isAlive
      ∧ addrKey (from req) = k
  | _ => False
  end.

(** The input is a watcher timeout of the peer for an endpoint with the
    key [k]. *)
Definition expires (k : address) (i : peerInput) : Prop :=
  match i with
  | PeerTimeout a => addrKey a = k
  | _ => False
  end.

(** The messages a peer ever sends. *)
Definition sentByPeer (v : message) : Prop :=
  match v with
  | getPeerList | keepAlive | isAlive | dataRelayTo _ _ | dataDirect _ => True
  | peerList _ | dataRelayedFrom _ _ => False
  end.

(** The number of entries of [A] the peer has no id for. *)
Definition unknownIn (p : peer) (A : list address) : nat :=
  length (filter (λ a, peerIds p !! a = None) A).

(** ** The goroutines of the server and their channels

    The server runs the core ([meshServer]), the [watcher] and one
    [watchdog] per watched key; the reader and the writer are its
    environment.  All channels are unbuffered: a send and a receive
    happen together or not at all.  A goroutine is described by the
    place where it waits and by its local variables; what it does
    between two waits touches only its own variables and is done in the
    same step as the wait that precedes it.  An [action] is a choice of
    the scheduler or of the environment; [step] gives the network after
    an action, or [None] when the action cannot take place. *)

(** Where a [watchdog] waits: at its [select], at [timeout <- addr]
    after its timer has fired, or nowhere (it has returned). *)
Inductive dogPc :=
| DogSelect
| DogSendTimeout
| DogDone.

(** Where the core waits: at its [select]; at [seen <- request.from],
    holding the decoded request ([None]: the nil interface); at
    [replies <- response] in [updateServer], with the responses still to
    send; nowhere (it has panicked, or it has left the loop and closed
    [responses]). *)
Inductive corePc :=
| CoreSelect
| CoreSendSeen (order : list address) (req : request) (r : option serverRequest)
| CoreSendReplies (rs : list response)
| CorePanicked
| CoreDone.

(** Where the [watcher] waits: at its [select]; at [feed <- struct{}{}]
    for the watchdog with the channel [ch]; at [timeout <- a]; nowhere
    (it has left the loop and closed [timeoutInner] and [timeout]). *)
Inductive watcherPc :=
| WatcherSelect
| WatcherFeed (ch : nat)
| WatcherSendTimeout (a : UDPAddr)
| WatcherDone.

(** The core: [core_timeout] and [core_requests] say whether the
    variables [timeout] and [requests] are not nil. *)
Record coreState := mkCore {
  core_pc : corePc;
  core_s : server;
  core_timeout : bool;
  core_requests : bool
}.

(** The watcher: the map [peers] from keys to the channels of the
    watchdogs (a channel is the index of its watchdog in [dogs]), and
    whether the variable [seen] is not nil. *)
Record watcherState := mkWatcher {
  watcher_pc : watcherPc;
  watcher_peers : gmap address nat;
  watcher_seen : bool
}.

Record network := mkNetwork {
  core : coreState;
  watcher : watcherState;
  dogs : list (UDPAddr * dogPc);
  closed_seen : bool;
  closed_timeout : bool;
  closed_responses : bool
}.

Inductive action :=
| RecvRequest (order : list address) (req : request)
| RequestsClosed
| SeenHandoff
| SeenClosedObserved
| FeedHandoff
| TimerFires (ch : nat)
| InnerTimeoutHandoff (ch : nat)
| TimeoutHandoff
| TimeoutClosedObserved
| ReplyHandoff.

(** The head of the loop of the core, [for timeout != nil || requests !=
    nil], and what follows the loop: the state of the core and whether
    [responses] is closed. *)
Definition coreLoop (s : server) (timeout requests : bool) : coreState * bool :=
  if timeout || requests
  then (mkCore CoreSelect s timeout requests, false)
  else (mkCore CoreDone s timeout requests, true).

(** The head of the loop of the watcher, [for seen != nil || len(peers)
    > 0], and what follows the loop: the state of the watcher and
    whether [timeoutInner] and [timeout] are closed. *)
Definition watcherLoop (peers : gmap address nat) (seen : bool)
  : watcherState * bool :=
  if seen || negb (bool_decide (peers = ∅))
  then (mkWatcher WatcherSelect peers seen, false)
  else (mkWatcher WatcherDone peers seen, true).

Definition stepRunning (g : gob) (n : network) (a : action) : option network :=
  let c := core n in
  let w := watcher n in
  match a with
  | RecvRequest order req =>
      (* case request, ok := <-requests, with ok *)
      match core_pc c, core_requests c with
      | CoreSelect, true =>
          match decodeServerRequest g (buffer req) with
          | DecodeError => Some n
          | DecodedNil =>
              Some (mkNetwork
                      (mkCore (CoreSendSeen order req None) (core_s c)
                              (core_timeout c) true)
                      w (dogs n) (closed_seen n) (closed_timeout n)
                      (closed_responses n))
          | Decoded r =>
              Some (mkNetwork
                      (mkCore (CoreSendSeen order req (Some r)) (core_s c)
                              (core_timeout c) true)
                      w (dogs n) (closed_seen n) (closed_timeout n)
                      (closed_responses n))
          end
      | _, _ => None
      end
  | RequestsClosed =>
      (* case request, ok := <-requests, without ok: close(seen) *)
      match core_pc c, core_requests c with
      | CoreSelect, true =>
          let '(c', closed) := coreLoop (core_s c) (core_timeout c) false in
          Some (mkNetwork c' w (dogs n) true (closed_timeout n) closed)
      | _, _ => None
      end
  | SeenHandoff =>
      (* seen <- request.from in the core, case m, ok := <-seen with ok
         in the watcher *)
      match core_pc c, watcher_pc w, watcher_seen w, closed_seen n with
      | CoreSendSeen order req r, WatcherSelect, true, false =>
          let c' :=
            match r with
            | None => mkCore CorePanicked (core_s c) (core_timeout c)
                             (core_requests c)
            | Some r =>
                let '(s', es) := updateServer order r (core_s c) (from req) in
                match responsesOf es with
                | [] => fst (coreLoop s' (core_timeout c) (core_requests c))
                | rs => mkCore (CoreSendReplies rs) s' (core_timeout c)
                               (core_requests c)
                end
            end in
          let key := addrKey (from req) in
          match watcher_peers w !! key with
          | Some feed =>
              Some (mkNetwork c'
                      (mkWatcher (WatcherFeed feed) (watcher_peers w) true)
                      (dogs n) false (closed_timeout n) (closed_responses n))
          | None =>
              let feed := length (dogs n) in
              Some (mkNetwork c'
                      (mkWatcher (WatcherFeed feed)
                                 (<[key := feed]> (watcher_peers w)) true)
                      (dogs n ++ [(from req, DogSelect)])
                      false (closed_timeout n) (closed_responses n))
          end
      | _, _, _, _ => None
      end
  | SeenClosedObserved =>
      (* case m, ok := <-seen without ok: seen = nil *)
      match watcher_pc w, watcher_seen w, closed_seen n with
      | WatcherSelect, true, true =>
          let '(w', closed) := watcherLoop (watcher_peers w) false in
          Some (mkNetwork c w' (dogs n) true closed (closed_responses n))
      | _, _, _ => None
      end
  | FeedHandoff =>
      (* feed <- struct{}{} in the watcher, case <-channel in the
         watchdog, which starts a new timer *)
      match watcher_pc w with
      | WatcherFeed ch =>
          match dogs n !! ch with
          | Some (_, DogSelect) =>
              let '(w', closed) := watcherLoop (watcher_peers w) (watcher_seen w) in
              Some (mkNetwork c w' (dogs n) (closed_seen n) closed
                      (closed_responses n))
          | _ => None
          end
      | _ => None
      end
  | TimerFires ch =>
      (* case <-time.After(5 * time.Second) in the watchdog *)
      match dogs n !! ch with
      | Some (addr, DogSelect) =>
          Some (mkNetwork c w (<[ch := (addr, DogSendTimeout)]> (dogs n))
                  (closed_seen n) (closed_timeout n) (closed_responses n))
      | _ => None
      end
  | InnerTimeoutHandoff ch =>
      (* timeout <- addr in the watchdog, case a := <-timeoutInner in the
         watcher: delete(peers, addrKey(a)) *)
      match dogs n !! ch, watcher_pc w, closed_timeout n with
      | Some (addr, DogSendTimeout), WatcherSelect, false =>
          Some (mkNetwork c
                  (mkWatcher (WatcherSendTimeout addr)
                             (delete (addrKey addr) (watcher_peers w))
                             (watcher_seen w))
                  (<[ch := (addr, DogDone)]> (dogs n))
                  (closed_seen n) false (closed_responses n))
      | _, _, _ => None
      end
  | TimeoutHandoff =>
      (* timeout <- a in the watcher, case a, ok := <-timeout with ok in
         the core: delete(s.peers, addrKey(a)) *)
      match watcher_pc w, core_pc c, core_timeout c, closed_timeout n with
      | WatcherSendTimeout a, CoreSelect, true, false =>
          let '(w', closed) := watcherLoop (watcher_peers w) (watcher_seen w) in
          let '(c', _) :=
            coreLoop {| peers := peers (core_s c) ∖ {[addrKey a]} |}
                     true (core_requests c) in
          Some (mkNetwork c' w' (dogs n) (closed_seen n) closed
                  (closed_responses n))
      | _, _, _, _ => None
      end
  | TimeoutClosedObserved =>
      (* case a, ok := <-timeout without ok: timeout = nil *)
      match core_pc c, core_timeout c, closed_timeout n with
      | CoreSelect, true, true =>
          let '(c', closed) := coreLoop (core_s c) false (core_requests c) in
          Some (mkNetwork c' w (dogs n) (closed_seen n) true closed)
      | _, _, _ => None
      end
  | ReplyHandoff =>
      (* replies <- response in updateServer, taken by the writer *)
      match core_pc c, closed_responses n with
      | CoreSendReplies (_ :: rs), false =>
          match rs with
          | [] =>
              let '(c', closed) :=
                coreLoop (core_s c) (core_timeout c) (core_requests c) in
              Some (mkNetwork c' w (dogs n) (closed_seen n) (closed_timeout n)
                      closed)
          | _ =>
              Some (mkNetwork
                      (mkCore (CoreSendReplies rs) (core_s c) (core_timeout c)
                              (core_requests c))
                      w (dogs n) (closed_seen n) (closed_timeout n) false)
          end
      | _, _ => None
      end
  end.

(** A panic of the core ends the process: no goroutine takes a step
    after it. *)
Definition step (g : gob) (n : network) (a : action) : option network :=
  match core_pc (core n) with
  | CorePanicked => None
  | _ => stepRunning g n a
  end.

(** The network after a sequence of actions. *)
Fixpoint exec (g : gob) (n : network) (acts : list action) : option network :=
  match acts with
  | [] => Some n
  | a :: rest =>
      match step g n a with
      | Some n' => exec g n' rest
      | None => None
      end
  end.

(** The network when [meshServer] has started its goroutine and the
    watcher. *)
Definition network0 : network :=
  mkNetwork (mkCore CoreSelect server0 true true)
            (mkWatcher WatcherSelect ∅ true)
            [] false false false.

(** The core waits to send on [seen]. *)
Definition coreAtSeen (n : network) : Prop :=
  match core_pc (core n) with
  | CoreSendSeen _ _ _ => True
  | _ => False
  end.

(** The core is at a send on [responses]. *)
Definition coreAtReplies (n : network) : Prop :=
  match core_pc (core n) with
  | CoreSendReplies _ => True
  | _ => False
  end.

(** The watcher waits to send on [timeout]. *)
Definition watcherAtTimeout (n : network) : Prop :=
  match watcher_pc (watcher n) with
  | WatcherSendTimeout _ => True
  | _ => False
  end.

(** A watchdog that has not returned. *)
Definition liveDog (pc : dogPc) : Prop := pc ≠ DogDone.

(** The keys of the map of the watcher and the watchdogs that have not
    returned correspond one to one. *)
Definition watchedInv (n : network) : Prop :=
  (∀ k ch, watcher_peers (watcher n) !! k = Some ch →
           ∃ a pc, dogs n !! ch = Some (a, pc) ∧ addrKey a = k ∧ liveDog pc)
  ∧ (∀ ch a pc, dogs n !! ch = Some (a, pc) → liveDog pc →
                watcher_peers (watcher n) !! addrKey a = Some ch).

(** How the variables of the goroutines and the closed channels go
    together. *)
Definition closingInv (n : network) : Prop :=
  (closed_timeout n = true ↔ watcher_pc (watcher n) = WatcherDone)
  ∧ (watcher_pc (watcher n) = WatcherDone →
     watcher_peers (watcher n) = ∅ ∧ watcher_seen (watcher n) = false)
  ∧ closed_seen n = negb (core_requests (core n))
  ∧ (coreAtSeen n ∨ coreAtReplies n → core_requests (core n) = true)
  ∧ (watcher_seen (watcher n) = false → closed_seen n = true)
  ∧ (core_timeout (core n) = false → closed_timeout n = true)
  ∧ (closed_responses n = true ↔ core_pc (core n) = CoreDone)
  ∧ (core_pc (core n) = CoreDone →
     core_timeout (core n) = false ∧ core_requests (core n) = false).

(** What holds of the network whatever the schedule. *)
Definition networkInv (n : network) : Prop := watchedInv n ∧ closingInv n.

(** Every member of the server has a watchdog, but for the one whose
    timeout the watcher is handing to the core. *)
Definition memberInv (n : network) : Prop :=
  ∀ k, k ∈ peers (core_s (core n)) →
       is_Some (watcher_peers (watcher n) !! k)
       ∨ ∃ a, watcher_pc (watcher n) = WatcherSendTimeout a ∧ addrKey a = k.

(** The timer of a watchdog fires. *)
Definition isTimerFires (a : action) : Prop :=
  match a with TimerFires _ => True | _ => False end.

(** The writer takes a response. *)
Definition isReplyHandoff (a : action) : bool :=
  match a with ReplyHandoff => true | _ => false end.

(** The responses that the core has still to send for the request in
    hand. *)
Definition pendingReplies (n : network) : nat :=
  match core_pc (core n) with
  | CoreSendReplies rs => length rs
  | _ => 0%nat
  end.

(** The watcher waits at [feed <- struct{}{}] for the watchdog [ch] of
    the address [a], and this watchdog waits at [timeout <- addr]. *)
Definition watcherBlockedOnDog (n : network) (ch : nat) (a : UDPAddr) : Prop :=
  watcher_pc (watcher n) = WatcherFeed ch
  ∧ dogs n !! ch = Some (a, DogSendTimeout).

(** Nothing of the server has shut down: the core still reads [timeout],
    and neither [timeout] nor [responses] is closed. *)
Definition serving (n : network) : Prop :=
  core_timeout (core n) = true
  ∧ closed_timeout n = false
  ∧ closed_responses n = false.

(** A schedule: a first datagram joins its sender and is answered, the
    timer of its watchdog fires and the watcher takes the timeout; the
    core takes a second datagram before it takes the timeout. *)
Definition timeoutDuringRequest (order1 order2 : list address)
  (req1 req2 : request) : list action :=
  [RecvRequest order1 req1; SeenHandoff; FeedHandoff; ReplyHandoff;
   TimerFires 0; InnerTimeoutHandoff 0; RecvRequest order2 req2].

(** A schedule: a first datagram joins its sender and is answered, the
    timer of its watchdog fires; before the watcher takes the timeout it
    takes the sender of a second datagram of the same address. *)
Definition timerBeforeFeed (order1 order2 : list address)
  (req1 req2 : request) : list action :=
  [RecvRequest order1 req1; SeenHandoff; FeedHandoff; ReplyHandoff;
   TimerFires 0; RecvRequest order2 req2; SeenHandoff].

(** The input of the loop of the core that an action completes: a
    datagram when it is dropped or when its sender is handed to the
    watcher, a timeout when the core takes it. *)
Definition inputOf (g : gob) (n : network) (a : action) : option serverInput :=
  match a with
  | RecvRequest order req =>
      match decodeServerRequest g (buffer req) with
      | DecodeError => Some (ServerRequest order req)
      | _ => None
      end
  | SeenHandoff =>
      match core_pc (core n) with
      | CoreSendSeen order req _ => Some (ServerRequest order req)
      | _ => None
      end
  | TimeoutHandoff =>
      match watcher_pc (watcher n) with
      | WatcherSendTimeout a => Some (ServerTimeout a)
      | _ => None
      end
  | _ => None
  end.

(** The response the writer takes in an action. *)
Definition replyOf (n : network) (a : action) : option response :=
  match a, core_pc (core n) with
  | ReplyHandoff, CoreSendReplies (r :: _) => Some r
  | _, _ => None
  end.

(** The inputs the core completes over a schedule, in order. *)
Fixpoint inputsOf (g : gob) (n : network) (acts : list action)
  : list serverInput :=
  match acts with
  | [] => []
  | a :: rest =>
      match step g n a with
      | Some n' => option_list (inputOf g n a) ++ inputsOf g n' rest
      | None => []
      end
  end.

(** The responses the writer takes over a schedule, in order. *)
Fixpoint repliesOf (g : gob) (n : network) (acts : list action)
  : list response :=
  match acts with
  | [] => []
  | a :: rest =>
      match step g n a with
      | Some n' => option_list (replyOf n a) ++ repliesOf g n' rest
      | None => []
      end
  end.

(** The responses the core has still to send for the request in hand. *)
Definition pendingOf (n : network) : list response :=
  match core_pc (core n) with
  | CoreSendReplies rs => rs
  | _ => []
  end.

(** The request the core holds at [seen <- request.from] is what the
    decoder gave for the datagram. *)
Definition heldInv (g : gob) (n : network) : Prop :=
  match core_pc (core n) with
  | CoreSendSeen _ req r =>
      decodeServerRequest g (buffer req)
      = match r with Some r => Decoded r | None => DecodedNil end
  | _ => True
  end.

(** The watcher is in its loop only while [seen] is not nil or a
    watchdog is left. *)
Definition idleInv (n : network) : Prop :=
  watcher_pc (watcher n) = WatcherSelect →
  watcher_seen (watcher n) = true ∨ watcher_peers (watcher n) ≠ ∅.

(** The actions of a shutdown: a channel is closed or seen to be
    closed, a timer fires, a timeout is handed on. *)
Definition isShutdownAction (a : action) : Prop :=
  match a with
  | RecvRequest _ _ | SeenHandoff | FeedHandoff | ReplyHandoff => False
  | _ => True
  end.

(** The core has closed [seen] and waits for timeouts; the watcher has
    seen it and waits for its watchdogs, or has returned. *)
Definition finishing (n : network) : Prop :=
  core_pc (core n) = CoreSelect
  ∧ core_timeout (core n) = true
  ∧ core_requests (core n) = false
  ∧ ((watcher_pc (watcher n) = WatcherSelect
      ∧ watcher_seen (watcher n) = false
      ∧ closed_timeout n = false
      ∧ watcher_peers (watcher n) ≠ ∅)
     ∨ (watcher_pc (watcher n) = WatcherDone
        ∧ closed_timeout n = true
        ∧ watcher_peers (watcher n) = ∅)).

(** ** The goroutines of a peer and their channels

    A peer runs the core ([meshPeer]), a [watcher] on [p.seenPeerAlive]
    and one [watchdog] per watched key; the reader, the writer, the
    ticker and the application (which sends on [broadcast] and receives
    from [data]) are its environment.  A slice sent on [broadcast]
    shares its array with the application, which runs on after the
    send: the array is part of the state of the network, the
    application may write it while the core is in the loop of the
    broadcast, and the core reads it at every copy. *)

(** The watcher with its watchdogs and its two channels to the core. *)
Record watching := mkWatching {
  w_state : watcherState;
  w_dogs : list (UDPAddr * dogPc);
  w_closed_seen : bool;
  w_closed_timeout : bool
}.

(** [case m, ok := <-seen] with [ok], for the value [m]: the watcher
    looks up the watchdog of [addrKey(m)], starts one if there is none,
    and goes on to [feed <- struct{}{}]. *)
Definition watchingSeen (m : UDPAddr) (w : watching) : option watching :=
  match watcher_pc (w_state w), watcher_seen (w_state w), w_closed_seen w with
  | WatcherSelect, true, false =>
      let key := addrKey m in
      match watcher_peers (w_state w) !! key with
      | Some feed =>
          Some (mkWatching
                  (mkWatcher (WatcherFeed feed) (watcher_peers (w_state w)) true)
                  (w_dogs w) false (w_closed_timeout w))
      | None =>
          let feed := length (w_dogs w) in
          Some (mkWatching
                  (mkWatcher (WatcherFeed feed)
                             (<[key := feed]> (watcher_peers (w_state w))) true)
                  (w_dogs w ++ [(m, DogSelect)])
                  false (w_closed_timeout w))
      end
  | _, _, _ => None
  end.

(** [case m, ok := <-seen] without [ok]: [seen = nil]. *)
Definition watchingSeenClosed (w : watching) : option watching :=
  match watcher_pc (w_state w), watcher_seen (w_state w), w_closed_seen w with
  | WatcherSelect, true, true =>
      let '(s', closed) := watcherLoop (watcher_peers (w_state w)) false in
      Some (mkWatching s' (w_dogs w) true closed)
  | _, _, _ => None
  end.

(** [feed <- struct{}{}] in the watcher, [case <-channel] in the
    watchdog. *)
Definition watchingFeed (w : watching) : option watching :=
  match watcher_pc (w_state w) with
  | WatcherFeed ch =>
      match w_dogs w !! ch with
      | Some (_, DogSelect) =>
          let '(s', closed) :=
            watcherLoop (watcher_peers (w_state w)) (watcher_seen (w_state w)) in
          Some (mkWatching s' (w_dogs w) (w_closed_seen w) closed)
      | _ => None
      end
  | _ => None
  end.

(** [case <-time.After(5 * time.Second)] in the watchdog [ch]. *)
Definition watchingTimer (ch : nat) (w : watching) : option watching :=
  match w_dogs w !! ch with
  | Some (addr, DogSelect) =>
      Some (mkWatching (w_state w) (<[ch := (addr, DogSendTimeout)]> (w_dogs w))
              (w_closed_seen w) (w_closed_timeout w))
  | _ => None
  end.

(** [timeout <- addr] in the watchdog [ch], [case a := <-timeoutInner]
    in the watcher: [delete(peers, addrKey(a))]. *)
Definition watchingInner (ch : nat) (w : watching) : option watching :=
  match w_dogs w !! ch, watcher_pc (w_state w), w_closed_timeout w with
  | Some (addr, DogSendTimeout), WatcherSelect, false =>
      Some (mkWatching
              (mkWatcher (WatcherSendTimeout addr)
                         (delete (addrKey addr) (watcher_peers (w_state w)))
                         (watcher_seen (w_state w)))
              (<[ch := (addr, DogDone)]> (w_dogs w))
              (w_closed_seen w) false)
  | _, _, _ => None
  end.

(** [timeout <- a] in the watcher: the value and the watcher after it. *)
Definition watchingTimeout (w : watching) : option (UDPAddr * watching) :=
  match watcher_pc (w_state w), w_closed_timeout w with
  | WatcherSendTimeout a, false =>
      let '(s', closed) :=
        watcherLoop (watcher_peers (w_state w)) (watcher_seen (w_state w)) in
      Some (a, mkWatching s' (w_dogs w) (w_closed_seen w) closed)
  | _, _ => None
  end.

(** Where the core of a peer waits: at its [select]; at the sends of
    the iteration it is in, with the sends still to do (on [responses],
    on [p.seenPeerAlive] or on [data]); in the loop over [p.peerIds] of
    a broadcast, either before [make] and [copy] for the next key, with
    the keys still to visit, or at [responses <- m], with the message
    and the keys still to visit; nowhere (it has panicked, or it has
    left the loop and closed [data] and [responses]). *)
Inductive peerPc :=
| PeerSelect
| PeerSending (es : list effect)
| PeerCopying (todo : list address)
| PeerRangeSending (r : response) (todo : list address)
| PeerPanicked
| PeerDone.

(** The core: [peer_timeout], [peer_requests] and [peer_broadcast] say
    whether the variables [timeout], [requests] and [broadcast] are not
    nil. *)
Record peerCore := mkPeerCore {
  peer_pc : peerPc;
  peer_p : peer;
  peer_timeout : bool;
  peer_requests : bool;
  peer_broadcast : bool
}.

(** [pn_closed_out] says whether [data] and [responses] are closed;
    [pn_buf] is the array of the slice the core has received on
    [broadcast], which it shares with the application. *)
Record peerNetwork := mkPeerNetwork {
  pn_core : peerCore;
  pn_watching : watching;
  pn_closed_out : bool;
  pn_buf : bytes
}.

Inductive peerAction :=
| PeerTakes (i : peerInput)
| PeerRequestsClosed
| PeerBroadcastHandoff (order : list address) (buf : bytes)
| PeerBroadcastClosed
| PeerAppWrites (b : bytes)
| PeerCopies
| PeerSeenHandoff
| PeerSeenClosedObserved
| PeerFeedHandoff
| PeerTimerFires (ch : nat)
| PeerInnerTimeoutHandoff (ch : nat)
| PeerTimeoutHandoff
| PeerTimeoutClosedObserved
| PeerReplyHandoff
| PeerDataHandoff.

(** The effects at which a goroutine waits for another: everything but
    a log line. *)
Definition sendsOf (es : list effect) : list effect :=
  omap (λ e, match e with Log _ => None | _ => Some e end) es.

(** The head of the loop of the core, [for timeout != nil || requests !=
    nil], and what follows the loop: the state of the core and whether
    [data] and [responses] are closed. *)
Definition peerLoop (p : peer) (timeout requests broadcast : bool)
  : peerCore * bool :=
  if timeout || requests
  then (mkPeerCore PeerSelect p timeout requests broadcast, false)
  else (mkPeerCore PeerDone p timeout requests broadcast, true).

(** The core with the sends [es] of its iteration still to do: it waits
    at the first of them, or is back at the head of the loop. *)
Definition peerSends (es : list effect) (p : peer)
    (timeout requests broadcast : bool) : peerCore * bool :=
  match es with
  | [] => peerLoop p timeout requests broadcast
  | _ => (mkPeerCore (PeerSending es) p timeout requests broadcast, false)
  end.

(** The core in the loop over [p.peerIds] of a broadcast with the keys
    [todo] still to visit: it is about to copy for the first of them,
    or is back at the head of the loop. *)
Definition peerRange (todo : list address) (p : peer)
    (timeout requests broadcast : bool) : peerCore * bool :=
  match todo with
  | [] => peerLoop p timeout requests broadcast
  | _ => (mkPeerCore (PeerCopying todo) p timeout requests broadcast, false)
  end.

(** The core takes the input [i] at its [select].  The state of the
    iteration is that of [peerStep]: the one handler that both writes
    the state and sends, [isAlive.updatePeer], writes first. *)
Definition peerTakes (g : gob) (serverAddressUdp : UDPAddr) (c : peerCore)
    (i : peerInput) : peerCore * bool :=
  match peerStep g serverAddressUdp (peer_p c) i with
  | Next p' es =>
      peerSends (sendsOf es) p' (peer_timeout c) (peer_requests c)
                (peer_broadcast c)
  | Panicked _ =>
      (mkPeerCore PeerPanicked (peer_p c) (peer_timeout c) (peer_requests c)
                  (peer_broadcast c), false)
  end.

Definition peerStepRunning (g : gob) (serverAddressUdp : UDPAddr)
    (n : peerNetwork) (a : peerAction) : option peerNetwork :=
  let c := pn_core n in
  let w := pn_watching n in
  match a with
  | PeerTakes i =>
      (* case <-ticker and case request, ok := <-requests, with ok *)
      let ready :=
        match i with
        | PeerTick _ => true
        | PeerTimeout _ => false
        | PeerBroadcast _ => false
        | PeerRequest _ => peer_requests c
        end in
      match peer_pc c, ready with
      | PeerSelect, true =>
          let '(c', closed) := peerTakes g serverAddressUdp c i in
          Some (mkPeerNetwork c' w closed (pn_buf n))
      | _, _ => None
      end
  | PeerRequestsClosed =>
      (* case request, ok := <-requests, without ok:
         close(p.seenPeerAlive) *)
      match peer_pc c, peer_requests c with
      | PeerSelect, true =>
          let '(c', closed) :=
            peerLoop (peer_p c) (peer_timeout c) false (peer_broadcast c) in
          Some (mkPeerNetwork c'
                  (mkWatching (w_state w) (w_dogs w) true (w_closed_timeout w))
                  closed (pn_buf n))
      | _, _ => None
      end
  | PeerBroadcastHandoff order buf =>
      (* case buf, ok := <-broadcast, with ok: the core holds a slice of
         the array of the application, which holds [buf]; the range
         over p.peerIds will visit the keys in [order] *)
      match peer_pc c, peer_broadcast c with
      | PeerSelect, true =>
          let '(c', closed) :=
            peerRange order (peer_p c) (peer_timeout c) (peer_requests c)
                      true in
          Some (mkPeerNetwork c' w closed buf)
      | _, _ => None
      end
  | PeerBroadcastClosed =>
      (* case buf, ok := <-broadcast, without ok: broadcast = nil *)
      match peer_pc c, peer_broadcast c with
      | PeerSelect, true =>
          let '(c', closed) :=
            peerLoop (peer_p c) (peer_timeout c) (peer_requests c) false in
          Some (mkPeerNetwork c' w closed (pn_buf n))
      | _, _ => None
      end
  | PeerAppWrites b =>
      (* the application writes into its array while the core is in the
         loop of the broadcast *)
      match peer_pc c with
      | PeerCopying _ | PeerRangeSending _ _ =>
          Some (mkPeerNetwork c w (pn_closed_out n) (copy (pn_buf n) b))
      | _ => None
      end
  | PeerCopies =>
      (* cp := make([]byte, len(buf)); copy(cp, buf); the message for
         the key is built, the core goes on to responses <- m *)
      match peer_pc c with
      | PeerCopying (addr :: todo) =>
          let buf := pn_buf n in
          let cp := make (length buf) in
          let cp := copy cp buf in
          let r := broadcastTo serverAddressUdp (peer_p c) cp addr in
          Some (mkPeerNetwork
                  (mkPeerCore (PeerRangeSending r todo) (peer_p c)
                              (peer_timeout c) (peer_requests c)
                              (peer_broadcast c))
                  w (pn_closed_out n) buf)
      | _ => None
      end
  | PeerSeenHandoff =>
      (* p.seenPeerAlive <- from in isAlive.updatePeer *)
      match peer_pc c with
      | PeerSending (SendSeen m :: es) =>
          match watchingSeen m w with
          | Some w' =>
              let '(c', closed) :=
                peerSends es (peer_p c) (peer_timeout c) (peer_requests c)
                          (peer_broadcast c) in
              Some (mkPeerNetwork c' w' closed (pn_buf n))
          | None => None
          end
      | _ => None
      end
  | PeerSeenClosedObserved =>
      match watchingSeenClosed w with
      | Some w' => Some (mkPeerNetwork c w' (pn_closed_out n) (pn_buf n))
      | None => None
      end
  | PeerFeedHandoff =>
      match watchingFeed w with
      | Some w' => Some (mkPeerNetwork c w' (pn_closed_out n) (pn_buf n))
      | None => None
      end
  | PeerTimerFires ch =>
      match watchingTimer ch w with
      | Some w' => Some (mkPeerNetwork c w' (pn_closed_out n) (pn_buf n))
      | None => None
      end
  | PeerInnerTimeoutHandoff ch =>
      match watchingInner ch w with
      | Some w' => Some (mkPeerNetwork c w' (pn_closed_out n) (pn_buf n))
      | None => None
      end
  | PeerTimeoutHandoff =>
      (* timeout <- a in the watcher, case a, ok := <-timeout with ok in
         the core *)
      match peer_pc c, peer_timeout c, watchingTimeout w with
      | PeerSelect, true, Some (a, w') =>
          let '(c', closed) := peerTakes g serverAddressUdp c (PeerTimeout a) in
          Some (mkPeerNetwork c' w' closed (pn_buf n))
      | _, _, _ => None
      end
  | PeerTimeoutClosedObserved =>
      (* case a, ok := <-timeout without ok: timeout = nil *)
      match peer_pc c, peer_timeout c, w_closed_timeout w with
      | PeerSelect, true, true =>
          let '(c', closed) :=
            peerLoop (peer_p c) false (peer_requests c) (peer_broadcast c) in
          Some (mkPeerNetwork c' w closed (pn_buf n))
      | _, _, _ => None
      end
  | PeerReplyHandoff =>
      (* a send on responses, taken by the writer *)
      match peer_pc c with
      | PeerSending (SendResponse _ :: es) =>
          let '(c', closed) :=
            peerSends es (peer_p c) (peer_timeout c) (peer_requests c)
                      (peer_broadcast c) in
          Some (mkPeerNetwork c' w closed (pn_buf n))
      | PeerRangeSending _ todo =>
          let '(c', closed) :=
            peerRange todo (peer_p c) (peer_timeout c) (peer_requests c)
                      (peer_broadcast c) in
          Some (mkPeerNetwork c' w closed (pn_buf n))
      | _ => None
      end
  | PeerDataHandoff =>
      (* data <- PeerMsg, taken by the application *)
      match peer_pc c with
      | PeerSending (SendData _ :: es) =>
          let '(c', closed) :=
            peerSends es (peer_p c) (peer_timeout c) (peer_requests c)
                      (peer_broadcast c) in
          Some (mkPeerNetwork c' w closed (pn_buf n))
      | _ => None
      end
  end.

(** A panic of the core ends the process. *)
Definition peerNetStep (g : gob) (serverAddressUdp : UDPAddr)
    (n : peerNetwork) (a : peerAction) : option peerNetwork :=
  match peer_pc (pn_core n) with
  | PeerPanicked => None
  | _ => peerStepRunning g serverAddressUdp n a
  end.

Fixpoint peerExec (g : gob) (serverAddressUdp : UDPAddr) (n : peerNetwork)
    (acts : list peerAction) : option peerNetwork :=
  match acts with
  | [] => Some n
  | a :: rest =>
      match peerNetStep g serverAddressUdp n a with
      | Some n' => peerExec g serverAddressUdp n' rest
      | None => None
      end
  end.

(** The network when [meshPeer] has started its goroutine and the
    watcher. *)
Definition peerNetwork0 : peerNetwork :=
  mkPeerNetwork (mkPeerCore PeerSelect peer0 true true true)
                (mkWatching (mkWatcher WatcherSelect ∅ true) [] false false)
                false [].

(** The watcher part of the network of the server. *)
Definition watchingOf (n : network) : watching :=
  mkWatching (watcher n) (dogs n) (closed_seen n) (closed_timeout n).

Definition withWatching (n : network) (w : watching) : network :=
  mkNetwork (core n) (w_state w) (w_dogs w) (w_closed_seen w)
            (w_closed_timeout w) (closed_responses n).

(** The inputs of the loop of the core, the latest first, after the
    action [a] in the state [n]: an input taken at the [select] is
    added; a slice received on [broadcast] is a broadcast that has made
    no round yet, and every copy adds a round to it, with the key and
    what the array holds at the copy. *)
Definition peerInputsAfter (n : peerNetwork) (a : peerAction)
    (ins : list peerInput) : list peerInput :=
  match a with
  | PeerTakes i => i :: ins
  | PeerTimeoutHandoff =>
      match watcher_pc (w_state (pn_watching n)) with
      | WatcherSendTimeout a => PeerTimeout a :: ins
      | _ => ins
      end
  | PeerBroadcastHandoff _ _ => PeerBroadcast [] :: ins
  | PeerCopies =>
      match peer_pc (pn_core n), ins with
      | PeerCopying (addr :: _), PeerBroadcast visits :: rest =>
          PeerBroadcast (visits ++ [(addr, pn_buf n)]) :: rest
      | _, _ => ins
      end
  | _ => ins
  end.

(** The send of the core that an action completes. *)
Definition peerSentOf (n : peerNetwork) (a : peerAction) : option effect :=
  match a, peer_pc (pn_core n) with
  | (PeerSeenHandoff | PeerReplyHandoff | PeerDataHandoff), PeerSending (e :: _) =>
      Some e
  | PeerReplyHandoff, PeerRangeSending r _ => Some (SendResponse r)
  | _, _ => None
  end.

(** The inputs of the core (the latest first) and the sends it has
    completed (in order) after a schedule, given those before it. *)
Fixpoint peerTrace (g : gob) (serverAddressUdp : UDPAddr) (n : peerNetwork)
    (acts : list peerAction) (ins : list peerInput) (sent : list effect)
  : list peerInput * list effect :=
  match acts with
  | [] => (ins, sent)
  | a :: rest =>
      match peerNetStep g serverAddressUdp n a with
      | Some n' =>
          peerTrace g serverAddressUdp n' rest (peerInputsAfter n a ins)
                    (sent ++ option_list (peerSentOf n a))
      | None => (ins, sent)
      end
  end.

(** The inputs the core takes over a schedule, in order. *)
Definition peerInputsOf (g : gob) (serverAddressUdp : UDPAddr)
    (n : peerNetwork) (acts : list peerAction) : list peerInput :=
  reverse (fst (peerTrace g serverAddressUdp n acts [] [])).

(** The sends the core completes over a schedule, in order. *)
Definition peerSentsOf (g : gob) (serverAddressUdp : UDPAddr)
    (n : peerNetwork) (acts : list peerAction) : list effect :=
  snd (peerTrace g serverAddressUdp n acts [] []).

(** The sends the core has still to do in the iteration it is in. *)
Definition pendingSends (n : peerNetwork) : list effect :=
  match peer_pc (pn_core n) with
  | PeerSending es => es
  | PeerRangeSending r _ => [SendResponse r]
  | _ => []
  end.

(** The core in the state [n] has done what the loop of [meshPeer] does
    on the inputs [ins] (the latest first), and has completed the sends
    [sent]. *)
Definition peerRefines (g : gob) (serverAddressUdp : UDPAddr)
    (n : peerNetwork) (ins : list peerInput) (sent : list effect) : Prop :=
  match meshPeer g serverAddressUdp (reverse ins) with
  | Next p es =>
      peer_pc (pn_core n) ≠ PeerPanicked
      ∧ peer_p (pn_core n) = p
      ∧ sendsOf es = sent ++ pendingSends n
  | Panicked es =>
      peer_pc (pn_core n) = PeerPanicked
      ∧ sendsOf es = sent
  end
  ∧ match peer_pc (pn_core n) with
    | PeerCopying _ | PeerRangeSending _ _ =>
        ∃ visits rest, ins = PeerBroadcast visits :: rest
    | _ => True
    end.

(** The core waits to send on [p.seenPeerAlive]. *)
Definition peerAtSeen (n : peerNetwork) : Prop :=
  match peer_pc (pn_core n) with
  | PeerSending (SendSeen _ :: _) => True
  | _ => False
  end.

(** The watcher of the peer waits to send on [timeout]. *)
Definition peerWatcherAtTimeout (n : peerNetwork) : Prop :=
  match watcher_pc (w_state (pn_watching n)) with
  | WatcherSendTimeout _ => True
  | _ => False
  end.

(** The timer of a watchdog of the peer fires. *)
Definition isPeerTimerFires (a : peerAction) : Prop :=
  match a with PeerTimerFires _ => True | _ => False end.

(** A schedule: a first [isAlive] is taken and its sender handed to the
    watcher, the timer of the watchdog fires and the watcher takes the
    timeout; the core takes a second [isAlive] before it takes the
    timeout. *)
Definition peerTimeoutDuringIsAlive (req1 req2 : request) : list peerAction :=
  [PeerTakes (PeerRequest req1); PeerSeenHandoff; PeerFeedHandoff;
   PeerTimerFires 0; PeerInnerTimeoutHandoff 0; PeerTakes (PeerRequest req2)].

(** Every alive key has a watchdog, but for a key whose timeout the
    watcher is handing to the core and a key whose sender the core has
    still to hand to the watcher. *)
Definition aliveInv (n : peerNetwork) : Prop :=
  ∀ k, k ∈ alivePeers (peer_p (pn_core n)) →
       is_Some (watcher_peers (w_state (pn_watching n)) !! k)
       ∨ (∃ a, watcher_pc (w_state (pn_watching n)) = WatcherSendTimeout a
               ∧ addrKey a = k)
       ∨ (∃ m, SendSeen m ∈ pendingSends n ∧ addrKey m = k).

(** * Properties *)

Example addrKey_v4 :
  addrKey {| IP := [10; 0; 0; 7]; Port := 4660; Zone := EmptyString |}
  = [0; 0; 0; 0; 0; 0; 0; 0; 0; 0; 255; 255; 10; 0; 0; 7; 18; 52].
Proof. reflexivity. Qed.

Example addrFromKey_v4 :
  addrFromKey [0; 0; 0; 0; 0; 0; 0; 0; 0; 0; 255; 255; 10; 0; 0; 7; 18; 52]
  = Some {| IP := [0; 0; 0; 0; 0; 0; 0; 0; 0; 0; 255; 255; 10; 0; 0; 7];
            Port := 4660; Zone := EmptyString |}.
Proof. reflexivity. Qed.

Example tagCodec_relay :
  gobDecode tagCodec (default [] (gobEncode tagCodec (dataRelayTo [1; 2] [7; 8; 9])))
  = Decoded (dataRelayTo [1; 2] [7; 8; 9]).
Proof. reflexivity. Qed.

Example tagCodec_list :
  gobDecode tagCodec (default [] (gobEncode tagCodec (peerList [[1; 2]; []; [5]])))
  = Decoded (peerList [[1; 2]; []; [5]]).
Proof. reflexivity. Qed.

(** ** The address codec *)

Lemma byte_of_mod v : byte_of v = v mod 256.
Proof. unfold byte_of. change 255 with (Z.ones 8). by rewrite Z.land_ones. Qed.

Lemma lor_shiftl_8 l h : 0 <= l < 256 → Z.lor l (Z.shiftl h 8) = l + h * 256.
Proof.
  intros Hl. rewrite Z.shiftl_mul_pow2 by lia. change (2 ^ 8) with 256.
  rewrite <- Z.lxor_lor, <- Z.add_nocarry_lxor; [done | |].
  all: apply Z.bits_inj'; intros i Hi; rewrite Z.land_spec, Z.bits_0;
    destruct (decide (i < 8)) as [Hlt | Hge].
  all: try (change 256 with (2 ^ 8); rewrite (Z.mul_pow2_bits_low h 8 i) by lia;
            apply andb_false_r).
  all: rewrite (Z.bits_above_log2 l i); [done | lia |];
    destruct (decide (l = 0)) as [-> | ?]; [simpl; lia |];
    apply Z.log2_lt_pow2; [lia |]; apply Z.lt_le_trans with (2 ^ 8); [lia |];
    apply Z.pow_le_mono_r; lia.
Qed.

Lemma Uint16_pair h l : 0 <= l < 256 → Uint16 [h; l] = l + h * 256.
Proof. intros. unfold Uint16. simpl. by apply lor_shiftl_8. Qed.

Lemma PutUint16_pair x y v :
  PutUint16 [x; y] v = [byte_of (Z.shiftr v 8); byte_of v].
Proof. reflexivity. Qed.

Lemma PutUint16_Uint16 x y h l :
  isByte h → isByte l → PutUint16 [x; y] (Uint16 [h; l]) = [h; l].
Proof.
  unfold isByte. intros Hh Hl.
  rewrite PutUint16_pair, Uint16_pair, !byte_of_mod by done.
  rewrite Z.shiftr_div_pow2 by lia. change (2 ^ 8) with 256.
  rewrite Z.div_add, Z.mod_add by lia.
  rewrite (Z.div_small l), (Z.mod_small l), Z.mod_small by lia.
  done.
Qed.

Lemma Uint16_PutUint16 x y v :
  0 <= v < 65536 → Uint16 (PutUint16 [x; y] v) = v.
Proof.
  intros Hv. rewrite PutUint16_pair, !byte_of_mod.
  rewrite Uint16_pair by (apply Z.mod_pos_bound; lia).
  rewrite Z.shiftr_div_pow2 by lia. change (2 ^ 8) with 256.
  rewrite (Z.mod_small (v / 256)).
  - pose proof (Z.div_mod v 256). lia.
  - split; [apply Z.div_pos; lia | apply Z.div_lt_upper_bound; lia].
Qed.

Lemma uint16_range x : 0 <= uint16 x < 65536.
Proof. unfold uint16. apply Z.mod_pos_bound. lia. Qed.

Lemma As16_AddrPort_length e : length (As16 (fst (AddrPort e))) = 16%nat.
Proof.
  unfold AddrPort, AddrFromSlice. simpl.
  repeat case_decide; simpl; rewrite ?length_app; simpl; lia.
Qed.

(** The key in closed form: the sixteen address bytes, then the port. *)
Lemma addrKey_eq e :
  addrKey e
  = As16 (fst (AddrPort e))
    ++ PutUint16 [0; 0] (uint16 (Port e)).
Proof.
  unfold addrKey. pose proof (As16_AddrPort_length e) as Hlen.
  set (ip := As16 _) in *.
  change (take 16 (replicate 18 0)) with (replicate 16 0).
  change (drop 16 (replicate 18 0)) with [0; 0].
  assert (copy (replicate 16 0) ip = ip) as ->.
  { unfold copy. rewrite length_replicate, Hlen.
    change (drop 16 (replicate 16 0)) with (@nil Z).
    rewrite app_nil_r. apply take_ge. lia. }
  rewrite take_app_length', drop_app_length' by done. done.
Qed.

Lemma addrKey_length e : length (addrKey e) = 18%nat.
Proof.
  rewrite addrKey_eq, length_app, As16_AddrPort_length. done.
Qed.

(** The endpoint of a key in closed form. *)
Lemma addrFromKey_eq k :
  length k = 18%nat →
  addrFromKey k
  = Some {| IP := take 16 k; Port := Uint16 (drop 16 k); Zone := EmptyString |}.
Proof.
  intros Hk. unfold addrFromKey, AddrFromSlice.
  assert (length (take 16 k) = 16%nat) as Hlen by (rewrite length_take; lia).
  rewrite Hlen. simpl. done.
Qed.

Lemma legalKey_split k :
  legalKey k →
  ∃ ip h l, k = ip ++ [h; l] ∧ length ip = 16%nat ∧ Forall isByte ip
            ∧ isByte h ∧ isByte l.
Proof.
  intros [Hlen Hb].
  rewrite <- (take_drop 16 k) in Hb. apply Forall_app in Hb as [Hip Hport].
  assert (length (drop 16 k) = 2%nat) as Hd by (rewrite length_drop; lia).
  destruct (drop 16 k) as [| h [| l [| ? ?]]] eqn:E; try done.
  exists (take 16 k), h, l.
  rewrite <- E, take_drop, length_take.
  inversion Hport as [| ? ? Hh Hl']. inversion Hl'. subst.
  split_and!; try done. lia.
Qed.

Lemma addrKey_addrFromKey k e :
  legalKey k → addrFromKey k = Some e → addrKey e = k.
Proof.
  intros Hk He.
  destruct (legalKey_split k Hk) as (ip & h & l & -> & Hlen & Hip & Hh & Hl).
  rewrite addrFromKey_eq in He by (rewrite length_app; simpl; lia).
  rewrite take_app_length', drop_app_length' in He by done.
  injection He as <-.
  rewrite addrKey_eq. unfold AddrPort, AddrFromSlice. simpl.
  rewrite Hlen. simpl.
  unfold uint16. rewrite Z.mod_small.
  - by rewrite PutUint16_Uint16.
  - rewrite Uint16_pair by done. unfold isByte in *. lia.
Qed.

Lemma addrFromKey_addrKey e :
  addrFromKey (addrKey e)
  = Some {| IP := As16 (fst (AddrPort e)); Port := uint16 (Port e);
            Zone := EmptyString |}.
Proof.
  rewrite addrFromKey_eq by apply addrKey_length.
  rewrite addrKey_eq.
  rewrite take_app_length', drop_app_length' by (by rewrite As16_AddrPort_length).
  by rewrite Uint16_PutUint16 by apply uint16_range.
Qed.

Lemma As16_AddrPort_v4 e :
  length (IP e) = 4%nat → As16 (fst (AddrPort e)) = v4InV6Prefix ++ IP e.
Proof. intros H. unfold AddrPort, AddrFromSlice. simpl. by rewrite H. Qed.

Lemma As16_AddrPort_v6 e :
  length (IP e) = 16%nat → As16 (fst (AddrPort e)) = IP e.
Proof. intros H. unfold AddrPort, AddrFromSlice. simpl. by rewrite H. Qed.

Lemma ipEqual_refl x : ipEqual x x = true.
Proof. unfold ipEqual. rewrite decide_True by done. by apply bool_decide_eq_true. Qed.

(** [net.IP.Equal] compares the sixteen-byte forms. *)
Lemma ipEqual_As16 e1 e2 :
  wfEndpoint e1 → wfEndpoint e2 →
  ipEqual (IP e1) (IP e2) = true
  ↔ As16 (fst (AddrPort e1)) = As16 (fst (AddrPort e2)).
Proof.
  intros ([H1 | H1] & _ & _) ([H2 | H2] & _ & _).
  all: rewrite ?(As16_AddrPort_v4 e1), ?(As16_AddrPort_v6 e1),
         ?(As16_AddrPort_v4 e2), ?(As16_AddrPort_v6 e2) by done.
  all: unfold ipEqual; rewrite H1, H2;
    repeat (first [rewrite decide_True by lia | rewrite decide_False by lia]).
  - rewrite bool_decide_eq_true. split; [by intros -> | by intros ?%app_inv_head].
  - rewrite andb_true_iff, !bool_decide_eq_true. split.
    + intros [<- ->]. apply take_drop.
    + intros <-. by rewrite take_app_length', drop_app_length'.
  - rewrite andb_true_iff, !bool_decide_eq_true. split.
    + intros [<- <-]. symmetry. apply take_drop.
    + intros ->. by rewrite take_app_length', drop_app_length'.
  - by rewrite bool_decide_eq_true.
Qed.

Lemma addrKey_legal e : Forall isByte (IP e) → legalKey (addrKey e).
Proof.
  intros Hb. split; [apply addrKey_length |].
  rewrite addrKey_eq, PutUint16_pair, !byte_of_mod. apply Forall_app. split.
  - unfold AddrPort, AddrFromSlice. simpl. repeat case_decide; simpl.
    + repeat (constructor; [unfold isByte; lia |]). done.
    + done.
    + repeat constructor; unfold isByte; lia.
  - repeat constructor; unfold isByte; apply Z.mod_pos_bound; lia.
Qed.

Lemma addrKey_inj_iff e1 e2 :
  addrKey e1 = addrKey e2
  ↔ As16 (fst (AddrPort e1)) = As16 (fst (AddrPort e2))
    ∧ uint16 (Port e1) = uint16 (Port e2).
Proof.
  rewrite !addrKey_eq. split.
  - intros H. apply app_inj_1 in H as [H1 H2];
      [| by rewrite !As16_AddrPort_length].
    split; [done |].
    rewrite <- (Uint16_PutUint16 0 0 (uint16 (Port e1))) by apply uint16_range.
    rewrite <- (Uint16_PutUint16 0 0 (uint16 (Port e2))) by apply uint16_range.
    by rewrite H2.
  - by intros [-> ->].
Qed.

Lemma ipEqual_As16_self e :
  wfEndpoint e → ipEqual (As16 (fst (AddrPort e))) (IP e) = true.
Proof.
  intros ([H4 | H16] & _ & _).
  - rewrite As16_AddrPort_v4 by done. unfold ipEqual.
    rewrite length_app, H4.
    repeat (first [rewrite decide_True by (simpl; lia)
                  | rewrite decide_False by (simpl; lia)]).
    by rewrite andb_true_iff, !bool_decide_eq_true,
         take_app_length', drop_app_length'.
  - rewrite As16_AddrPort_v6 by done. apply ipEqual_refl.
Qed.

(** C7 (as amended).  A legal key is the key of its endpoint.  The
    endpoint of the key of [e] is [e] without its zone (and with its
    address in sixteen-byte form): the same UDP endpoint as [e] when [e]
    has no zone.  Two endpoints have the same key exactly when
    [net.IP.Equal] holds of their addresses and their ports are equal;
    zones play no part. *)
Theorem addrKey_addrFromKey_round_trip (k : address) (e1 e2 : UDPAddr) :
  legalKey k → wfEndpoint e1 → wfEndpoint e2 →
  (∃ e, addrFromKey k = Some e ∧ addrKey e = k)
  ∧ legalKey (addrKey e1)
  ∧ (∃ e', addrFromKey (addrKey e1) = Some e'
           ∧ Zone e' = EmptyString
           ∧ sameEndpoint e' {| IP := IP e1; Port := Port e1;
                                Zone := EmptyString |} = true
           ∧ (Zone e1 = EmptyString → sameEndpoint e' e1 = true))
  ∧ (addrKey e1 = addrKey e2
     ↔ ipEqual (IP e1) (IP e2) = true ∧ Port e1 = Port e2)
  ∧ (Zone e1 = Zone e2 →
     (addrKey e1 = addrKey e2 ↔ sameEndpoint e1 e2 = true)).
Proof.
  intros Hk Hw1 Hw2.
  assert (addrKey e1 = addrKey e2
          ↔ ipEqual (IP e1) (IP e2) = true ∧ Port e1 = Port e2) as Hkeys.
  { rewrite addrKey_inj_iff, <- ipEqual_As16 by done.
    destruct Hw1 as (_ & _ & Hp1), Hw2 as (_ & _ & Hp2).
    unfold uint16. by rewrite !Z.mod_small by done. }
  split_and!.
  - rewrite addrFromKey_eq by apply Hk. eexists. split; [done |].
    apply addrKey_addrFromKey; [done |]. by apply addrFromKey_eq, Hk.
  - apply addrKey_legal, Hw1.
  - rewrite addrFromKey_addrKey. eexists. split; [done |].
    assert (sameEndpoint
              {| IP := As16 (fst (AddrPort e1)); Port := uint16 (Port e1);
                 Zone := EmptyString |}
              {| IP := IP e1; Port := Port e1; Zone := EmptyString |} = true)
      as Hsame.
    { unfold sameEndpoint. cbn [IP Port Zone].
      rewrite ipEqual_As16_self by done.
      destruct Hw1 as (_ & _ & Hport).
      unfold uint16. rewrite Z.mod_small by done.
      by rewrite !bool_decide_eq_true_2. }
    split_and!; [done | done |].
    intros Hz. destruct e1 as [ip port zone]. simpl in *. by subst zone.
  - done.
  - intros Hz. rewrite Hkeys. unfold sameEndpoint.
    rewrite !andb_true_iff, !bool_decide_eq_true. tauto.
Qed.

(** C9.  An 18-byte key always has an endpoint: the sixteen-byte slice
    passes [netip.AddrFromSlice], so [addrFromKey] does not return nil,
    and the writer never skips a response addressed by [addrFromKey]. *)
Theorem addrFromKey_not_nil (k : address) :
  length k = 18%nat →
  snd (AddrFromSlice (take 16 k)) = true
  ∧ (∃ e, addrFromKey k = Some e
          ∧ ∀ g conn v,
              writerStep g conn {| to := addrFromKey k; m := v |}
              = match gobEncode g v with
                | None => Fatal
                | Some b => Wrote b e (conn b e)
                end)
  ∧ (∀ g conn v, writerStep g conn {| to := addrFromKey k; m := v |} ≠ Skipped).
Proof.
  intros Hk.
  assert (length (take 16 k) = 16%nat) as Hlen by (rewrite length_take; lia).
  split_and!.
  - unfold AddrFromSlice. by rewrite Hlen.
  - rewrite addrFromKey_eq by done. eexists. split; [done |].
    intros g conn v. unfold writerStep. simpl. by destruct (gobEncode g v).
  - intros g conn v. unfold writerStep. rewrite addrFromKey_eq by done. simpl.
    by destruct (gobEncode g v).
Qed.

(** ** Runs of an event loop *)

Section Run.

Context {S I : Type} (step : S → I → result S).

Lemma run_cons_Next s i rest s'' es :
  run step s (i :: rest) = Next s'' es →
  ∃ s' e1 e2, step s i = Next s' e1 ∧ run step s' rest = Next s'' e2
              ∧ es = e1 ++ e2.
Proof.
  simpl. destruct (step s i) as [s' e1 |]; [| done].
  destruct (run step s' rest) as [s2 e2 |] eqn:Hrest; [| done].
  intros [= <- <-]. by exists s', e1, e2.
Qed.

Lemma run_app_Next s l1 l2 s'' es :
  run step s (l1 ++ l2) = Next s'' es →
  ∃ s' e1 e2, run step s l1 = Next s' e1 ∧ run step s' l2 = Next s'' e2
              ∧ es = e1 ++ e2.
Proof.
  revert s es. induction l1 as [| i l1 IH]; intros s es Hrun.
  - exists s, [], es. by split_and!.
  - rewrite <- app_comm_cons in Hrun.
    apply run_cons_Next in Hrun as (s1 & e1 & e2 & Hstep & Hrest & ->).
    apply IH in Hrest as (s' & e3 & e4 & H1 & H2 & ->).
    exists s', (e1 ++ e3), e4. split_and!; [| done | by rewrite app_assoc].
    simpl. by rewrite Hstep, H1.
Qed.

End Run.

(** ** The server core *)

Section Server.

Context (g : gob).

Lemma foldl_append_filter (a : address) (order acc : list address) :
  foldl (λ acc k, if decide (k ≠ a) then acc ++ [k] else acc) acc order
  = acc ++ filter (λ k, k ≠ a) order.
Proof.
  revert acc. induction order as [| k order IH]; intros acc; simpl.
  - by rewrite app_nil_r.
  - rewrite IH, filter_cons. destruct (decide (k ≠ a)); [| done].
    by rewrite <- app_assoc.
Qed.

Lemma rangeOrder_elements (X : gset address) : rangeOrder X (elements X).
Proof. unfold rangeOrder. reflexivity. Qed.

Lemma rangeOrder_NoDup X order : rangeOrder X order → NoDup order.
Proof. intros H. unfold rangeOrder in H. rewrite H. apply NoDup_elements. Qed.

Lemma rangeOrder_elem_of X order k : rangeOrder X order → k ∈ order ↔ k ∈ X.
Proof. intros H. unfold rangeOrder in H. by rewrite H, elem_of_elements. Qed.

Lemma rangeOrder_filter_ne X order a :
  rangeOrder X order →
  filter (λ k, k ≠ a) order ≡ₚ elements (X ∖ {[a]}).
Proof.
  intros H. apply NoDup_Permutation.
  - apply NoDup_filter. by eapply rangeOrder_NoDup.
  - apply NoDup_elements.
  - intros k. rewrite list_elem_of_filter, elem_of_elements,
      (rangeOrder_elem_of X order k H), elem_of_difference, elem_of_singleton.
    tauto.
Qed.

Lemma serverOnRequest_error order s req :
  decodeServerRequest g (buffer req) = DecodeError →
  serverOnRequest g order s req = Next s [Log "ignoring"].
Proof. intros H. unfold serverOnRequest. by rewrite H. Qed.

Lemma serverOnRequest_decoded order s req r :
  decodeServerRequest g (buffer req) = Decoded r →
  serverOnRequest g order s req
  = Next (fst (updateServer order r s (from req)))
         (SendSeen (from req) :: snd (updateServer order r s (from req))).
Proof.
  intros H. unfold serverOnRequest. rewrite H.
  by destruct (updateServer order r s (from req)).
Qed.

Lemma seenOf_updateServer order r s a :
  seenOf (snd (updateServer order r s a)) = [].
Proof.
  destruct r as [| t d]; simpl; [done |].
  by destruct (bool_decide (t ∈ peers s)).
Qed.

Lemma seenOf_app es1 es2 : seenOf (es1 ++ es2) = seenOf es1 ++ seenOf es2.
Proof. apply omap_app. Qed.

Lemma seenOf_serverStep s i s' es :
  serverStep g s i = Next s' es → seenOf es = option_list (sighting g i).
Proof.
  destruct i as [a | order req]; simpl; [by intros [= _ <-] |].
  unfold serverOnRequest.
  destruct (decodeServerRequest g (buffer req)) as [| | r]; [| done |].
  - by intros [= _ <-].
  - pose proof (seenOf_updateServer order r s (from req)) as Hseen.
    destruct (updateServer order r s (from req)) as [s1 es1].
    intros [= _ <-]. simpl in *. unfold seenOf in *. simpl. by rewrite Hseen.
Qed.

(** Over a run, [seen] receives the senders of the accepted datagrams,
    in the order of arrival. *)
Lemma seenOf_run s ins s' es :
  run (serverStep g) s ins = Next s' es → seenOf es = omap (sighting g) ins.
Proof.
  revert s es. induction ins as [| i ins IH]; intros s es Hrun.
  - by injection Hrun as _ <-.
  - apply run_cons_Next in Hrun as (s1 & e1 & e2 & Hstep & Hrest & ->).
    rewrite seenOf_app, (seenOf_serverStep _ _ _ _ Hstep), (IH _ _ Hrest).
    simpl. by destruct (sighting g i).
Qed.

End Server.

(** In the request branch of the server loop the sender is sent on
    [seen] exactly when the decoder reports no error, and before
    anything else; a datagram that fails to decode is logged and leaves
    the state as it was, with no send at all.  No error is not yet a
    message: see [server_seen_without_message]. *)
Lemma server_seen_iff_no_decode_error (g : gob) (order : list address) (s : server)
    (req : request) :
  let r := serverOnRequest g order s req in
  (decodeServerRequest g (buffer req) = DecodeError
   → r = Next s [Log "ignoring"])
  ∧ (decodeServerRequest g (buffer req) ≠ DecodeError
     → seenOf (effectsOf r) = [from req]
       ∧ head (effectsOf r) = Some (SendSeen (from req)))
  ∧ (from req ∈ seenOf (effectsOf r)
     ↔ decodeServerRequest g (buffer req) ≠ DecodeError)
  ∧ (∀ ins s' es,
       run (serverStep g) s ins = Next s' es →
       seenOf es = omap (sighting g) ins).
Proof.
  cbv zeta. split_and!; [| | | apply seenOf_run]; unfold serverOnRequest;
    destruct (decodeServerRequest g (buffer req)) as [| | r] eqn:E;
    try pose proof (seenOf_updateServer order r s (from req)) as Hseen;
    try destruct (updateServer order r s (from req)) as [s' es];
    simpl in *; try done.
  - intros _. unfold seenOf in *. simpl. by rewrite Hseen.
  - rewrite elem_of_nil. by split.
  - rewrite list_elem_of_singleton. by split.
  - unfold seenOf in *. simpl. rewrite Hseen, list_elem_of_singleton. by split.
Qed.

(** C4.  [getPeerList.updateServer] adds the key of the sender to the
    members and sends the sender one [peerList]: the members after the
    insertion without the key of the sender, each once, in the order of
    the map visit. *)
Theorem getPeerList_reply_members (order : list address) (s : server)
    (sender : UDPAddr) :
  rangeOrder ({[addrKey sender]} ∪ peers s) order →
  ∃ reply,
    getPeerList_updateServer order s sender
    = ({| peers := {[addrKey sender]} ∪ peers s |},
       [Log "getPeerList from";
        SendResponse {| to := Some sender; m := peerList reply |}])
    ∧ reply ≡ₚ elements (({[addrKey sender]} ∪ peers s) ∖ {[addrKey sender]})
    ∧ NoDup reply
    ∧ (∀ k, k ∈ reply
            ↔ k ∈ ({[addrKey sender]} ∪ peers s) ∧ k ≠ addrKey sender)
    ∧ (∀ g req,
         from req = sender →
         decodeServerRequest g (buffer req) = Decoded serverRequest_getPeerList →
         serverOnRequest g order s req
         = Next {| peers := {[addrKey sender]} ∪ peers s |}
                [SendSeen sender; Log "getPeerList from";
                 SendResponse {| to := Some sender; m := peerList reply |}]).
Proof.
  intros Horder.
  exists (filter (λ k, k ≠ addrKey sender) order).
  pose proof (rangeOrder_filter_ne _ _ (addrKey sender) Horder) as Hperm.
  assert (getPeerList_updateServer order s sender
          = ({| peers := {[addrKey sender]} ∪ peers s |},
             [Log "getPeerList from";
              SendResponse {| to := Some sender;
                              m := peerList (filter (λ k, k ≠ addrKey sender) order) |}]))
    as Heq.
  { unfold getPeerList_updateServer. by rewrite foldl_append_filter. }
  split_and!.
  - done.
  - done.
  - rewrite Hperm. apply NoDup_elements.
  - intros k. rewrite Hperm, elem_of_elements. set_solver.
  - intros g req <- Hdec.
    rewrite (serverOnRequest_decoded g order s req _ Hdec).
    cbn [updateServer]. by rewrite Heq.
Qed.

(** C5.  [dataRelayTo.updateServer] sends one [dataRelayedFrom] that
    carries the key of the sender and the data as received, to the
    endpoint of [To], exactly when [To] is a member; otherwise it sends
    nothing.  The members are the same afterwards in both cases. *)
Theorem dataRelayTo_relays_iff_member (To : address) (Data : bytes) (s : server)
    (sender : UDPAddr) :
  let relayed := {| to := addrFromKey To;
                    m := dataRelayedFrom (addrKey sender) Data |} in
  let out := dataRelayTo_updateServer To Data s sender in
  fst out = s
  ∧ (To ∈ peers s → responsesOf (snd out) = [relayed])
  ∧ (To ∉ peers s → responsesOf (snd out) = [])
  ∧ (∀ r, r ∈ responsesOf (snd out) ↔ To ∈ peers s ∧ r = relayed)
  ∧ seenOf (snd out) = [] ∧ dataOf (snd out) = []
  ∧ (length To = 18%nat → ∃ e, to relayed = Some e)
  ∧ (∀ g order req,
       from req = sender →
       decodeServerRequest g (buffer req)
       = Decoded (serverRequest_dataRelayTo To Data) →
       serverOnRequest g order s req = Next s (SendSeen sender :: snd out)).
Proof.
  simpl. unfold dataRelayTo_updateServer. simpl.
  destruct (decide (To ∈ peers s)) as [Hin | Hout].
  - rewrite bool_decide_eq_true_2 by done. simpl.
    split_and!; try done.
    + intros r. rewrite list_elem_of_singleton. by split; [intros -> | intros [_ ->]].
    + intros Hlen. rewrite addrFromKey_eq by done. by eexists.
    + intros g order req <- Hdec.
      rewrite (serverOnRequest_decoded g order s req _ Hdec). simpl.
      unfold dataRelayTo_updateServer. by rewrite bool_decide_eq_true_2.
  - rewrite bool_decide_eq_false_2 by done. simpl.
    split_and!; try done.
    + intros r. rewrite elem_of_nil. by split; [| intros [? _]].
    + intros Hlen. rewrite addrFromKey_eq by done. by eexists.
    + intros g order req <- Hdec.
      rewrite (serverOnRequest_decoded g order s req _ Hdec). simpl.
      unfold dataRelayTo_updateServer. by rewrite bool_decide_eq_false_2.
Qed.

(** ** The wire codec and the socket writer *)

Section Writer.

Context (g : gob) (conn : bytes → UDPAddr → bool).

Lemma writerStep_encodes r : encodes g r → writerStep g conn r ≠ Fatal.
Proof.
  unfold encodes, writerStep. intros [-> | H]; [done |].
  destruct (to r); [| done]. by destruct (gobEncode g (m r)).
Qed.

Lemma writer_cons r rest :
  writerStep g conn r ≠ Fatal →
  writer g conn (r :: rest)
  = (writerStep g conn r :: fst (writer g conn rest), snd (writer g conn rest)).
Proof.
  intros H. simpl. destruct (writer g conn rest) as [ws fin].
  by destruct (writerStep g conn r).
Qed.

Lemma writer_all_encode out :
  Forall (encodes g) out →
  writer g conn out = (map (writerStep g conn) out, true).
Proof.
  induction 1 as [| r rest Hr _ IH]; [done |].
  rewrite writer_cons by by apply writerStep_encodes. by rewrite IH.
Qed.

Lemma writer_app_fatal pre r rest :
  Forall (encodes g) pre →
  writerStep g conn r = Fatal →
  writer g conn (pre ++ r :: rest) = (map (writerStep g conn) pre ++ [Fatal], false).
Proof.
  intros Hpre Hr. induction Hpre as [| x pre Hx _ IH]; simpl.
  - by rewrite Hr.
  - change (writer g conn (x :: pre ++ r :: rest)
            = (writerStep g conn x :: map (writerStep g conn) pre ++ [Fatal], false)).
    rewrite writer_cons by by apply writerStep_encodes. by rewrite IH.
Qed.

End Writer.

(** C10.  The writer handles every entry up to the first message that
    gob cannot encode, whatever the socket reports for each datagram it
    writes; at that message it stops the process: the entries after it
    are never looked at and [done] is never signalled. *)
Theorem writer_fatal_on_encode_error (g : gob) (conn : bytes → UDPAddr → bool)
    (pre rest : list response) (r : response) (dst : UDPAddr) :
  Forall (encodes g) pre →
  to r = Some dst →
  gobEncode g (m r) = None →
  writerStep g conn r = Fatal
  ∧ writer g conn (pre ++ r :: rest)
    = (map (writerStep g conn) pre ++ [Fatal], false)
  ∧ writer g conn pre = (map (writerStep g conn) pre, true)
  ∧ (∀ x d b, x ∈ pre → to x = Some d → gobEncode g (m x) = Some b →
       writerStep g conn x = Wrote b d (conn b d))
  ∧ (∀ conn', snd (writer g conn' (pre ++ r :: rest)) = false
              ∧ snd (writer g conn' pre) = true
              ∧ length (fst (writer g conn' pre)) = length pre).
Proof.
  intros Hpre Hto Henc.
  assert (∀ c, writerStep g c r = Fatal) as Hfatal.
  { intros c. unfold writerStep. by rewrite Hto, Henc. }
  split_and!.
  - apply Hfatal.
  - by apply writer_app_fatal.
  - by apply writer_all_encode.
  - intros x d b _ Hx Hb. unfold writerStep. by rewrite Hx, Hb.
  - intros conn'. rewrite (writer_app_fatal g conn') by done.
    rewrite (writer_all_encode g conn') by done. simpl.
    by rewrite length_map.
Qed.

(** ** The stand-in codec *)

Lemma getList_putList l rest : getList (putList l ++ rest) = Some (l, rest).
Proof.
  unfold getList, putList. cbn [app].
  rewrite decide_True by (rewrite Nat2Z.id, length_app; lia).
  by rewrite Nat2Z.id, take_app_length, drop_app_length.
Qed.

Lemma getLists_putLists ls rest :
  getLists (length ls) (putLists ls ++ rest) = Some (ls, rest).
Proof.
  induction ls as [| l ls IH]; [done |].
  cbn [length getLists putLists].
  by rewrite <- app_assoc, getList_putList, IH.
Qed.

Lemma getAddressAndData_put a d k :
  getAddressAndData (putList a ++ putList d) k = Decoded (k a d).
Proof.
  unfold getAddressAndData. rewrite getList_putList.
  rewrite <- (app_nil_r (putList d)). by rewrite getList_putList.
Qed.

(** The stand-in codec honours the contract asked of gob. *)
Lemma tagCodec_round_trip : gobRoundTrip tagCodec.
Proof.
  intros v b. simpl. unfold tagEncode. intros [= <-].
  destruct v as [| l | | | t d | f d | d]; try done.
  - cbn [tagDecode]. rewrite decide_True by lia.
    rewrite Nat2Z.id, <- (app_nil_r (putLists l)). by rewrite getLists_putLists.
  - cbn [tagDecode]. apply getAddressAndData_put.
  - cbn [tagDecode]. apply getAddressAndData_put.
  - cbn [tagDecode]. rewrite <- (app_nil_r (putList d)).
    by rewrite getList_putList.
Qed.

Lemma nilCodec_round_trip : gobRoundTrip nilCodec.
Proof.
  intros v b Henc. cbn [gobEncode gobDecode nilCodec] in *.
  rewrite decide_False.
  - by apply tagCodec_round_trip.
  - intros ->. by destruct v.
Qed.

(** C1.  The claim fails on a datagram that the decoder reads without
    an error as the nil interface value (for gob the four bytes 03 10 00
    00).  No protocol message has been decoded, yet the core sends the
    sender on [seen], so that the watcher starts a watchdog for it; the
    core then calls [updateServer] on the nil value and panics.  The
    codec used reads back what it encodes. *)
Theorem server_seen_without_message :
  let req := {| from := endpointP1; buffer := [3; 16; 0; 0] |} in
  gobRoundTrip nilCodec
  ∧ decodeServerRequest nilCodec (buffer req) = DecodedNil
  ∧ (∀ r, decodeServerRequest nilCodec (buffer req) ≠ Decoded r)
  ∧ (∀ order s,
       serverOnRequest nilCodec order s req = Panicked [SendSeen endpointP1]
       ∧ from req ∈ seenOf (effectsOf (serverOnRequest nilCodec order s req)))
  ∧ ∃ n, exec nilCodec network0 [RecvRequest [] req; SeenHandoff] = Some n
         ∧ core_pc (core n) = CorePanicked
         ∧ dogs n = [(endpointP1, DogSelect)].
Proof.
  cbv zeta. split_and!.
  - apply nilCodec_round_trip.
  - done.
  - done.
  - intros order s. split; [done |]. apply list_elem_of_here.
  - eexists. split_and!; [by vm_compute | done | done].
Qed.

(** C6 (as amended).  Each side decodes into its own request interface.
    When gob reads back what it encodes, then from the encoding [b] of a
    message [v] the server
    obtains [v] if [v] is a [getPeerList] or a [dataRelayTo] and a decode
    error for the five other variants; the peer obtains [v] for those
    five and a decode error for the two server requests.  A decode error
    stops neither loop: the datagram is logged, nothing is sent and the
    state is kept. *)
Theorem decode_by_request_interface (g : gob) (v : message) (b : bytes) :
  gobRoundTrip g →
  gobEncode g v = Some b →
  decodeServerRequest g b
  = match asServerRequest v with
    | Some r => Decoded r
    | None => DecodeError
    end
  ∧ decodePeerRequest g b
    = match asPeerRequest v with
      | Some r => Decoded r
      | None => DecodeError
      end
  ∧ (∀ r, decodeServerRequest g b = Decoded r → messageOfServerRequest r = v)
  ∧ (∀ r, decodePeerRequest g b = Decoded r → messageOfPeerRequest r = v)
  ∧ (is_Some (asServerRequest v) ↔ asPeerRequest v = None)
  ∧ (∀ order s req,
       decodeServerRequest g (buffer req) = DecodeError →
       serverStep g s (ServerRequest order req) = Next s [Log "ignoring"])
  ∧ (∀ serverAddressUdp p req,
       decodePeerRequest g (buffer req) = DecodeError →
       peerStep g serverAddressUdp p (PeerRequest req) = Next p [Log "ignoring"]).
Proof.
  intros Hgob Hdec. apply Hgob in Hdec.
  assert (decodeServerRequest g b
          = match asServerRequest v with
            | Some r => Decoded r
            | None => DecodeError
            end) as Hs
    by (unfold decodeServerRequest; by rewrite Hdec).
  assert (decodePeerRequest g b
          = match asPeerRequest v with
            | Some r => Decoded r
            | None => DecodeError
            end) as Hp
    by (unfold decodePeerRequest; by rewrite Hdec).
  split_and!.
  - done.
  - done.
  - intros r. rewrite Hs. destruct v; simpl; intros [= <-]; done.
  - intros r. rewrite Hp. destruct v; simpl; intros [= <-]; done.
  - destruct v; simpl; split; by (intros [? [=]] || intros [=] || eauto).
  - intros order s req H. simpl. unfold serverOnRequest. by rewrite H.
  - intros srv p req H. simpl. unfold peerOnRequest. by rewrite H.
Qed.

(** ** The peer core *)

(** C8.  A watcher timeout for [a] takes the key of [a] out of the alive
    set and touches nothing else: [peerIds] and [nextPeerId] are as
    before, and nothing is sent. *)
Theorem peer_timeout_only_clears_alive (g : gob) (serverAddressUdp : UDPAddr)
    (p : peer) (a : UDPAddr) :
  let p' := fst (peerOnTimeout p a) in
  peerStep g serverAddressUdp p (PeerTimeout a) = Next p' [Log "Peer timed out"]
  ∧ alivePeers p' = alivePeers p ∖ {[addrKey a]}
  ∧ (addrKey a ∉ alivePeers p')
  ∧ (∀ k, k ≠ addrKey a → (k ∈ alivePeers p' ↔ k ∈ alivePeers p))
  ∧ peerIds p' = peerIds p
  ∧ nextPeerId p' = nextPeerId p.
Proof.
  simpl. split_and!; try done.
  - rewrite elem_of_difference, elem_of_singleton. tauto.
  - intros k Hk. rewrite elem_of_difference, elem_of_singleton. tauto.
Qed.

Section Broadcast.

Context (serverAddressUdp : UDPAddr) (p : peer).

Lemma copy_make buf : copy (make (length buf)) buf = buf.
Proof.
  unfold copy, make. rewrite length_replicate, take_ge by lia.
  rewrite drop_ge by (rewrite length_replicate; lia). apply app_nil_r.
Qed.

Lemma peerOnBroadcast_eq visits :
  peerOnBroadcast serverAddressUdp p visits
  = map (λ v, SendResponse (broadcastTo serverAddressUdp p (snd v) (fst v)))
        visits.
Proof.
  unfold peerOnBroadcast. apply map_ext. intros v. cbv zeta.
  by rewrite copy_make.
Qed.

Lemma responsesOf_map_SendResponse (rs : list response) :
  responsesOf (map SendResponse rs) = rs.
Proof. induction rs as [| r rs IH]; [done |]. simpl. unfold responsesOf in *. simpl. by rewrite IH. Qed.

Lemma addressee_broadcastTo buf k :
  length k = 18%nat →
  Forall isByte k →
  addressee (broadcastTo serverAddressUdp p buf k) = Some k.
Proof.
  intros Hlen Hb. unfold broadcastTo, addressee.
  destruct (bool_decide (k ∈ alivePeers p)); simpl; [| done].
  rewrite addrFromKey_eq by done. simpl. f_equal.
  apply addrKey_addrFromKey; [done |]. by apply addrFromKey_eq.
Qed.

Lemma copy_length (dst src : bytes) : length (copy dst src) = length dst.
Proof.
  unfold copy. rewrite length_app, length_take, length_drop. lia.
Qed.

Lemma callerWrites_length buf w st :
  length (callerWrites buf w st) = length st.
Proof.
  unfold callerWrites. destruct w as [b |]; [| done].
  destruct (st !! buf); [| done]. by rewrite length_insert.
Qed.

Lemma callerWrites_app buf w st suf :
  (buf < length st)%nat →
  callerWrites buf w (st ++ suf) = callerWrites buf w st ++ suf.
Proof.
  intros Hbuf. unfold callerWrites. destruct w as [b |]; [| done].
  rewrite lookup_app_l by done.
  destruct (st !! buf); [| done]. by rewrite insert_app_l.
Qed.

Lemma callerWrites_None buf st : callerWrites buf None st = st.
Proof. done. Qed.

(** One round of the loop in the store: the new array ends up holding
    what the array of [buf] holds. *)
Lemma copyAt_alloc (st : store) (buf : nat) (data : bytes) :
  st !! buf = Some data →
  copyAt (length st) buf (st ++ [make (length (st !!! buf))]) = st ++ [data].
Proof.
  intros Hbuf. unfold copyAt.
  rewrite (list_lookup_total_correct _ _ _ Hbuf).
  rewrite lookup_app_r, Nat.sub_diag by lia. simpl.
  rewrite lookup_app_l by by eapply lookup_lt_Some.
  rewrite Hbuf, copy_make.
  rewrite insert_app_r_alt, Nat.sub_diag by lia. done.
Qed.

Lemma readsOf_app buf visits st suf :
  (buf < length st)%nat →
  readsOf buf visits (st ++ suf) = readsOf buf visits st.
Proof.
  revert st. induction visits as [| [addr w] visits IH]; intros st Hbuf;
    [done |].
  cbn [readsOf]. rewrite callerWrites_app by done.
  rewrite IH by by rewrite callerWrites_length.
  f_equal. f_equal. apply lookup_total_app_l. by rewrite callerWrites_length.
Qed.

(** The loop in the store: round [i] hands out the array it allocated,
    which holds what the array of [buf] held at that round. *)
Lemma broadcastStore_eq (visits : list (address * option bytes))
    (st suf : store) (buf : nat) :
  (buf < length st)%nat →
  broadcastStore serverAddressUdp p buf visits (st ++ suf)
  = (imap (λ i v, broadcastTo serverAddressUdp p
                    (length st + length suf + i)%nat (fst v)) visits,
     foldl (λ st v, callerWrites buf (snd v) st) st visits
     ++ suf ++ map snd (readsOf buf visits st)).
Proof.
  revert st suf. induction visits as [| [addr w] visits IH]; intros st suf Hbuf.
  - simpl. by rewrite app_nil_r.
  - cbn [broadcastStore alloc readsOf foldl map fst snd].
    rewrite callerWrites_app by done.
    set (st1 := callerWrites buf w st).
    assert (length st1 = length st) as Hlen by apply callerWrites_length.
    assert (buf < length st1)%nat as Hbuf1 by lia.
    destruct (lookup_lt_is_Some_2 _ _ Hbuf1) as [data Hdata].
    assert ((st1 ++ suf) !! buf = Some data) as Hdata'
      by by rewrite lookup_app_l.
    rewrite (copyAt_alloc _ _ data) by done.
    rewrite <- app_assoc, (IH st1 (suf ++ [data])) by done.
    cbn [imap]. rewrite Nat.add_0_r, length_app, Hlen.
    rewrite (list_lookup_total_correct _ _ _ Hdata). cbn [length map].
    rewrite <- !app_assoc. cbn [app]. f_equal. f_equal.
    apply imap_ext. intros i x _. simpl. rewrite length_app. simpl.
    f_equal. lia.
Qed.

Lemma payloadOf_broadcastTo {B : Type} (cp : B) k :
  payloadOf (m (broadcastTo serverAddressUdp p cp k)) = Some cp.
Proof. unfold broadcastTo. by destruct (bool_decide (k ∈ alivePeers p)). Qed.

Lemma load_broadcastTo st cp k :
  load st (broadcastTo serverAddressUdp p cp k)
  = broadcastTo serverAddressUdp p (st !!! cp) k.
Proof. unfold broadcastTo, load. by destruct (bool_decide (k ∈ alivePeers p)). Qed.

(** The slices the loop hands out are the cells it allocated, in order. *)
Lemma broadcastStore_payloads {A : Type} (visits : list (address * A))
    (n : nat) :
  omap (λ r : responseOf nat, payloadOf (m r))
       (imap (λ i v, broadcastTo serverAddressUdp p (n + i)%nat (fst v)) visits)
  = seq n (length visits).
Proof.
  revert n. induction visits as [| k visits IH]; intros n; [done |].
  cbn [imap omap list_omap]. rewrite payloadOf_broadcastTo, Nat.add_0_r.
  cbn [length seq]. f_equal. rewrite <- IH. f_equal.
  apply imap_ext. intros i x _. simpl. f_equal. lia.
Qed.

(** Reading the messages in a store that holds, in the allocated cells,
    what the array of the sender held at each round gives the messages
    of [peerOnBroadcast] for these rounds. *)
Lemma broadcastStore_load {A : Type} (visits : list (address * A))
    (reads : list (address * bytes)) (n : nat) (st'' : store) :
  map fst reads = map fst visits →
  (∀ i v, reads !! i = Some v → st'' !! (n + i)%nat = Some (snd v)) →
  map (load st'')
      (imap (λ i v, broadcastTo serverAddressUdp p (n + i)%nat (fst v)) visits)
  = responsesOf (peerOnBroadcast serverAddressUdp p reads).
Proof.
  intros Hkeys Hcells. rewrite peerOnBroadcast_eq.
  rewrite <- (map_map (λ v, broadcastTo serverAddressUdp p (snd v) (fst v))
                SendResponse).
  rewrite responsesOf_map_SendResponse.
  apply list_eq. intros i.
  rewrite !list_lookup_fmap, list_lookup_imap.
  pose proof (f_equal (λ l, l !! i) Hkeys) as Hi. simpl in Hi.
  rewrite !list_lookup_fmap in Hi.
  destruct (visits !! i) as [v |], (reads !! i) as [r |] eqn:Hr;
    simpl in *; try done.
  injection Hi as Hi. rewrite load_broadcastTo, Hi. do 2 f_equal.
  by apply list_lookup_total_correct, Hcells.
Qed.

Lemma readsOf_keys buf visits st :
  map fst (readsOf buf visits st) = map fst visits.
Proof.
  revert st. induction visits as [| [addr w] visits IH]; intros st; [done |].
  cbn [readsOf map fst]. by rewrite IH.
Qed.

(** While the sender of the broadcast leaves its array alone, every
    round reads the payload. *)
Lemma readsOf_quiet buf visits st data :
  st !! buf = Some data →
  Forall (λ v, snd v = None) visits →
  readsOf buf visits st = map (λ v, (fst v, data)) visits.
Proof.
  intros Hbuf Hquiet. induction Hquiet as [| [addr w] visits Hw _ IH];
    [done |].
  simpl in Hw. subst w. cbn [readsOf map fst]. rewrite callerWrites_None.
  by rewrite IH, (list_lookup_total_correct _ _ _ Hbuf).
Qed.

End Broadcast.

(** What the broadcast loop does.  It sends one response per key of
    [peerIds] and nothing else: a [dataDirect] to the endpoint of the key
    when the key is alive, a [dataRelayTo] naming the key to the server
    otherwise; no message is meant for a key outside [peerIds].  The
    message of a round carries what the buffer held at that round. *)
Lemma broadcast_routes (serverAddressUdp : UDPAddr) (p : peer)
    (visits : list (address * bytes)) :
  rangeOrder (dom (peerIds p)) (map fst visits) →
  (∀ k, k ∈ dom (peerIds p) → legalKey k) →
  let es := peerOnBroadcast serverAddressUdp p visits in
  let rs := responsesOf es in
  let route k buf :=
    if bool_decide (k ∈ alivePeers p)
    then {| to := addrFromKey k; m := dataDirect buf |}
    else {| to := Some serverAddressUdp; m := dataRelayTo k buf |} in
  es = map SendResponse rs
  ∧ (∀ g, peerStep g serverAddressUdp p (PeerBroadcast visits) = Next p es)
  ∧ rs = map (λ v, route (fst v) (snd v)) visits
  ∧ omap addressee rs ≡ₚ elements (dom (peerIds p))
  ∧ length rs = size (dom (peerIds p))
  ∧ (∀ k buf, k ∈ dom (peerIds p) → addressee (route k buf) = Some k)
  ∧ (∀ k r, k ∉ dom (peerIds p) → r ∈ rs → addressee r ≠ Some k).
Proof.
  intros Horder Hlegal. cbv zeta.
  rewrite peerOnBroadcast_eq.
  rewrite <- (map_map (λ v, broadcastTo serverAddressUdp p (snd v) (fst v))
                SendResponse).
  rewrite responsesOf_map_SendResponse.
  assert (∀ k, k ∈ map fst visits ↔ k ∈ dom (peerIds p)) as Hmem
    by (intros k; by apply rangeOrder_elem_of).
  assert (∀ k buf, k ∈ dom (peerIds p) →
                   addressee (broadcastTo serverAddressUdp p buf k) = Some k)
    as Haddr.
  { intros k buf Hk. apply Hlegal in Hk as [? ?]. by apply addressee_broadcastTo. }
  assert (omap addressee
            (map (λ v, broadcastTo serverAddressUdp p (snd v) (fst v)) visits)
          = map fst visits) as Hall.
  { assert (∀ v, v ∈ visits → fst v ∈ dom (peerIds p)) as Hin.
    { intros v Hv. apply Hmem, list_elem_of_fmap. by exists v. }
    clear Horder Hmem. induction visits as [| v visits IH]; [done |].
    cbn [map omap list_omap]. rewrite Haddr by apply Hin, list_elem_of_here.
    f_equal. apply IH. intros v' Hv'. by apply Hin, list_elem_of_further. }
  split_and!.
  - done.
  - intros g. simpl. by rewrite peerOnBroadcast_eq, map_map.
  - done.
  - by rewrite Hall.
  - rewrite length_map. unfold rangeOrder in Horder.
    by rewrite <- (length_map fst visits), Horder.
  - intros k buf Hk. by apply Haddr.
  - intros k r Hk (v & -> & Hv)%list_elem_of_fmap.
    rewrite Haddr.
    + intros [= Hkv]. apply Hk, Hmem. rewrite <- Hkv.
      apply list_elem_of_fmap. by exists v.
    + apply Hmem, list_elem_of_fmap. by exists v.
Qed.

(** The copies of the loop in memory.  Every message holds an array of
    its own, allocated by the loop and shared neither with another
    message nor with the sender of the broadcast; the array holds what
    the array of the sender held when the round ran, which is the
    payload as long as the sender has not written its array since the
    receive. *)
Lemma broadcast_copies (serverAddressUdp : UDPAddr) (p : peer)
    (visits : list (address * option bytes)) (st : store) (bufRef : nat)
    (data : bytes) :
  st !! bufRef = Some data →
  let inStore := broadcastStore serverAddressUdp p bufRef visits st in
  map (load (snd inStore)) (fst inStore)
  = responsesOf (peerOnBroadcast serverAddressUdp p (readsOf bufRef visits st))
  ∧ omap (λ r : responseOf nat, payloadOf (m r)) (fst inStore)
    = seq (length st) (length visits)
  ∧ (∀ r c, r ∈ fst inStore → payloadOf (m r) = Some c →
       (length st ≤ c)%nat ∧ c ≠ bufRef)
  ∧ (Forall (λ v, snd v = None) visits →
     readsOf bufRef visits st = map (λ v, (fst v, data)) visits).
Proof.
  intros Hbuf. cbv zeta.
  pose proof (lookup_lt_Some _ _ _ Hbuf) as Hlt.
  pose proof (broadcastStore_eq serverAddressUdp p visits st [] bufRef Hlt)
    as Heq.
  rewrite app_nil_r in Heq. rewrite Heq. clear Heq.
  cbn [fst snd length app]. rewrite Nat.add_0_r.
  assert (omap (λ r : responseOf nat, payloadOf (m r))
            (imap (λ i v, broadcastTo serverAddressUdp p (length st + i)%nat
                            (fst v)) visits)
          = seq (length st) (length visits)) as Hrefs
    by apply broadcastStore_payloads.
  split_and!.
  - apply broadcastStore_load; [apply readsOf_keys |].
    intros i v Hv.
    assert (length (foldl (λ st v, callerWrites bufRef (snd v) st) st visits)
            = length st) as Hlen.
    { clear. revert st. induction visits as [| v visits IH]; intros st;
        [done |].
      simpl. by rewrite IH, callerWrites_length. }
    rewrite lookup_app_r by lia. rewrite Hlen.
    replace (length st + i - length st)%nat with i by lia.
    by rewrite list_lookup_fmap, Hv.
  - done.
  - intros r c Hr Hc.
    assert (c ∈ seq (length st) (length visits)) as Hin.
    { rewrite <- Hrefs. apply list_elem_of_omap. by exists r. }
    apply elem_of_seq in Hin. lia.
  - by apply readsOf_quiet.
Qed.

(** C3.  The claim fails when the sender of the broadcast writes its
    buffer while the loop is under way.  The loop copies the buffer once
    per round, each time after the send of the round before, and the
    sender has been free to go on since the receive.  Here the peer
    knows P1 (alive) and P2 (not alive), the payload is 1 2 3 and the
    sender writes 9 9 9 into its buffer while the loop waits at the
    first send: the message for P2 carries 9 9 9.  Each message does
    hold an array of its own (the cells 1 and 2, the buffer being the
    cell 0), and the routes are as the claim says. *)
Theorem broadcast_copies_after_release :
  let st := [[1; 2; 3]] in
  let visits := [(keyP1, None); (keyP2, Some [9; 9; 9])] in
  let inStore := broadcastStore endpointS peerP1P2 0 visits st in
  let sent := [ {| to := addrFromKey keyP1; m := dataDirect [1; 2; 3] |};
                {| to := Some endpointS; m := dataRelayTo keyP2 [9; 9; 9] |} ] in
  readsOf 0 visits st = [(keyP1, [1; 2; 3]); (keyP2, [9; 9; 9])]
  ∧ map (load (snd inStore)) (fst inStore) = sent
  ∧ omap (λ r : responseOf nat, payloadOf (m r)) (fst inStore) = [1; 2]%nat
  ∧ (∀ g, peerStep g endpointS peerP1P2 (PeerBroadcast (readsOf 0 visits st))
          = Next peerP1P2 (map SendResponse sent))
  ∧ {| to := Some endpointS; m := dataRelayTo keyP2 [1; 2; 3] |} ∉ sent.
Proof.
  cbv zeta. split_and!.
  - done.
  - by vm_compute.
  - by vm_compute.
  - intros g. by vm_compute.
  - intros Hin. apply elem_of_cons in Hin as [Hin | Hin].
    + by vm_compute in Hin.
    + by apply list_elem_of_singleton in Hin.
Qed.

Section PeerIds.

Context (old : gmap address Z).

Lemma wrapInt_id x : - 2 ^ 63 <= x < 2 ^ 63 → wrapInt x = x.
Proof. intros H. unfold wrapInt. rewrite Z.mod_small by lia. lia. Qed.

Lemma assignIds_old addrs known next a i :
  old !! a = Some i →
  a ∈ addrs ∨ known !! a = Some i →
  fst (assignIds old addrs known next) !! a = Some i.
Proof.
  intros Hold. revert known next.
  induction addrs as [| x rest IH]; intros known next Hin; simpl.
  - destruct Hin as [Hin | Hin]; [by apply elem_of_nil in Hin | done].
  - destruct (decide (a = x)) as [-> | Hne].
    + rewrite Hold. apply IH. right. apply lookup_insert_eq.
    + assert (a ∈ rest ∨ known !! a = Some i) as Hin'.
      { destruct Hin as [Hin | Hin]; [| by right].
        apply elem_of_cons in Hin as [? | ?]; [done | by left]. }
      destruct (old !! x); apply IH;
        (destruct Hin' as [? | ?]; [by left | right; by rewrite lookup_insert_ne]).
Qed.

Lemma assignIds_other addrs known next a :
  a ∉ addrs →
  fst (assignIds old addrs known next) !! a = known !! a.
Proof.
  revert known next. induction addrs as [| x rest IH]; intros known next Hnot;
    simpl; [done |].
  apply not_elem_of_cons in Hnot as [Hne Hnot].
  destruct (old !! x); rewrite IH by done; by rewrite lookup_insert_ne.
Qed.

Lemma assignIds_dom addrs known next :
  dom (fst (assignIds old addrs known next)) = dom known ∪ list_to_set addrs.
Proof.
  revert known next. induction addrs as [| x rest IH]; intros known next; simpl.
  - by rewrite (right_id_L ∅ (∪)).
  - rewrite (assoc_L (∪)), (comm_L (∪) (dom known)).
    by destruct (old !! x); rewrite IH, dom_insert_L.
Qed.

Lemma assignIds_inv addrs lo known next :
  - 2 ^ 63 <= next →
  next + Z.of_nat (length addrs) < 2 ^ 63 →
  idsInv old lo known next →
  idsInv old lo (fst (assignIds old addrs known next))
                (snd (assignIds old addrs known next))
  ∧ next <= snd (assignIds old addrs known next)
         <= next + Z.of_nat (length addrs).
Proof.
  revert known next.
  induction addrs as [| x rest IH]; intros known next Hlo Hhi Hinv.
  - simpl. split; [done | lia].
  - cbn [length] in Hhi. cbn [assignIds].
    destruct Hinv as (Hle & Hval & Hinj).
    destruct (old !! x) as [id |] eqn:Hx.
    + destruct (IH (<[x := id]> known) next) as [Hinv' Hb]; [lia | lia | |].
      * split_and!; [done | |].
        -- intros a i. rewrite lookup_insert. case_decide as Hax.
           ++ intros [= <-]. subst a. by left.
           ++ apply Hval.
        -- intros a b i. rewrite !lookup_insert.
           repeat case_decide; subst; try congruence. apply Hinj.
      * split; [done |]. cbn [length]. lia.
    + rewrite wrapInt_id by lia.
      destruct (IH (<[x := next]> known) (next + 1)) as [Hinv' Hb]; [lia | lia | |].
      * split_and!; [lia | |].
        -- intros a i. rewrite lookup_insert. case_decide as Hax.
           ++ intros [= <-]. subst a. right. split; [done | lia].
           ++ intros Ha. destruct (Hval a i Ha) as [? | [? ?]]; [by left |].
              right. split; [done | lia].
        -- intros a b i. rewrite !lookup_insert.
           repeat case_decide; subst; try done.
           ++ intros [= <-] Hb Ha Hb'.
              destruct (Hval b next Hb) as [? | [_ ?]]; [congruence | lia].
           ++ intros Ha [= <-] Ha' Hb'.
              destruct (Hval a next Ha) as [? | [_ ?]]; [congruence | lia].
           ++ apply Hinj.
      * split; [done |]. cbn [length]. lia.
Qed.

End PeerIds.

Lemma peerList_updatePeer_eq l p :
  peerList_updatePeer l p
  = {| peerIds := fst (assignIds (peerIds p) l ∅ (nextPeerId p));
       nextPeerId := snd (assignIds (peerIds p) l ∅ (nextPeerId p));
       alivePeers := alivePeers p |}.
Proof.
  unfold peerList_updatePeer.
  by destruct (assignIds (peerIds p) l ∅ (nextPeerId p)).
Qed.

Lemma idsInv_empty old lo : idsInv old lo ∅ lo.
Proof. split_and!; [lia | |]; intros *; by rewrite lookup_empty. Qed.

Lemma peerList_updatePeer_inv l p :
  peerInv p →
  nextPeerId p + Z.of_nat (length l) < 2 ^ 63 →
  peerInv (peerList_updatePeer l p)
  ∧ nextPeerId p <= nextPeerId (peerList_updatePeer l p)
                 <= nextPeerId p + Z.of_nat (length l).
Proof.
  intros (Hnext & Hids & Hinj) Hhi.
  rewrite peerList_updatePeer_eq. cbn [peerIds nextPeerId].
  destruct (assignIds_inv (peerIds p) l (nextPeerId p) ∅ (nextPeerId p))
    as [(Hle & Hval & Hnew) Hb]; [lia | done | apply idsInv_empty |].
  split; [| done]. unfold peerInv. cbn [peerIds nextPeerId]. split_and!.
  - lia.
  - intros a i Ha. destruct (Hval a i Ha) as [Hold | [_ ?]]; [| lia].
    apply Hids in Hold. lia.
  - intros a b i Ha Hb'.
    destruct (Hval a i Ha) as [Ha1 | [Ha1 ?]],
             (Hval b i Hb') as [Hb1 | [Hb1 ?]].
    + by eapply Hinj.
    + apply Hids in Ha1. lia.
    + apply Hids in Hb1. lia.
    + by eapply Hnew.
Qed.

Section PeerLoop.

Context (g : gob) (serverAddressUdp : UDPAddr).

Lemma peerInv_peer0 : peerInv peer0.
Proof. split_and!; [done | |]; intros *; simpl; by rewrite lookup_empty. Qed.

Lemma announced_app l1 l2 :
  announced g (l1 ++ l2) = (announced g l1 + announced g l2)%nat.
Proof.
  unfold announced. induction l1 as [| i l1 IH]; [done |].
  simpl. rewrite IH. lia.
Qed.

(** A step moves the counter by at most the number of addresses the
    input announces, and keeps the invariant. *)
Lemma peerStep_inv p i p' es :
  peerInv p →
  nextPeerId p + Z.of_nat (announcedBy g i) < 2 ^ 63 →
  peerStep g serverAddressUdp p i = Next p' es →
  peerInv p'
  ∧ nextPeerId p <= nextPeerId p' <= nextPeerId p + Z.of_nat (announcedBy g i).
Proof.
  intros Hinv Hhi Hstep. destruct i as [order | a | visits | req]; simpl in *.
  - injection Hstep as <- _. split; [done | lia].
  - injection Hstep as <- _. split; [done | simpl; lia].
  - injection Hstep as <- _. split; [done | lia].
  - unfold peerOnRequest in Hstep.
    destruct (decodePeerRequest g (buffer req)) as [| | r]; [| done |].
    + injection Hstep as <- _. split; [done | lia].
    + destruct r as [l | | | f d | d]; simpl in Hstep.
      * injection Hstep as <- _. by apply peerList_updatePeer_inv.
      * injection Hstep as <- _. split; [done | lia].
      * injection Hstep as <- _. split; [done | simpl; lia].
      * unfold dataRelayedFrom_updatePeer in Hstep.
        destruct (peerIds p !! f); injection Hstep as <- _; (split; [done | lia]).
      * unfold dataDirect_updatePeer in Hstep.
        destruct (peerIds p !! addrKey (from req)); injection Hstep as <- _;
          (split; [done | lia]).
Qed.

Lemma run_peerStep_inv ins p p' es :
  peerInv p →
  nextPeerId p + Z.of_nat (announced g ins) < 2 ^ 63 →
  run (peerStep g serverAddressUdp) p ins = Next p' es →
  peerInv p'
  ∧ nextPeerId p <= nextPeerId p' <= nextPeerId p + Z.of_nat (announced g ins).
Proof.
  revert p es. induction ins as [| i ins IH]; intros p es Hinv Hhi Hrun.
  - injection Hrun as <- _. split; [done |]. unfold announced. simpl. lia.
  - apply run_cons_Next in Hrun as (p1 & e1 & e2 & Hstep & Hrest & ->).
    change (announced g (i :: ins))
      with (announcedBy g i + announced g ins)%nat in *.
    destruct (peerStep_inv p i p1 e1 Hinv) as [Hinv1 Hb1]; [lia | done |].
    destruct (IH p1 e2 Hinv1) as [Hinv2 Hb2]; [lia | done |].
    split; [done | lia].
Qed.

(** The counter of a process never goes back. *)
Lemma meshPeer_counter pre suf q es1 p es :
  Z.of_nat (announced g (pre ++ suf)) < 2 ^ 63 →
  meshPeer g serverAddressUdp pre = Next q es1 →
  meshPeer g serverAddressUdp (pre ++ suf) = Next p es →
  peerInv q ∧ nextPeerId q <= nextPeerId p
  ∧ nextPeerId p <= Z.of_nat (announced g (pre ++ suf)).
Proof.
  unfold meshPeer. rewrite announced_app. intros Hhi Hpre Hall.
  apply run_app_Next in Hall as (q' & e1 & e2 & Hpre' & Hsuf & ->).
  rewrite Hpre in Hpre'. injection Hpre' as <- <-.
  destruct (run_peerStep_inv pre peer0 q es1 peerInv_peer0) as [Hinvq Hbq];
    [simpl; lia | done |]. simpl in Hbq.
  destruct (run_peerStep_inv suf q p e2 Hinvq) as [Hinvp Hbp]; [lia | done |].
  split_and!; [done | lia | lia].
Qed.

(** The ids a process has handed out so far all lie below its counter. *)
Lemma meshPeer_history pre suf q es1 p es a i :
  Z.of_nat (announced g (pre ++ suf)) < 2 ^ 63 →
  meshPeer g serverAddressUdp pre = Next q es1 →
  meshPeer g serverAddressUdp (pre ++ suf) = Next p es →
  peerIds q !! a = Some i →
  0 <= i < nextPeerId q ∧ 0 <= i < nextPeerId p
  ∧ nextPeerId p <= Z.of_nat (announced g (pre ++ suf)).
Proof.
  intros Hhi Hpre Hall Hq.
  destruct (meshPeer_counter pre suf q es1 p es Hhi Hpre Hall)
    as ((_ & Hids & _) & Hmono & Hb).
  apply Hids in Hq. split_and!; lia.
Qed.

End PeerLoop.

(** C2.  After a [peerList] with the addresses [A]: the keys of
    [peerIds] are the addresses of [A], an address that had an id keeps
    it, an address outside [A] has none, and the alive set is as before.
    When the state is one the process has reached and its counter has
    not run out, no two addresses share an id, and the id given to an
    address that had none comes from the counter and was never in
    [peerIds] at any earlier moment of the process. *)
Theorem peerList_updatePeer_ids (A : list address) (p : peer) :
  let p' := peerList_updatePeer A p in
  dom (peerIds p') = list_to_set A
  ∧ (∀ a i, a ∈ A → peerIds p !! a = Some i → peerIds p' !! a = Some i)
  ∧ (∀ a, a ∉ A → peerIds p' !! a = None)
  ∧ alivePeers p' = alivePeers p
  ∧ (∀ g serverAddressUdp ins es,
       meshPeer g serverAddressUdp ins = Next p es →
       Z.of_nat (announced g ins + length A) < 2 ^ 63 →
       (∀ a b i, peerIds p' !! a = Some i → peerIds p' !! b = Some i → a = b)
       ∧ (∀ a i, peerIds p !! a = None → peerIds p' !! a = Some i →
            nextPeerId p <= i < nextPeerId p'
            ∧ ∀ pre q es' b, pre `prefix_of` ins →
                meshPeer g serverAddressUdp pre = Next q es' →
                nextPeerId q <= nextPeerId p ∧ peerIds q !! b ≠ Some i)).
Proof.
  cbv zeta. rewrite peerList_updatePeer_eq. cbn [peerIds nextPeerId alivePeers].
  split_and!.
  - by rewrite assignIds_dom, dom_empty_L, (left_id_L ∅ (∪)).
  - intros a i Ha Hold. apply assignIds_old; [done | by left].
  - intros a Ha. by rewrite assignIds_other, lookup_empty.
  - done.
  - intros g serverAddressUdp ins es Hrun Hhi.
    assert (peerInv p ∧ nextPeerId p <= Z.of_nat (announced g ins))
      as [Hinv Hnext].
    { destruct (run_peerStep_inv g serverAddressUdp ins peer0 p es peerInv_peer0)
        as [? ?]; [simpl; lia | done |]. simpl in *. split; [done | lia]. }
    destruct (peerList_updatePeer_inv A p Hinv) as [Hinv' Hb]; [lia |].
    rewrite peerList_updatePeer_eq in *. cbn [peerIds nextPeerId alivePeers] in *.
    destruct (assignIds_inv (peerIds p) A (nextPeerId p) ∅ (nextPeerId p))
      as [(_ & Hval & _) _];
      [destruct Hinv; lia | lia | apply idsInv_empty |].
    split.
    + destruct Hinv' as (_ & _ & Hinj). apply Hinj.
    + intros a i Hnone Hnew.
      destruct (Hval a i Hnew) as [Hold | [_ Hrange]]; [congruence |].
      split; [done |].
      intros pre q es' b [suf ->] Hpre.
      destruct (meshPeer_counter g serverAddressUdp pre suf q es' p es)
        as (_ & Hmono & _); [lia | done | done |].
      split; [done |]. intros Hq.
      destruct (meshPeer_history g serverAddressUdp pre suf q es' p es b i)
        as (_ & ? & _); [lia | done | done | done |]. lia.
Qed.

(** ** Further properties of the two cores *)

(** X1.  On a tick the peer asks the server for the peer list and then
    sends one [keepAlive] to the endpoint of every key of [peerIds]; its
    state is unchanged. *)
Theorem peer_tick_refresh (g : gob) (serverAddressUdp : UDPAddr) (p : peer)
    (order : list address) :
  rangeOrder (dom (peerIds p)) order →
  let es := peerOnTick serverAddressUdp order in
  peerStep g serverAddressUdp p (PeerTick order) = Next p es
  ∧ responsesOf es
    = {| to := Some serverAddressUdp; m := getPeerList |}
      :: map (λ k, {| to := addrFromKey k; m := keepAlive |}) order
  ∧ (∀ k, {| to := addrFromKey k; m := keepAlive |} ∈ responsesOf es
          ↔ ∃ k', k' ∈ dom (peerIds p) ∧ addrFromKey k' = addrFromKey k)
  ∧ length (responsesOf es) = S (size (dom (peerIds p)))
  ∧ seenOf es = [] ∧ dataOf es = [].
Proof.
  intros Horder. cbv zeta. unfold peerOnTick.
  assert (∀ l : list address,
            responsesOf (flat_map (λ addr, [Log "Sending keep alive";
                           SendResponse {| to := addrFromKey addr; m := keepAlive |}]) l)
            = map (λ k, {| to := addrFromKey k; m := keepAlive |}) l
            ∧ seenOf (flat_map (λ addr, [Log "Sending keep alive";
                           SendResponse {| to := addrFromKey addr; m := keepAlive |}]) l)
              = []
            ∧ dataOf (flat_map (λ addr, [Log "Sending keep alive";
                           SendResponse {| to := addrFromKey addr; m := keepAlive |}]) l)
              = []) as Hloop.
  { induction l as [| k l (IH1 & IH2 & IH3)]; [done |].
    cbn [flat_map]. unfold responsesOf, seenOf, dataOf in *.
    rewrite !omap_app, IH1, IH2, IH3. done. }
  destruct (Hloop order) as (Hr & Hs & Hd).
  assert (responsesOf
            (SendResponse {| to := Some serverAddressUdp; m := getPeerList |}
             :: flat_map (λ addr, [Log "Sending keep alive";
                  SendResponse {| to := addrFromKey addr; m := keepAlive |}]) order)
          = {| to := Some serverAddressUdp; m := getPeerList |}
            :: map (λ k, {| to := addrFromKey k; m := keepAlive |}) order) as Hall.
  { change (SendResponse ?r :: ?l) with ([SendResponse r] ++ l).
    unfold responsesOf in *. by rewrite omap_app, Hr. }
  split_and!.
  - done.
  - done.
  - intros k. rewrite Hall, elem_of_cons, list_elem_of_fmap. split.
    + intros [[=] | (k' & [= Hk] & Hin)]. exists k'.
      by rewrite <- (rangeOrder_elem_of _ _ k' Horder).
    + intros (k' & Hin & Hk). right. exists k'.
      rewrite (rangeOrder_elem_of _ _ k' Horder). by rewrite Hk.
  - rewrite Hall. cbn [length]. rewrite length_map.
    unfold rangeOrder in Horder. by rewrite Horder.
  - change (SendResponse ?r :: ?l) with ([SendResponse r] ++ l).
    unfold seenOf in *. by rewrite omap_app, Hs.
  - change (SendResponse ?r :: ?l) with ([SendResponse r] ++ l).
    unfold dataOf in *. by rewrite omap_app, Hd.
Qed.

(** A payload is delivered to the application exactly when its
    origin has an id: the [From] field for a relayed payload, the key of
    the sender for a direct one.  It is delivered once, under that id,
    with the data as received; the state of the peer is unchanged. *)
Theorem peer_delivers_known_origin (p : peer) (sender : UDPAddr)
    (origin : address) (Data : bytes) :
  fst (dataRelayedFrom_updatePeer origin Data p) = p
  ∧ dataOf (snd (dataRelayedFrom_updatePeer origin Data p))
    = match peerIds p !! origin with
      | Some id => [{| PeerId := id; Buf := Data |}]
      | None => []
      end
  ∧ fst (dataDirect_updatePeer Data p sender) = p
  ∧ dataOf (snd (dataDirect_updatePeer Data p sender))
    = match peerIds p !! addrKey sender with
      | Some id => [{| PeerId := id; Buf := Data |}]
      | None => []
      end
  ∧ responsesOf (snd (dataRelayedFrom_updatePeer origin Data p)) = []
  ∧ responsesOf (snd (dataDirect_updatePeer Data p sender)) = [].
Proof.
  unfold dataRelayedFrom_updatePeer, dataDirect_updatePeer.
  destruct (peerIds p !! origin), (peerIds p !! addrKey sender); by split_and!.
Qed.

(** An [isAlive] marks the key of its sender alive and reports the
    sender to the watcher, whether or not the key is in [peerIds]; a
    [keepAlive] is answered with an [isAlive] to its sender.  Neither
    touches [peerIds] or the counter. *)
Theorem peer_liveness_probe (p : peer) (sender : UDPAddr) :
  alivePeers (fst (isAlive_updatePeer p sender)) = {[addrKey sender]} ∪ alivePeers p
  ∧ snd (isAlive_updatePeer p sender) = [SendSeen sender]
  ∧ peerIds (fst (isAlive_updatePeer p sender)) = peerIds p
  ∧ nextPeerId (fst (isAlive_updatePeer p sender)) = nextPeerId p
  ∧ keepAlive_updatePeer p sender
    = (p, [SendResponse {| to := Some sender; m := isAlive |}]).
Proof. by split_and!. Qed.

(** A watcher timeout on the server removes the key of the endpoint
    from the members and nothing else; nothing is sent. *)
Theorem server_timeout_evicts (g : gob) (s : server) (a : UDPAddr) :
  ∃ s', serverStep g s (ServerTimeout a) = Next s' []
        ∧ (addrKey a ∉ peers s')
        ∧ (∀ k, k ≠ addrKey a → (k ∈ peers s' ↔ k ∈ peers s)).
Proof.
  eexists. split_and!; [done | |]; simpl.
  - rewrite elem_of_difference, elem_of_singleton. tauto.
  - intros k Hk. rewrite elem_of_difference, elem_of_singleton. tauto.
Qed.

(** X2.  As long as the counter has not run out, in every state the peer
    reaches the ids in [peerIds] were taken from the counter and no two
    addresses share one. *)
Theorem meshPeer_ids_distinct (g : gob) (serverAddressUdp : UDPAddr)
    (ins : list peerInput) (p : peer) (es : list effect) :
  meshPeer g serverAddressUdp ins = Next p es →
  Z.of_nat (announced g ins) < 2 ^ 63 →
  (∀ a i, peerIds p !! a = Some i → 0 <= i < nextPeerId p)
  ∧ (∀ a b i, peerIds p !! a = Some i → peerIds p !! b = Some i → a = b)
  ∧ 0 <= nextPeerId p <= Z.of_nat (announced g ins).
Proof.
  intros Hrun Hhi.
  destruct (run_peerStep_inv g serverAddressUdp ins peer0 p es peerInv_peer0)
    as [(? & ? & ?) ?]; [simpl; lia | done |]. simpl in *.
  split_and!; [done | done | lia | lia].
Qed.

(** ** The claims on sample inputs *)

Lemma legalKey_keyP1 : legalKey keyP1.
Proof. apply (bool_decide_unpack _). by vm_compute. Qed.

Lemma legalKey_keyP2 : legalKey keyP2.
Proof. apply (bool_decide_unpack _). by vm_compute. Qed.

Lemma addrKey_addrFromKey_round_trip_witness :
  (∃ e, addrFromKey keyP1 = Some e ∧ addrKey e = keyP1)
  ∧ legalKey (addrKey endpointP1)
  ∧ (addrKey endpointP1 = addrKey endpointP2
     ↔ ipEqual (IP endpointP1) (IP endpointP2) = true
       ∧ Port endpointP1 = Port endpointP2).
Proof.
  assert (legalKey keyP1) as Hk by (apply (bool_decide_unpack _); by vm_compute).
  assert (wfEndpoint endpointP1) as H1 by (apply (bool_decide_unpack _); by vm_compute).
  assert (wfEndpoint endpointP2) as H2 by (apply (bool_decide_unpack _); by vm_compute).
  destruct (addrKey_addrFromKey_round_trip keyP1 endpointP1 endpointP2 Hk H1 H2)
    as (Ha & Hb & _ & Hc & _).
  exact (conj Ha (conj Hb Hc)).
Defined.

(** An endpoint with a zone does not come back from its key, and two
    endpoints that differ in the zone only have the same key. *)
Lemma addrKey_drops_zone :
  wfEndpoint (linkLocal "eth0")
  ∧ addrFromKey (addrKey (linkLocal "eth0")) = Some (linkLocal EmptyString)
  ∧ sameEndpoint (linkLocal EmptyString) (linkLocal "eth0") = false
  ∧ addrKey (linkLocal "eth0") = addrKey (linkLocal "eth1")
  ∧ sameEndpoint (linkLocal "eth0") (linkLocal "eth1") = false
  ∧ linkLocal "eth0" ≠ linkLocal "eth1".
Proof.
  split_and!; try by vm_compute.
  apply (bool_decide_unpack _). by vm_compute.
Qed.

Lemma addrFromKey_not_nil_witness :
  snd (AddrFromSlice (take 16 keyP1)) = true
  ∧ addrFromKey keyP1 ≠ None
  ∧ writerStep tagCodec (λ _ _, false) {| to := addrFromKey keyP1; m := keepAlive |}
    ≠ Skipped.
Proof.
  destruct (addrFromKey_not_nil keyP1 eq_refl) as (Ha & (e & He & _) & Hc).
  split_and!; [exact Ha | by rewrite He | apply Hc].
Defined.

Lemma getPeerList_reply_members_witness :
  rangeOrder ({[addrKey endpointP1]} ∪ peers serverP1P2) [keyP2; keyP1]
  ∧ ∃ reply,
      getPeerList_updateServer [keyP2; keyP1] serverP1P2 endpointP1
      = ({| peers := {[addrKey endpointP1]} ∪ peers serverP1P2 |},
         [Log "getPeerList from";
          SendResponse {| to := Some endpointP1; m := peerList reply |}])
      ∧ NoDup reply
      ∧ (∀ k, k ∈ reply
              ↔ k ∈ ({[addrKey endpointP1]} ∪ peers serverP1P2)
                ∧ k ≠ addrKey endpointP1).
Proof.
  assert (rangeOrder ({[addrKey endpointP1]} ∪ peers serverP1P2) [keyP2; keyP1])
    as Horder.
  { unfold rangeOrder. vm_compute. first [reflexivity | apply Permutation_swap]. }
  split; [exact Horder |].
  destruct (getPeerList_reply_members [keyP2; keyP1] serverP1P2 endpointP1 Horder)
    as (reply & H1 & _ & H3 & H4 & _).
  exists reply. exact (conj H1 (conj H3 H4)).
Defined.

Lemma writer_fatal_on_encode_error_witness :
  writer refusingCodec (λ _ _, true)
    [ {| to := None; m := getPeerList |};
      {| to := Some endpointP2; m := isAlive |};
      {| to := Some endpointP1; m := keepAlive |};
      {| to := Some endpointP2; m := isAlive |} ]
  = ([Skipped; Wrote [3] endpointP2 true; Fatal], false).
Proof.
  assert (Forall (encodes refusingCodec)
            [ {| to := None; m := getPeerList |};
              {| to := Some endpointP2; m := isAlive |} ]) as Hpre.
  { constructor; [by left |]. constructor; [by right | constructor]. }
  destruct (writer_fatal_on_encode_error refusingCodec (λ _ _, true)
              [ {| to := None; m := getPeerList |};
                {| to := Some endpointP2; m := isAlive |} ]
              [ {| to := Some endpointP2; m := isAlive |} ]
              {| to := Some endpointP1; m := keepAlive |} endpointP1
              Hpre eq_refl eq_refl) as (_ & H & _).
  exact H.
Defined.

Lemma decode_by_request_interface_witness :
  decodeServerRequest tagCodec [2] = DecodeError
  ∧ decodePeerRequest tagCodec [2] = Decoded peerRequest_keepAlive.
Proof.
  destruct (decode_by_request_interface tagCodec keepAlive [2]
              tagCodec_round_trip eq_refl) as (H1 & H2 & _).
  exact (conj H1 H2).
Defined.

(** No codec makes the server read back a [keepAlive]: its decoder only
    yields values of the interface [serverRequest]. *)
Lemma server_decoder_rejects_keepAlive :
  gobEncode tagCodec keepAlive = Some [2]
  ∧ gobDecode tagCodec [2] = Decoded keepAlive
  ∧ decodeServerRequest tagCodec [2] = DecodeError
  ∧ ¬ (∃ (g : gob) (b : bytes) (r : serverRequest),
         gobEncode g keepAlive = Some b
         ∧ decodeServerRequest g b = Decoded r
         ∧ messageOfServerRequest r = keepAlive).
Proof.
  split_and!; [done | done | done |].
  intros (g & b & r & _ & _ & Hr). by destruct r.
Qed.

Lemma peerList_updatePeer_ids_witness :
  meshPeer tagCodec endpointS [PeerRequest datagramListP1]
  = Next {| peerIds := {[keyP1 := 0]}; nextPeerId := 1; alivePeers := ∅ |} []
  ∧ peerIds (peerList_updatePeer [keyP2; keyP1]
               {| peerIds := {[keyP1 := 0]}; nextPeerId := 1; alivePeers := ∅ |})
    = {[keyP1 := 0; keyP2 := 1]}
  ∧ (∀ a b i,
       peerIds (peerList_updatePeer [keyP2; keyP1]
                  {| peerIds := {[keyP1 := 0]}; nextPeerId := 1;
                     alivePeers := ∅ |}) !! a = Some i →
       peerIds (peerList_updatePeer [keyP2; keyP1]
                  {| peerIds := {[keyP1 := 0]}; nextPeerId := 1;
                     alivePeers := ∅ |}) !! b = Some i →
       a = b).
Proof.
  assert (meshPeer tagCodec endpointS [PeerRequest datagramListP1]
          = Next {| peerIds := {[keyP1 := 0]}; nextPeerId := 1; alivePeers := ∅ |} [])
    as Hrun by by vm_compute.
  assert (Z.of_nat (announced tagCodec [PeerRequest datagramListP1]
                    + length [keyP2; keyP1]) < 2 ^ 63) as Hhi by by vm_compute.
  destruct (peerList_updatePeer_ids [keyP2; keyP1]
              {| peerIds := {[keyP1 := 0]}; nextPeerId := 1; alivePeers := ∅ |})
    as (_ & _ & _ & _ & H).
  destruct (H tagCodec endpointS [PeerRequest datagramListP1] [] Hrun Hhi)
    as [Hinj _].
  split_and!; [exact Hrun | by vm_compute | exact Hinj].
Defined.

(** ** Scenarios *)

(** Two peers join: the first [getPeerList] is answered with the empty
    list, the second with the first peer, the next one of the first peer
    with the second peer. *)
Example scenario_join :
  responsesOf (effectsOf (meshServer tagCodec
    [ ServerRequest [keyP1] (datagram endpointP1 getPeerList);
      ServerRequest [keyP2; keyP1] (datagram endpointP2 getPeerList);
      ServerRequest [keyP1; keyP2] (datagram endpointP1 getPeerList) ]))
  = [ {| to := Some endpointP1; m := peerList [] |};
      {| to := Some endpointP2; m := peerList [keyP1] |};
      {| to := Some endpointP1; m := peerList [keyP2] |} ].
Proof. by vm_compute. Qed.

(** Relay fallback: P1 broadcasts to P2, which it has not heard from;
    the server forwards the payload; P2 delivers it under the id it gave
    to P1. *)
Example scenario_relay :
  let p1 := {| peerIds := {[keyP2 := 0]}; nextPeerId := 1; alivePeers := ∅ |} in
  let p2 := {| peerIds := {[keyP1 := 0]}; nextPeerId := 1; alivePeers := ∅ |} in
  peerStep tagCodec endpointS p1 (PeerBroadcast [(keyP2, [202; 254])])
  = Next p1 [SendResponse {| to := Some endpointS;
                             m := dataRelayTo keyP2 [202; 254] |}]
  ∧ serverStep tagCodec serverP1P2
      (ServerRequest [] (datagram endpointP1 (dataRelayTo keyP2 [202; 254])))
    = Next serverP1P2
        [ SendSeen endpointP1; Log "dataRelayTo from";
          SendResponse {| to := addrFromKey keyP2;
                          m := dataRelayedFrom keyP1 [202; 254] |} ]
  ∧ peerStep tagCodec endpointS p2
      (PeerRequest (datagram endpointS (dataRelayedFrom keyP1 [202; 254])))
    = Next p2 [SendData {| PeerId := 0; Buf := [202; 254] |}].
Proof. by vm_compute. Qed.

(** A [dataDirect] from an endpoint that is not in [peerIds] is not
    delivered. *)
Example scenario_unknown_sender :
  dataOf (effectsOf (peerStep tagCodec endpointS peerP1P2
            (PeerRequest (datagram endpointS (dataDirect [1; 2; 3])))))
  = [].
Proof. by vm_compute. Qed.

(** A message meant for the other side is a decode error: the server
    drops a [keepAlive] without a sighting, the peer drops a
    [getPeerList]. *)
Example scenario_wrong_side :
  serverStep tagCodec serverP1P2
    (ServerRequest [] (datagram endpointP1 keepAlive))
  = Next serverP1P2 [Log "ignoring"]
  ∧ peerStep tagCodec endpointS peerP1P2
      (PeerRequest (datagram endpointP1 getPeerList))
    = Next peerP1P2 [Log "ignoring"].
Proof. by vm_compute. Qed.

Lemma peer_tick_refresh_witness :
  responsesOf (peerOnTick endpointS [keyP2; keyP1])
  = [ {| to := Some endpointS; m := getPeerList |};
      {| to := addrFromKey keyP2; m := keepAlive |};
      {| to := addrFromKey keyP1; m := keepAlive |} ].
Proof.
  assert (rangeOrder (dom (peerIds peerP1P2)) [keyP2; keyP1]) as Horder.
  { unfold rangeOrder. vm_compute. first [reflexivity | apply Permutation_swap]. }
  destruct (peer_tick_refresh tagCodec endpointS peerP1P2 [keyP2; keyP1] Horder)
    as (_ & H & _).
  exact H.
Defined.

Lemma meshPeer_ids_distinct_witness :
  meshPeer tagCodec endpointS [PeerRequest datagramListP1]
  = Next {| peerIds := {[keyP1 := 0]}; nextPeerId := 1; alivePeers := ∅ |} []
  ∧ 0 <= 1 <= Z.of_nat (announced tagCodec [PeerRequest datagramListP1]).
Proof.
  assert (meshPeer tagCodec endpointS [PeerRequest datagramListP1]
          = Next {| peerIds := {[keyP1 := 0]}; nextPeerId := 1; alivePeers := ∅ |} [])
    as Hrun by by vm_compute.
  assert (Z.of_nat (announced tagCodec [PeerRequest datagramListP1]) < 2 ^ 63)
    as Hhi by by vm_compute.
  destruct (meshPeer_ids_distinct tagCodec endpointS [PeerRequest datagramListP1]
              _ _ Hrun Hhi) as (_ & _ & H).
  exact (conj Hrun H).
Defined.

(** ** The socket reader and the writer, end to end *)

Lemma ReadFromUDP_take payload :
  take (snd (ReadFromUDP (make readBufferSize) payload))
       (fst (ReadFromUDP (make readBufferSize) payload))
  = take readBufferSize payload.
Proof.
  unfold ReadFromUDP, copy, make. cbn [fst snd].
  rewrite length_replicate. apply take_app_length'.
  rewrite length_take. lia.
Qed.

Lemma reader_cons_ok payload sender rest :
  reader (ReadOk payload sender :: rest)
  = ({| from := sender; buffer := take readBufferSize payload |}
       :: fst (reader rest),
     snd (reader rest)).
Proof.
  cbn [reader]. rewrite <- ReadFromUDP_take.
  destruct (ReadFromUDP (make readBufferSize) payload) as [buf n].
  by destruct (reader rest).
Qed.

(** X3.  The reader forwards the datagrams in the order read, each with
    its sender and cut to the 65536 bytes of the buffer, until the first
    read that fails; it then closes the channel, and the results of any
    later read are never looked at.  Without a failure it never closes
    the channel. *)
Theorem reader_until_first_error (oks : list (bytes * UDPAddr))
    (rest : list readResult) :
  let toRead := λ d : bytes * UDPAddr, ReadOk (fst d) (snd d) in
  let toRequest := λ d : bytes * UDPAddr,
    {| from := snd d; buffer := take readBufferSize (fst d) |} in
  reader (map toRead oks) = (map toRequest oks, false)
  ∧ reader (map toRead oks ++ ReadErr :: rest) = (map toRequest oks, true)
  ∧ Forall (λ r, (length (buffer r) ≤ readBufferSize)%nat) (map toRequest oks)
  ∧ (∀ d, d ∈ oks → (length (fst d) ≤ readBufferSize)%nat →
          {| from := snd d; buffer := fst d |} ∈ map toRequest oks).
Proof.
  cbv zeta. split_and!.
  - induction oks as [| d oks IH]; [done |].
    cbn [map]. rewrite reader_cons_ok, IH. done.
  - induction oks as [| d oks IH]; [done |].
    cbn [map app]. rewrite reader_cons_ok, IH. done.
  - apply Forall_fmap, Forall_forall. intros d _. simpl.
    rewrite length_take. lia.
  - intros d Hd Hlen. apply list_elem_of_fmap. exists d. split; [| done].
    by rewrite take_ge.
Qed.

Lemma datagramsOf_cons w ws :
  datagramsOf (w :: ws)
  = match w with
    | Wrote b dst _ => (b, dst) :: datagramsOf ws
    | _ => datagramsOf ws
    end.
Proof. by destruct w. Qed.

(** X4.  When every message of the channel can be encoded, the writer
    ends by signalling [done] and has written one datagram for each
    response that has a target, in the order of the channel, to that
    target; the datagram is the encoding of the message, so a codec that
    reads back what it encodes gives the receiver the message sent.
    Responses without a target leave no trace on the socket. *)
Theorem writer_datagrams_in_order (g : gob) (conn : bytes → UDPAddr → bool)
    (out : list response) :
  Forall (encodes g) out →
  gobRoundTrip g →
  snd (writer g conn out) = true
  ∧ Forall2 (λ d r, to r = Some (snd d)
                    ∧ gobEncode g (m r) = Some (fst d)
                    ∧ gobDecode g (fst d) = Decoded (m r))
            (datagramsOf (fst (writer g conn out)))
            (filter (λ r, is_Some (to r)) out)
  ∧ length (datagramsOf (fst (writer g conn out)))
    = length (filter (λ r, is_Some (to r)) out).
Proof.
  intros Hout Hgob. rewrite writer_all_encode by done. cbn [fst snd].
  assert (Forall2 (λ d r, to r = Some (snd d)
                          ∧ gobEncode g (m r) = Some (fst d)
                          ∧ gobDecode g (fst d) = Decoded (m r))
            (datagramsOf (map (writerStep g conn) out))
            (filter (λ r, is_Some (to r)) out)) as Hall.
  { induction Hout as [| r out Hr _ IH]; [constructor |].
    cbn [map]. rewrite datagramsOf_cons, filter_cons. unfold writerStep.
    destruct (to r) as [dst |] eqn:Hto.
    - rewrite decide_True by by eexists.
      destruct Hr as [Hr | Hr]; [congruence |].
      destruct (gobEncode g (m r)) as [b |] eqn:Hb; [| done].
      constructor; [| done]. simpl. by split_and!; [| | apply Hgob].
    - rewrite decide_False by by intros [? ?]. done. }
  split_and!; [done | done |]. by eapply Forall2_length.
Qed.

(** ** Membership over a run *)

Section Latch.

Context {S I : Type} (step : S → I → result S).
Context (member : S → Prop) (sets resets : I → Prop).
Context (Hstep : ∀ s i s' es, step s i = Next s' es →
                   (member s' ↔ sets i ∨ (member s ∧ ¬ resets i))).

(** A state component that one kind of input switches on and another
    switches off is on after a run exactly when it was switched on and
    not switched off since, or was on at the start and never switched
    off. *)
Lemma run_latch ins s s' es :
  run step s ins = Next s' es →
  member s'
  ↔ (∃ pre i suf, ins = pre ++ i :: suf ∧ sets i ∧ Forall (λ j, ¬ resets j) suf)
    ∨ (member s ∧ Forall (λ j, ¬ resets j) ins).
Proof.
  revert s es. induction ins as [| i ins IH]; intros s es Hrun.
  - injection Hrun as <- _. split.
    + intros ?. right. by split.
    + intros [(pre & i & suf & Heq & _) | [? _]]; [| done].
      by destruct pre.
  - apply run_cons_Next in Hrun as (s1 & e1 & e2 & H1 & Hrest & ->).
    rewrite (IH _ _ Hrest), (Hstep _ _ _ _ H1). split.
    + intros [(pre & j & suf & -> & Hj & Hsuf) | [[Hi | [Hs Hi]] Hins]].
      * left. exists (i :: pre), j, suf. by split_and!.
      * left. exists [], i, ins. by split_and!.
      * right. split; [done |]. by constructor.
    + intros [(pre & j & suf & Heq & Hj & Hsuf) | [Hs Hins]].
      * destruct pre as [| i' pre]; simplify_eq/=.
        -- right. split; [by left | done].
        -- left. by exists pre, j, suf.
      * apply Forall_cons in Hins as [Hi Hins]. right. split; [by right | done].
Qed.

End Latch.

Lemma serverStep_member g k s i s' es :
  serverStep g s i = Next s' es →
  k ∈ peers s' ↔ joins g k i ∨ (k ∈ peers s ∧ ¬ evicts k i).
Proof.
  destruct i as [a | order req]; simpl.
  - intros [= <- _]. simpl. rewrite elem_of_difference, elem_of_singleton.
    split; [intros [? ?]; right; split; [done | congruence]
           | intros [[] | [? ?]]; split; [done | congruence]].
  - unfold serverOnRequest.
    destruct (decodeServerRequest g (buffer req)) as [| | r]; [| done |].
    + intros [= <- _]. split; [by right; split; [| intros []] | ].
      by intros [[[=] _] | [? _]].
    + destruct r as [| t d]; simpl.
      * intros [= <- _]. simpl. rewrite elem_of_union, elem_of_singleton.
        split.
        -- intros [-> | ?]; [by left | right; by split; [| intros []]].
        -- intros [[_ <-] | [? _]]; [by left | by right].
      * intros [= <- _]. split; [by right; split; [| intros []] |].
        by intros [[[=] _] | [? _]].
Qed.

(** X5.  After a run of the server loop an address key is a member
    exactly when a [getPeerList] arrived from an endpoint with that key
    and no watcher timeout for the key came after it (or it was a member
    at the start and no timeout for it came at all).  No other datagram
    adds a member and nothing but a timeout removes one. *)
Theorem server_member_iff_joined_since_timeout (g : gob) (k : address)
    (s s' : server) (ins : list serverInput) (es : list effect) :
  run (serverStep g) s ins = Next s' es →
  k ∈ peers s'
  ↔ (∃ pre i suf, ins = pre ++ i :: suf ∧ joins g k i
                  ∧ Forall (λ j, ¬ evicts k j) suf)
    ∨ (k ∈ peers s ∧ Forall (λ j, ¬ evicts k j) ins).
Proof.
  apply (run_latch (serverStep g) (λ s, k ∈ peers s) (joins g k) (evicts k)).
  intros *. apply serverStep_member.
Qed.

Lemma peerStep_alive g srv k p i p' es :
  peerStep g srv p i = Next p' es →
  k ∈ alivePeers p' ↔ revives g k i ∨ (k ∈ alivePeers p ∧ ¬ expires k i).
Proof.
  assert (∀ q : peer, alivePeers q = alivePeers p →
            k ∈ alivePeers q ↔ False ∨ (k ∈ alivePeers p ∧ ¬ False)) as Hsame.
  { intros q ->. tauto. }
  destruct i as [order | a | visits | req]; simpl.
  - intros [= <- _]. by apply Hsame.
  - intros [= <- _]. simpl. rewrite elem_of_difference, elem_of_singleton.
    split; [intros [? ?]; right; split; [done | congruence]
           | intros [[] | [? ?]]; split; [done | congruence]].
  - intros [= <- _]. by apply Hsame.
  - unfold peerOnRequest.
    destruct (decodePeerRequest g (buffer req)) as [| | r] eqn:Hdec; [| done |].
    + intros [= <- _]. split; [intros ?; right; by split; [| intros []] |].
      by intros [[[=] _] | [? _]].
    + assert (r ≠ peerRequest_isAlive → alivePeers p' = alivePeers p →
              k ∈ alivePeers p'
              ↔ (Decoded r = Decoded peerRequest_isAlive
                 ∧ addrKey (from req) = k)
                ∨ (k ∈ alivePeers p ∧ ¬ False)) as Hother.
      { intros Hr ->. split; [intros ?; right; by split; [| intros []] |].
        intros [[[= ->] _] | [? _]]; done. }
      destruct r as [l | | | f d | d]; simpl.
      * intros [= <- _]. apply Hother; [done |].
        by rewrite peerList_updatePeer_eq.
      * intros [= <- _]. by apply Hother.
      * intros [= <- _]. simpl. rewrite elem_of_union, elem_of_singleton. split.
        -- intros [-> | ?]; [by left | right; by split; [| intros []]].
        -- intros [[_ <-] | [? _]]; [by left | by right].
      * unfold dataRelayedFrom_updatePeer.
        destruct (peerIds p !! f); intros [= <- _]; by apply Hother.
      * unfold dataDirect_updatePeer.
        destruct (peerIds p !! addrKey (from req)); intros [= <- _];
          by apply Hother.
Qed.

(** X6.  After a run of the peer loop an address key is alive exactly
    when an [isAlive] arrived from an endpoint with that key and no
    watcher timeout for the key came after it (or it was alive at the
    start and no timeout for it came at all).  Whether the key is in
    [peerIds] plays no part: a [peerList] neither adds nor removes an
    alive key. *)
Theorem peer_alive_iff_seen_since_timeout (g : gob) (serverAddressUdp : UDPAddr)
    (k : address) (p p' : peer) (ins : list peerInput) (es : list effect) :
  run (peerStep g serverAddressUdp) p ins = Next p' es →
  k ∈ alivePeers p'
  ↔ (∃ pre i suf, ins = pre ++ i :: suf ∧ revives g k i
                  ∧ Forall (λ j, ¬ expires k j) suf)
    ∨ (k ∈ alivePeers p ∧ Forall (λ j, ¬ expires k j) ins).
Proof.
  apply (run_latch (peerStep g serverAddressUdp) (λ p, k ∈ alivePeers p)
           (revives g k) (expires k)).
  intros *. apply peerStep_alive.
Qed.

(** ** More on the ids of a peer *)

Section MoreIds.

Context (old : gmap address Z).

Lemma assignIds_known_counter addrs known next :
  (∀ a, a ∈ addrs → is_Some (old !! a)) →
  snd (assignIds old addrs known next) = next.
Proof.
  revert known. induction addrs as [| x rest IH]; intros known Hall; [done |].
  cbn [assignIds]. destruct (Hall x) as [id Hx]; [by left |].
  rewrite Hx. apply IH. intros a Ha. apply Hall. by right.
Qed.

Lemma assignIds_counter addrs known next :
  - 2 ^ 63 <= next →
  next + Z.of_nat (length addrs) < 2 ^ 63 →
  snd (assignIds old addrs known next)
  = next + Z.of_nat (length (filter (λ a, old !! a = None) addrs)).
Proof.
  revert known next. induction addrs as [| x rest IH]; intros known next Hlo Hhi.
  - simpl. lia.
  - cbn [length] in Hhi. cbn [assignIds]. rewrite filter_cons.
    destruct (old !! x) as [id |] eqn:Hx.
    + rewrite decide_False by done. apply IH; lia.
    + rewrite decide_True by done. rewrite wrapInt_id by lia.
      rewrite IH by lia. cbn [length]. lia.
Qed.

(** Ids are handed out in the order of the list. *)
Lemma assignIds_nth_unknown addrs known next j a :
  NoDup addrs →
  - 2 ^ 63 <= next →
  next + Z.of_nat (length addrs) < 2 ^ 63 →
  filter (λ a, old !! a = None) addrs !! j = Some a →
  fst (assignIds old addrs known next) !! a = Some (next + Z.of_nat j).
Proof.
  revert known next j.
  induction addrs as [| x rest IH]; intros known next j Hnd Hlo Hhi Hj; [done |].
  apply NoDup_cons in Hnd as [Hx Hnd]. cbn [length] in Hhi.
  cbn [assignIds]. rewrite filter_cons in Hj.
  destruct (old !! x) as [id |] eqn:Hold.
  - rewrite decide_False in Hj by done. apply IH; [done | lia | lia | done].
  - rewrite decide_True in Hj by done. rewrite wrapInt_id by lia.
    destruct j as [| j]; simpl in Hj.
    + injection Hj as <-. rewrite assignIds_other by done.
      rewrite lookup_insert_eq. f_equal. lia.
    + rewrite (IH _ (next + 1) j) by (done || lia). f_equal. lia.
Qed.

End MoreIds.

(** X7.  A [peerList] that names only addresses the peer has an id for
    allocates nothing: the counter stays, the named addresses keep their
    ids and the others lose theirs.  When it names exactly the known
    addresses, in any order and with any repeats, the peer is unchanged;
    so processing the same list twice is the same as processing it
    once. *)
Theorem peerList_of_known_addresses (B : list address) (p : peer) :
  (∀ a, a ∈ B → is_Some (peerIds p !! a)) →
  let p' := peerList_updatePeer B p in
  nextPeerId p' = nextPeerId p
  ∧ (∀ a, peerIds p' !! a = if decide (a ∈ B) then peerIds p !! a else None)
  ∧ ((∀ a, is_Some (peerIds p !! a) → a ∈ B) → p' = p)
  ∧ (∀ A q, p = peerList_updatePeer A q → (∀ a, a ∈ A → a ∈ B) →
            peerList_updatePeer B p = p).
Proof.
  intros Hknown. cbv zeta.
  assert (∀ a, peerIds (peerList_updatePeer B p) !! a
               = if decide (a ∈ B) then peerIds p !! a else None) as Hlookup.
  { intros a. rewrite peerList_updatePeer_eq. cbn [peerIds]. case_decide as Ha.
    - destruct (Hknown a Ha) as [i Hi]. rewrite Hi.
      apply assignIds_old; [done | by left].
    - by rewrite assignIds_other, lookup_empty. }
  assert (nextPeerId (peerList_updatePeer B p) = nextPeerId p) as Hnext.
  { rewrite peerList_updatePeer_eq. cbn [nextPeerId].
    by apply assignIds_known_counter. }
  assert ((∀ a, is_Some (peerIds p !! a) → a ∈ B) →
          peerList_updatePeer B p = p) as Hsame.
  { intros Hcover.
    assert (peerIds (peerList_updatePeer B p) = peerIds p) as Hids.
    { apply map_eq. intros a. rewrite Hlookup. case_decide as Ha; [done |].
      destruct (peerIds p !! a) eqn:Hpa; [| done].
      exfalso. apply Ha, Hcover. by eexists. }
    rewrite peerList_updatePeer_eq in *. cbn [peerIds nextPeerId] in *.
    destruct p as [ids next alive]. simpl in *. by rewrite Hids, Hnext. }
  split_and!; [done | done | done |].
  intros A q Hp HAB. apply Hsame. intros a Ha. apply HAB.
  apply elem_of_dom in Ha. rewrite Hp, peerList_updatePeer_eq in Ha.
  cbn [peerIds] in Ha.
  rewrite assignIds_dom, dom_empty_L, (left_id_L ∅ (∪)) in Ha.
  by apply elem_of_list_to_set in Ha.
Qed.

(** X8.  Before the counter runs out, a [peerList] moves the counter by
    the number of entries, repeats included, whose address had no id;
    and when no address is repeated, the addresses without an id get
    consecutive ids in the order of the list, starting at the counter. *)
Theorem peerList_allocates_in_order (A : list address) (p : peer) :
  - 2 ^ 63 <= nextPeerId p →
  nextPeerId p + Z.of_nat (length A) < 2 ^ 63 →
  let p' := peerList_updatePeer A p in
  nextPeerId p' = nextPeerId p + Z.of_nat (unknownIn p A)
  ∧ (NoDup A →
     ∀ j a, filter (λ a, peerIds p !! a = None) A !! j = Some a →
            peerIds p' !! a = Some (nextPeerId p + Z.of_nat j)).
Proof.
  intros Hlo Hhi. cbv zeta. rewrite peerList_updatePeer_eq.
  cbn [peerIds nextPeerId]. split.
  - by apply assignIds_counter.
  - intros Hnd j a Hj. by apply assignIds_nth_unknown.
Qed.

(** X9.  An address that drops out of one [peerList] and comes back in
    a later one does not get its old id back: it is given a new id from
    the counter. *)
Theorem peerList_returning_address_gets_new_id (g : gob)
    (serverAddressUdp : UDPAddr) (ins : list peerInput) (p : peer)
    (es : list effect) (A B : list address) (a : address) (i : Z) :
  meshPeer g serverAddressUdp ins = Next p es →
  Z.of_nat (announced g ins + length A + length B) < 2 ^ 63 →
  peerIds p !! a = Some i →
  a ∉ A →
  a ∈ B →
  peerIds (peerList_updatePeer A p) !! a = None
  ∧ ∃ j, peerIds (peerList_updatePeer B (peerList_updatePeer A p)) !! a = Some j
         ∧ i < nextPeerId p <= j.
Proof.
  intros Hrun Hhi Hi HA HB.
  destruct (run_peerStep_inv g serverAddressUdp ins peer0 p es peerInv_peer0)
    as [Hinv Hnext]; [simpl; lia | done |]. simpl in Hnext.
  destruct (peerList_updatePeer_inv A p Hinv) as [Hinv1 Hb1]; [lia |].
  assert (peerIds (peerList_updatePeer A p) !! a = None) as Hnone.
  { rewrite peerList_updatePeer_eq. cbn [peerIds].
    by rewrite assignIds_other, lookup_empty. }
  split; [done |].
  set (p1 := peerList_updatePeer A p) in *.
  destruct (assignIds_inv (peerIds p1) B (nextPeerId p1) ∅ (nextPeerId p1))
    as [(_ & Hval & _) _];
    [destruct Hinv1; lia | lia | apply idsInv_empty |].
  assert (is_Some (peerIds (peerList_updatePeer B p1) !! a)) as [j Hj].
  { apply elem_of_dom. rewrite peerList_updatePeer_eq. cbn [peerIds].
    rewrite assignIds_dom, dom_empty_L, (left_id_L ∅ (∪)).
    by apply elem_of_list_to_set. }
  exists j. split; [done |].
  rewrite peerList_updatePeer_eq in Hj. cbn [peerIds] in Hj.
  destruct (Hval a j Hj) as [Hold | [_ Hrange]]; [congruence |].
  destruct Hinv as (_ & Hids & _). apply Hids in Hi. lia.
Qed.

(** ** More on the address codec *)

(** X10.  On legal keys [addrFromKey] is one-to-one, and its endpoints
    are in a normal form: a sixteen-byte address, a 16-bit port and no
    zone, which a trip through [addrKey] and back leaves as it is.  The
    key of any endpoint is the key of such a normal form; an endpoint
    whose address has neither 4 nor 16 bytes gets the key of the
    all-zero address, and a 4-byte address the key of its IPv4-mapped
    sixteen-byte form. *)
Theorem addrFromKey_normal_form (k1 k2 : address) (e : UDPAddr) :
  legalKey k1 → legalKey k2 → Forall isByte (IP e) →
  (addrFromKey k1 = addrFromKey k2 → k1 = k2)
  ∧ (∃ e1, addrFromKey k1 = Some e1 ∧ wfEndpoint e1 ∧ Zone e1 = EmptyString
           ∧ length (IP e1) = 16%nat ∧ addrFromKey (addrKey e1) = Some e1)
  ∧ (∃ e', addrFromKey (addrKey e) = Some e' ∧ addrKey e' = addrKey e)
  ∧ (length (IP e) ≠ 4%nat → length (IP e) ≠ 16%nat →
     take 16 (addrKey e) = replicate 16 0)
  ∧ (length (IP e) = 4%nat →
     addrKey e = addrKey {| IP := v4InV6Prefix ++ IP e; Port := Port e;
                            Zone := Zone e |}).
Proof.
  intros Hk1 Hk2 He. split_and!.
  - intros Heq.
    destruct (addrFromKey k1) as [e1 |] eqn:H1;
      [| by rewrite addrFromKey_eq in H1 by apply Hk1].
    symmetry in Heq.
    by rewrite <- (addrKey_addrFromKey k1 e1), <- (addrKey_addrFromKey k2 e1).
  - destruct (legalKey_split k1 Hk1) as (ip & h & l & -> & Hlen & Hip & Hh & Hl).
    rewrite addrFromKey_eq by (rewrite length_app; simpl; lia).
    rewrite take_app_length', drop_app_length' by done.
    eexists. split; [done |]. cbn [IP Port Zone].
    assert (0 <= Uint16 [h; l] < 65536) as Hport.
    { rewrite Uint16_pair by done. unfold isByte in *. lia. }
    split_and!; try done; [split; [by right | by split] |].
    rewrite addrFromKey_addrKey. do 2 f_equal.
    + by rewrite As16_AddrPort_v6.
    + unfold uint16. cbn [Port]. by rewrite Z.mod_small.
  - rewrite addrFromKey_addrKey. eexists. split; [done |].
    apply addrKey_addrFromKey; [by apply addrKey_legal |].
    apply addrFromKey_addrKey.
  - intros H4 H16. rewrite addrKey_eq.
    rewrite take_app_length' by by rewrite As16_AddrPort_length.
    unfold AddrPort, AddrFromSlice. simpl.
    by rewrite !decide_False by done.
  - intros H4. rewrite !addrKey_eq. f_equal.
    rewrite As16_AddrPort_v4 by done.
    rewrite As16_AddrPort_v6; [done |].
    cbn [IP]. rewrite length_app, H4. done.
Qed.

(** ** What each side sends *)

Lemma responsesOf_app es1 es2 :
  responsesOf (es1 ++ es2) = responsesOf es1 ++ responsesOf es2.
Proof. apply omap_app. Qed.

Lemma dataOf_app es1 es2 : dataOf (es1 ++ es2) = dataOf es1 ++ dataOf es2.
Proof. apply omap_app. Qed.

Lemma serverStep_sends g s i s' es :
  serverStep g s i = Next s' es →
  Forall (λ r : response,
            (∃ l, m r = peerList l) ∨ (∃ f d, m r = dataRelayedFrom f d))
         (responsesOf es)
  ∧ dataOf es = []
  ∧ (length (responsesOf es) ≤ length (seenOf es))%nat.
Proof.
  destruct i as [a | order req]; simpl.
  - intros [= _ <-]. by split_and!.
  - unfold serverOnRequest.
    destruct (decodeServerRequest g (buffer req)) as [| | r]; [| done |].
    + intros [= _ <-]. by split_and!.
    + destruct r as [| t d]; simpl.
      * intros [= _ <-]. split_and!; [| done | done].
        unfold responsesOf. cbn [omap list_omap].
        constructor; [| constructor]. left. by eexists.
      * intros [= _ <-]. destruct (bool_decide (t ∈ peers s)).
        -- split_and!; [| done | done].
           unfold responsesOf. cbn [omap list_omap].
           constructor; [| constructor]. right. by do 2 eexists.
        -- split_and!; [constructor | done | simpl; lia].
Qed.

(** X11.  Over any run the server sends nothing but [peerList] and
    [dataRelayedFrom] messages, which are the messages a peer accepts;
    it never delivers a payload itself, and it sends at most one
    response for each datagram it accepts: a datagram that fails to
    decode, and a timeout, are answered with nothing. *)
Theorem server_sends_only_peer_requests (g : gob) (s s' : server)
    (ins : list serverInput) (es : list effect) :
  run (serverStep g) s ins = Next s' es →
  Forall (λ r : response,
            ((∃ l, m r = peerList l) ∨ (∃ f d, m r = dataRelayedFrom f d))
            ∧ is_Some (asPeerRequest (m r)))
         (responsesOf es)
  ∧ dataOf es = []
  ∧ (length (responsesOf es) ≤ length (omap (sighting g) ins))%nat.
Proof.
  intros Hrun. rewrite <- (seenOf_run g s ins s' es Hrun).
  revert s es Hrun. induction ins as [| i ins IH]; intros s es Hrun.
  - injection Hrun as _ <-. by split_and!.
  - apply run_cons_Next in Hrun as (s1 & e1 & e2 & Hstep & Hrest & ->).
    destruct (serverStep_sends _ _ _ _ _ Hstep) as (H1 & H2 & H3).
    destruct (IH _ _ Hrest) as (H4 & H5 & H6).
    rewrite responsesOf_app, dataOf_app, seenOf_app, !length_app, H2, H5.
    split_and!; [| done | lia].
    apply Forall_app. split; [| done].
    eapply Forall_impl; [exact H1 |]. intros r Hr. split; [done |].
    destruct Hr as [[l ->] | (f & d & ->)]; by eexists.
Qed.

Lemma peerStep_sends g srv p i p' es :
  peerStep g srv p i = Next p' es →
  Forall (λ r : response,
            sentByPeer (m r)
            ∧ (is_Some (asServerRequest (m r)) → to r = Some srv))
         (responsesOf es).
Proof.
  destruct i as [order | a | visits | req]; simpl.
  - intros [= _ <-]. unfold peerOnTick.
    change (SendResponse ?r :: ?l) with ([SendResponse r] ++ l).
    rewrite responsesOf_app. apply Forall_app. split; [by repeat constructor |].
    induction order as [| k order IH]; [constructor |].
    cbn [flat_map]. rewrite responsesOf_app. apply Forall_app. split; [| done].
    repeat constructor. by intros [? [=]].
  - intros [= _ <-]. constructor.
  - intros [= _ <-]. rewrite peerOnBroadcast_eq.
    rewrite <- (map_map (λ v, broadcastTo srv p (snd v) (fst v)) SendResponse).
    rewrite responsesOf_map_SendResponse. apply Forall_fmap, Forall_forall.
    intros k _. unfold broadcastTo.
    simpl. by case_bool_decide; simpl; split; [| intros [? [=]] | |].
  - unfold peerOnRequest.
    destruct (decodePeerRequest g (buffer req)) as [| | r]; [| done |].
    + intros [= _ <-]. constructor.
    + destruct r as [l | | | f d | d]; simpl.
      * intros [= _ <-]. constructor.
      * intros [= _ <-]. repeat constructor. by intros [? [=]].
      * intros [= _ <-]. constructor.
      * unfold dataRelayedFrom_updatePeer.
        destruct (peerIds p !! f); intros [= _ <-]; constructor.
      * unfold dataDirect_updatePeer.
        destruct (peerIds p !! addrKey (from req)); intros [= _ <-]; constructor.
Qed.

(** X12.  Over any run a peer never sends a [peerList] or a
    [dataRelayedFrom], and the two messages only the server accepts,
    [getPeerList] and [dataRelayTo], go to the server endpoint and
    nowhere else. *)
Theorem peer_sends_server_requests_to_server (g : gob)
    (serverAddressUdp : UDPAddr) (p p' : peer) (ins : list peerInput)
    (es : list effect) :
  run (peerStep g serverAddressUdp) p ins = Next p' es →
  Forall (λ r : response,
            sentByPeer (m r)
            ∧ (is_Some (asServerRequest (m r)) → to r = Some serverAddressUdp))
         (responsesOf es).
Proof.
  revert p es. induction ins as [| i ins IH]; intros p es Hrun.
  - injection Hrun as _ <-. constructor.
  - apply run_cons_Next in Hrun as (p1 & e1 & e2 & Hstep & Hrest & ->).
    rewrite responsesOf_app. apply Forall_app. split.
    + by eapply peerStep_sends.
    + by eapply IH.
Qed.

(** ** A payload from one peer to another *)

(** X13.  The relay path end to end.  When P1 broadcasts, its buffer
    holds [data] at the round for the key [k2] of P2, and [k2] is not
    alive, it sends a [dataRelayTo] for [k2] with [data] to the server; the server, with [k2] among its members,
    answers the datagram with a [dataRelayedFrom] that names the key of
    P1 as the server saw it and is addressed to the endpoint of [k2];
    P2 delivers the same [data] under the id it has for that key, and
    drops the message when it has none. *)
Theorem relay_end_to_end (g : gob) (conn1 connS : bytes → UDPAddr → bool)
    (serverAddressUdp e1 eS : UDPAddr) (p1 p2 : peer) (s : server)
    (visits1 : list (address * bytes)) (orderS : list address)
    (k2 : address) (data b1 b2 : bytes) :
  gobRoundTrip g →
  legalKey k2 →
  (k2, data) ∈ visits1 →
  k2 ∉ alivePeers p1 →
  k2 ∈ peers s →
  gobEncode g (dataRelayTo k2 data) = Some b1 →
  gobEncode g (dataRelayedFrom (addrKey e1) data) = Some b2 →
  let r1 := {| to := Some serverAddressUdp; m := dataRelayTo k2 data |} in
  SendResponse r1 ∈ peerOnBroadcast serverAddressUdp p1 visits1
  ∧ writerStep g conn1 r1 = Wrote b1 serverAddressUdp (conn1 b1 serverAddressUdp)
  ∧ (∃ e2, addrFromKey k2 = Some e2 ∧ addrKey e2 = k2
       ∧ serverOnRequest g orderS s {| from := e1; buffer := b1 |}
         = Next s [SendSeen e1; Log "dataRelayTo from";
                   SendResponse {| to := Some e2;
                                   m := dataRelayedFrom (addrKey e1) data |}]
       ∧ writerStep g connS {| to := Some e2;
                               m := dataRelayedFrom (addrKey e1) data |}
         = Wrote b2 e2 (connS b2 e2))
  ∧ peerOnRequest g p2 {| from := eS; buffer := b2 |}
    = Next p2 match peerIds p2 !! addrKey e1 with
              | Some id => [SendData {| PeerId := id; Buf := data |}]
              | None => [Log "dataRelayedFrom unknown Peer, ignoring it"]
              end.
Proof.
  intros Hgob Hk2 Hin Hdead Hmember Hb1 Hb2. cbv zeta. split_and!.
  - rewrite peerOnBroadcast_eq. apply list_elem_of_fmap. exists (k2, data).
    split; [| done]. unfold broadcastTo. cbn [fst snd].
    by rewrite bool_decide_eq_false_2.
  - unfold writerStep. simpl. by rewrite Hb1.
  - destruct Hk2 as [Hlen Hbytes].
    exists {| IP := take 16 k2; Port := Uint16 (drop 16 k2); Zone := EmptyString |}.
    assert (addrFromKey k2
            = Some {| IP := take 16 k2; Port := Uint16 (drop 16 k2);
                      Zone := EmptyString |}) as He2 by by apply addrFromKey_eq.
    split_and!.
    + done.
    + by apply addrKey_addrFromKey.
    + unfold serverOnRequest, decodeServerRequest. cbn [buffer from].
      rewrite (Hgob _ _ Hb1). cbn [asServerRequest updateServer].
      unfold dataRelayTo_updateServer.
      by rewrite bool_decide_eq_true_2, He2.
    + unfold writerStep. simpl. by rewrite Hb2.
  - unfold peerOnRequest, decodePeerRequest. cbn [buffer from].
    rewrite (Hgob _ _ Hb2). cbn [asPeerRequest updatePeer].
    unfold dataRelayedFrom_updatePeer.
    by destruct (peerIds p2 !! addrKey e1).
Qed.

(** X14.  The direct path end to end.  When P1 broadcasts, its buffer
    holds [data] at the round for the key [k2] of P2, and [k2] is alive,
    it sends a [dataDirect] with [data] to the endpoint of [k2]; P2 delivers the same [data] under the id it
    has for the key of the sender of the datagram, and drops the message
    when it has none. *)
Theorem direct_end_to_end (g : gob) (conn1 : bytes → UDPAddr → bool)
    (serverAddressUdp e1 : UDPAddr) (p1 p2 : peer)
    (visits1 : list (address * bytes)) (k2 : address) (data b : bytes) :
  gobRoundTrip g →
  legalKey k2 →
  (k2, data) ∈ visits1 →
  k2 ∈ alivePeers p1 →
  gobEncode g (dataDirect data) = Some b →
  (∃ e2, addrFromKey k2 = Some e2 ∧ addrKey e2 = k2
     ∧ SendResponse {| to := Some e2; m := dataDirect data |}
       ∈ peerOnBroadcast serverAddressUdp p1 visits1
     ∧ writerStep g conn1 {| to := Some e2; m := dataDirect data |}
       = Wrote b e2 (conn1 b e2))
  ∧ peerOnRequest g p2 {| from := e1; buffer := b |}
    = Next p2 (Log "dataDirect from"
               :: match peerIds p2 !! addrKey e1 with
                  | Some id => [SendData {| PeerId := id; Buf := data |}]
                  | None => [Log "dataDirect from unknown Peer, ignoring it"]
                  end).
Proof.
  intros Hgob [Hlen Hbytes] Hin Halive Hb. split.
  - exists {| IP := take 16 k2; Port := Uint16 (drop 16 k2); Zone := EmptyString |}.
    assert (addrFromKey k2
            = Some {| IP := take 16 k2; Port := Uint16 (drop 16 k2);
                      Zone := EmptyString |}) as He2 by by apply addrFromKey_eq.
    split_and!.
    + done.
    + by apply addrKey_addrFromKey.
    + rewrite peerOnBroadcast_eq. apply list_elem_of_fmap. exists (k2, data).
      split; [| done]. unfold broadcastTo. cbn [fst snd].
      by rewrite bool_decide_eq_true_2, He2.
    + unfold writerStep. simpl. by rewrite Hb.
  - unfold peerOnRequest, decodePeerRequest. cbn [buffer from].
    rewrite (Hgob _ _ Hb). cbn [asPeerRequest updatePeer].
    unfold dataDirect_updatePeer. cbn [from].
    by destruct (peerIds p2 !! addrKey e1).
Qed.

(** ** The goroutines of the server *)

Lemma coreLoop_eq s t r :
  coreLoop s t r
  = (mkCore (if t || r then CoreSelect else CoreDone) s t r, negb (t || r)).
Proof. unfold coreLoop. by destruct (t || r). Qed.

Lemma watcherLoop_eq peers seen :
  watcherLoop peers seen
  = (mkWatcher (if seen || negb (bool_decide (peers = ∅))
                then WatcherSelect else WatcherDone) peers seen,
     negb (seen || negb (bool_decide (peers = ∅)))).
Proof. unfold watcherLoop. by destruct (seen || _). Qed.

Lemma watchedInv_ext n n' :
  watcher_peers (watcher n') = watcher_peers (watcher n) →
  dogs n' = dogs n →
  watchedInv n → watchedInv n'.
Proof. unfold watchedInv. by intros -> ->. Qed.

Lemma watchedInv_spawn n n' a :
  watcher_peers (watcher n) !! addrKey a = None →
  watcher_peers (watcher n')
  = <[addrKey a := length (dogs n)]> (watcher_peers (watcher n)) →
  dogs n' = dogs n ++ [(a, DogSelect)] →
  watchedInv n → watchedInv n'.
Proof.
  intros Hnone Hp Hd [H1 H2]. unfold watchedInv. rewrite Hp, Hd. split.
  - intros k ch. rewrite lookup_insert. case_decide as Hk.
    + intros [= <-]. exists a, DogSelect.
      rewrite lookup_app_r, Nat.sub_diag by lia. by split_and!.
    + intros (a' & pc & Hch & ? & ?)%H1. exists a', pc.
      rewrite lookup_app_l by by eapply lookup_lt_Some. by split_and!.
  - intros ch a' pc Hch Hlive.
    destruct (decide (ch < length (dogs n))%nat) as [Hlt | Hge].
    + rewrite lookup_app_l in Hch by done.
      pose proof (H2 _ _ _ Hch Hlive) as Hold.
      rewrite lookup_insert_ne; [done | congruence].
    + rewrite lookup_app_r in Hch by lia.
      apply list_lookup_singleton_Some in Hch as [Hz [= <- <-]].
      rewrite lookup_insert_eq. f_equal. lia.
Qed.

Lemma watchedInv_timer n n' ch a :
  dogs n !! ch = Some (a, DogSelect) →
  watcher_peers (watcher n') = watcher_peers (watcher n) →
  dogs n' = <[ch := (a, DogSendTimeout)]> (dogs n) →
  watchedInv n → watchedInv n'.
Proof.
  intros Hch Hp Hd [H1 H2]. unfold watchedInv. rewrite Hp, Hd.
  pose proof (lookup_lt_Some _ _ _ Hch) as Hlt. split.
  - intros k ch' (a' & pc & Hch' & ? & ?)%H1.
    destruct (decide (ch' = ch)) as [-> | Hne].
    + rewrite list_lookup_insert_eq by done. simplify_eq.
      exists a, DogSendTimeout. by split_and!.
    + rewrite list_lookup_insert_ne by done. by exists a', pc.
  - intros ch' a' pc. destruct (decide (ch' = ch)) as [-> | Hne].
    + rewrite list_lookup_insert_eq by done. intros [= <- <-] _.
      by apply (H2 _ _ DogSelect).
    + rewrite list_lookup_insert_ne by done. apply H2.
Qed.

Lemma watchedInv_timeout n n' ch a :
  dogs n !! ch = Some (a, DogSendTimeout) →
  watcher_peers (watcher n') = delete (addrKey a) (watcher_peers (watcher n)) →
  dogs n' = <[ch := (a, DogDone)]> (dogs n) →
  watchedInv n → watchedInv n'.
Proof.
  intros Hch Hp Hd [H1 H2]. unfold watchedInv. rewrite Hp, Hd.
  pose proof (lookup_lt_Some _ _ _ Hch) as Hlt.
  assert (watcher_peers (watcher n) !! addrKey a = Some ch) as Hentry
    by by apply (H2 _ _ DogSendTimeout).
  split.
  - intros k ch'. rewrite lookup_delete. case_decide as Hk; [done |].
    intros Hk'. destruct (H1 _ _ Hk') as (a' & pc & Hch' & ? & ?).
    destruct (decide (ch' = ch)) as [-> | Hne]; [congruence |].
    rewrite list_lookup_insert_ne by done. by exists a', pc.
  - intros ch' a' pc. destruct (decide (ch' = ch)) as [-> | Hne].
    + rewrite list_lookup_insert_eq by done. by intros [= <- <-] [].
    + rewrite list_lookup_insert_ne by done. intros Hch' Hlive.
      pose proof (H2 _ _ _ Hch' Hlive) as Hold.
      rewrite lookup_delete_ne; [done | congruence].
Qed.


Lemma step_watchedInv g n a n' :
  watchedInv n → step g n a = Some n' → watchedInv n'.
Proof.
  intros Hinv Hstep. destruct a.
  all: unfold step, stepRunning in Hstep.
  all: rewrite ?coreLoop_eq, ?watcherLoop_eq in Hstep.
  all: repeat (case_match; simplify_eq/=; try done).
  all: try by (eapply watchedInv_ext; [ | | exact Hinv]).
  all: try by (eapply watchedInv_spawn; [ | | | exact Hinv]).
  all: try by (eapply watchedInv_timer; [ | | | exact Hinv]).
  all: by (eapply watchedInv_timeout; [ | | | exact Hinv]).
Qed.

Lemma orb_negb_decide_false (peers : gmap address nat) seen :
  seen || negb (bool_decide (peers = ∅)) = false → peers = ∅ ∧ seen = false.
Proof.
  destruct seen; [done |]. simpl. intros H%negb_false_iff.
  by apply bool_decide_eq_true in H.
Qed.

Lemma step_closingInv g n a n' :
  closingInv n → step g n a = Some n' → closingInv n'.
Proof.
  intros (H1 & H2 & H3 & H4 & H5 & H6 & H7 & H8) Hstep.
  unfold coreAtSeen, coreAtReplies in *.
  destruct n as [[cpc cs ct cr] [wpc wp ws] ds xs xt xr]. simpl in *.
  destruct a.
  all: unfold step, stepRunning in Hstep; simpl in Hstep.
  all: rewrite ?coreLoop_eq, ?watcherLoop_eq in Hstep.
  all: repeat (case_match; simplify_eq/=; try done).
  all: unfold closingInv, coreAtSeen, coreAtReplies.
  all: rewrite ?coreLoop_eq; simpl.
  all: repeat match goal with
              | H : _ || negb (bool_decide (_ = ∅)) = false |- _ =>
                  apply orb_negb_decide_false in H as [? ?]
              end.
  all: subst.
  all: try (destruct ct; try done; simpl in * ).
  all: try (destruct cr; try done; simpl in * ).
  all: try (destruct ws; try done; simpl in * ).
  all: try (destruct xt; try done; simpl in * ).
  all: repeat match goal with
              | H : negb (bool_decide (_ = ∅)) = false |- _ =>
                  apply negb_false_iff, bool_decide_eq_true in H
              end.
  all: split_and!; try done; try tauto; intuition congruence.
Qed.

Lemma exec_networkInv g acts n n' :
  networkInv n → exec g n acts = Some n' → networkInv n'.
Proof.
  revert n. induction acts as [| a acts IH]; intros n Hinv Hexec.
  - by injection Hexec as <-.
  - simpl in Hexec. destruct (step g n a) as [n1 |] eqn:Hstep; [| done].
    apply (IH n1); [| done]. destruct Hinv as [Hw Hc]. split.
    + by eapply step_watchedInv.
    + by eapply step_closingInv.
Qed.

Lemma networkInv_network0 : networkInv network0.
Proof.
  split; [split |].
  - intros k ch. simpl. by rewrite lookup_empty.
  - intros ch a pc. simpl. by rewrite lookup_nil.
  - unfold closingInv, coreAtSeen, coreAtReplies. simpl.
    split_and!; try done; intuition congruence.
Qed.


Lemma step_blocked_core_watcher g n a n' :
  coreAtSeen n → watcherAtTimeout n → step g n a = Some n' →
  core n' = core n ∧ watcher n' = watcher n ∧ isTimerFires a.
Proof.
  unfold coreAtSeen, watcherAtTimeout. intros Hc Hw Hstep.
  destruct n as [[cpc cs ct cr] [wpc wp ws] ds xs xt xr]. simpl in *.
  destruct cpc; try done. destruct wpc; try done.
  destruct a; unfold step, stepRunning in Hstep; simpl in Hstep;
    repeat (case_match; simplify_eq/=; try done).
  all: by split_and!.
Qed.

Lemma exec_blocked_core_watcher g acts n n' :
  coreAtSeen n → watcherAtTimeout n → exec g n acts = Some n' →
  core n' = core n ∧ watcher n' = watcher n ∧ Forall isTimerFires acts.
Proof.
  revert n. induction acts as [| a acts IH]; intros n Hc Hw Hexec.
  - injection Hexec as <-. by split_and!.
  - simpl in Hexec. destruct (step g n a) as [n1 |] eqn:Hstep; [| done].
    destruct (step_blocked_core_watcher _ _ _ _ Hc Hw Hstep) as (Hc1 & Hw1 & Ha).
    destruct (IH n1) as (Hc2 & Hw2 & Hacts); [| | done |].
    + unfold coreAtSeen. by rewrite Hc1.
    + unfold watcherAtTimeout. by rewrite Hw1.
    + split_and!; [congruence | congruence | by constructor].
Qed.

Lemma step_blocked_watcher_dog g n ch addr a n' :
  watcherBlockedOnDog n ch addr → step g n a = Some n' →
  watcherBlockedOnDog n' ch addr
  ∧ watcher n' = watcher n
  ∧ core_s (core n') = core_s (core n)
  ∧ (pendingReplies n' + (if isReplyHandoff a then 1 else 0)
     ≤ pendingReplies n)%nat.
Proof.
  unfold watcherBlockedOnDog, pendingReplies. intros [Hw Hd] Hstep.
  destruct n as [[cpc cs ct cr] [wpc wp ws] ds xs xt xr]. simpl in *. subst wpc.
  destruct a; unfold step, stepRunning in Hstep; simpl in Hstep;
    rewrite ?coreLoop_eq in Hstep;
    repeat (case_match; simplify_eq/=; try done).
  all: split_and!; try done; try lia.
  all: try (rewrite list_lookup_insert_ne; [done | congruence]).
Qed.

Lemma exec_blocked_watcher_dog g acts n ch addr n' :
  watcherBlockedOnDog n ch addr → exec g n acts = Some n' →
  watcherBlockedOnDog n' ch addr
  ∧ watcher n' = watcher n
  ∧ core_s (core n') = core_s (core n)
  ∧ (length (filter (λ a, isReplyHandoff a = true) acts) ≤ pendingReplies n)%nat.
Proof.
  revert n. induction acts as [| a acts IH]; intros n Hb Hexec.
  - injection Hexec as <-. split_and!; try done. simpl. lia.
  - simpl in Hexec. destruct (step g n a) as [n1 |] eqn:Hstep; [| done].
    destruct (step_blocked_watcher_dog _ _ _ _ _ _ Hb Hstep) as (Hb1 & Hw1 & Hs1 & Hp1).
    destruct (IH n1 Hb1 Hexec) as (Hb2 & Hw2 & Hs2 & Hp2).
    split_and!; [done | congruence | congruence |].
    rewrite filter_cons. destruct (isReplyHandoff a).
    + rewrite decide_True by done. simpl. lia.
    + rewrite decide_False by done. lia.
Qed.

Lemma exec_cons g n a acts n1 :
  step g n a = Some n1 → exec g n (a :: acts) = exec g n1 acts.
Proof. intros H. simpl. by rewrite H. Qed.

Lemma reach_core_watcher g order1 order2 req1 req2 r2 :
  decodeServerRequest g (buffer req1) = Decoded serverRequest_getPeerList →
  decodeServerRequest g (buffer req2) = Decoded r2 →
  ∃ n, exec g network0
         [RecvRequest order1 req1; SeenHandoff; FeedHandoff; ReplyHandoff;
          TimerFires 0; InnerTimeoutHandoff 0; RecvRequest order2 req2]
       = Some n
       ∧ core_pc (core n) = CoreSendSeen order2 req2 (Some r2)
       ∧ watcher_pc (watcher n) = WatcherSendTimeout (from req1).
Proof.
  intros H1 H2. eexists. split_and!.
  - erewrite exec_cons; [| unfold step, stepRunning; cbn; by rewrite H1].
    erewrite exec_cons;
      [| unfold step, stepRunning; cbn; by rewrite lookup_empty].
    erewrite exec_cons; [| unfold step, stepRunning; cbn; done].
    erewrite exec_cons; [| unfold step, stepRunning; cbn; done].
    erewrite exec_cons; [| unfold step, stepRunning; cbn; done].
    erewrite exec_cons; [| unfold step, stepRunning; cbn; done].
    erewrite exec_cons; [| unfold step, stepRunning; cbn; by rewrite H2].
    done.
  - done.
  - done.
Qed.

Lemma reach_watcher_dog g order1 order2 req1 req2 r2 :
  decodeServerRequest g (buffer req1) = Decoded serverRequest_getPeerList →
  decodeServerRequest g (buffer req2) = Decoded r2 →
  addrKey (from req2) = addrKey (from req1) →
  ∃ n, exec g network0
         [RecvRequest order1 req1; SeenHandoff; FeedHandoff; ReplyHandoff;
          TimerFires 0; RecvRequest order2 req2; SeenHandoff]
       = Some n
       ∧ watcherBlockedOnDog n 0 (from req1)
       ∧ (pendingReplies n ≤ 1)%nat.
Proof.
  intros H1 H2 Hkey. eexists. split_and!.
  - erewrite exec_cons; [| unfold step, stepRunning; cbn; by rewrite H1].
    erewrite exec_cons;
      [| unfold step, stepRunning; cbn -[addrKey]; by rewrite lookup_empty].
    erewrite exec_cons; [| unfold step, stepRunning; cbn -[addrKey]; done].
    erewrite exec_cons; [| unfold step, stepRunning; cbn -[addrKey]; done].
    erewrite exec_cons; [| unfold step, stepRunning; cbn -[addrKey]; done].
    erewrite exec_cons;
      [| unfold step, stepRunning; cbn -[addrKey]; by rewrite H2].
    erewrite exec_cons;
      [| unfold step, stepRunning; cbn -[addrKey updateServer];
         by rewrite Hkey, lookup_insert_eq].
    done.
  - done.
  - unfold pendingReplies. cbn -[addrKey].
    destruct r2 as [| t d]; cbn -[addrKey]; [lia |].
    case_bool_decide; cbn; lia.
Qed.

Lemma updateServer_members order r s sender k :
  k ∈ peers (fst (updateServer order r s sender)) →
  k ∈ peers s ∨ k = addrKey sender.
Proof.
  destruct r as [| t d]; simpl.
  - rewrite elem_of_union, elem_of_singleton. tauto.
  - by left.
Qed.

Lemma step_memberInv g n a n' :
  memberInv n → step g n a = Some n' → memberInv n'.
Proof.
  unfold memberInv. intros Hinv Hstep.
  destruct n as [[cpc cs ct cr] [wpc wp ws] ds xs xt xr]. simpl in *.
  destruct a.
  all: unfold step, stepRunning in Hstep; simpl in Hstep.
  all: rewrite ?coreLoop_eq, ?watcherLoop_eq in Hstep.
  all: repeat (case_match; simplify_eq/=; try done).
  all: rewrite ?coreLoop_eq; simpl.
  all: intros k Hk.
  all: try (destruct (Hinv k Hk) as [? | (? & ? & ?)]; [by left | done]).
  all: try match goal with
    | H : updateServer ?o ?r ?s ?f = (_, _) |- _ =>
        let Hm := fresh in
        pose proof (updateServer_members o r s f k) as Hm;
        rewrite H in Hm; destruct (Hm Hk) as [Hold | ->]; clear Hm
    end.
  all: try (left; apply lookup_insert_is_Some'; by left).
  all: try (left; apply lookup_insert_is_Some'; right).
  all: try (destruct (Hinv k Hold) as [? | (? & ? & ?)]; [done | done]).
  all: try (destruct (Hinv k Hold) as [? | (? & ? & ?)]; [by left | done]).
  all: try (by left; eexists).
  all: try (by left).
  all: try (destruct (Hinv k Hk) as [? | (? & ? & ?)]; [| done];
            destruct (decide (addrKey u = k)); [right; by eexists | left; by rewrite lookup_delete_is_Some]).
  all: try (apply elem_of_difference in Hk as [Hk Hne]; rewrite elem_of_singleton in Hne;
            destruct (Hinv k Hk) as [? | (? & ? & ?)]; [by left | by simplify_eq]).
  all: try (destruct (Hinv k Hold) as [? | (? & ? & ?)]; [done | done]).
  all: try (destruct (Hinv k Hk) as [? | (? & ? & ?)]; [done | done]).
Qed.

Lemma exec_memberInv g acts n n' :
  memberInv n → exec g n acts = Some n' → memberInv n'.
Proof.
  revert n. induction acts as [| a acts IH]; intros n Hinv Hexec.
  - by injection Hexec as <-.
  - simpl in Hexec. destruct (step g n a) as [n1 |] eqn:Hstep; [| done].
    eapply IH; [| done]. by eapply step_memberInv.
Qed.

Lemma memberInv_network0 : memberInv network0.
Proof. intros k Hk. simpl in Hk. by apply not_elem_of_empty in Hk. Qed.

Lemma step_serving_core_watcher g n a n' :
  coreAtSeen n → watcherAtTimeout n → step g n a = Some n' →
  closed_responses n' = closed_responses n.
Proof.
  unfold coreAtSeen, watcherAtTimeout. intros Hc Hw Hstep.
  destruct n as [[cpc cs ct cr] [wpc wp ws] ds xs xt xr]. simpl in *.
  destruct cpc; try done. destruct wpc; try done.
  destruct a; unfold step, stepRunning in Hstep; simpl in Hstep;
    repeat (case_match; simplify_eq/=; try done).
  all: done.
Qed.

Lemma exec_serving_core_watcher g acts n n' :
  coreAtSeen n → watcherAtTimeout n → exec g n acts = Some n' →
  closed_responses n' = closed_responses n.
Proof.
  revert n. induction acts as [| a acts IH]; intros n Hc Hw Hexec.
  - by injection Hexec as <-.
  - simpl in Hexec. destruct (step g n a) as [n1 |] eqn:Hstep; [| done].
    destruct (step_blocked_core_watcher _ _ _ _ Hc Hw Hstep) as (Hc1 & Hw1 & _).
    rewrite (IH n1); [exact (step_serving_core_watcher g n a n1 Hc Hw Hstep) | | | done].
    + unfold coreAtSeen. by rewrite Hc1.
    + unfold watcherAtTimeout. by rewrite Hw1.
Qed.

Lemma step_serving_watcher_dog g n ch addr a n' :
  watcherBlockedOnDog n ch addr → serving n → step g n a = Some n' →
  serving n'.
Proof.
  unfold watcherBlockedOnDog, serving. intros [Hw Hd] (Ht & Hxt & Hxr) Hstep.
  destruct n as [[cpc cs ct cr] [wpc wp ws] ds xs xt xr]. simpl in *. subst.
  destruct a; unfold step, stepRunning in Hstep; simpl in Hstep;
    rewrite ?coreLoop_eq in Hstep;
    repeat (case_match; simplify_eq/=; try done).
  all: done.
Qed.

Lemma exec_serving_watcher_dog g acts n ch addr n' :
  watcherBlockedOnDog n ch addr → serving n → exec g n acts = Some n' →
  serving n'.
Proof.
  revert n. induction acts as [| a acts IH]; intros n Hb Hs Hexec.
  - by injection Hexec as <-.
  - simpl in Hexec. destruct (step g n a) as [n1 |] eqn:Hstep; [| done].
    destruct (step_blocked_watcher_dog _ _ _ _ _ _ Hb Hstep) as (Hb1 & _).
    apply (IH n1 Hb1); [| done].
    exact (step_serving_watcher_dog g n ch addr a n1 Hb Hs Hstep).
Qed.

(** X15.  Whatever the schedule, the watcher holds one watchdog for each
    key of its map and each watchdog that has not returned is the one
    of the map for the key of its address; so no two running watchdogs
    watch the same key. *)
Theorem watcher_one_watchdog_per_key (g : gob) (acts : list action)
    (n : network) :
  exec g network0 acts = Some n →
  (∀ k ch, watcher_peers (watcher n) !! k = Some ch →
           ∃ a pc, dogs n !! ch = Some (a, pc) ∧ addrKey a = k ∧ liveDog pc)
  ∧ (∀ ch a pc, dogs n !! ch = Some (a, pc) → liveDog pc →
                watcher_peers (watcher n) !! addrKey a = Some ch)
  ∧ (∀ ch1 ch2 a1 a2 pc1 pc2,
       dogs n !! ch1 = Some (a1, pc1) → dogs n !! ch2 = Some (a2, pc2) →
       liveDog pc1 → liveDog pc2 → addrKey a1 = addrKey a2 → ch1 = ch2).
Proof.
  intros Hexec.
  destruct (exec_networkInv g acts network0 n networkInv_network0 Hexec)
    as [[Hmap Hdog] _].
  split_and!; [done | done |].
  intros ch1 ch2 a1 a2 pc1 pc2 H1 H2 Hl1 Hl2 Hkey.
  apply Hdog in H1; [| done]. apply Hdog in H2; [| done].
  rewrite Hkey in H1. congruence.
Qed.

(** X16.  Whatever the schedule, no goroutine of the server waits to
    send on a channel that is closed, and the channels close in the
    order [seen], [timeout], [responses]: the watcher closes
    [timeoutInner] and [timeout] only when every watchdog has returned,
    and the core closes [responses] only after the other two. *)
Theorem server_channels_close_in_order (g : gob) (acts : list action)
    (n : network) :
  exec g network0 acts = Some n →
  (coreAtSeen n → closed_seen n = false)
  ∧ (coreAtReplies n → closed_responses n = false)
  ∧ (watcherAtTimeout n → closed_timeout n = false)
  ∧ (∀ ch a, dogs n !! ch = Some (a, DogSendTimeout) → closed_timeout n = false)
  ∧ (closed_timeout n = true →
     closed_seen n = true ∧ ∀ ch a pc, dogs n !! ch = Some (a, pc) → pc = DogDone)
  ∧ (closed_responses n = true → closed_seen n = true ∧ closed_timeout n = true).
Proof.
  intros Hexec.
  destruct (exec_networkInv g acts network0 n networkInv_network0 Hexec)
    as [[Hmap Hdog] (Hxt & Hwdone & Hxs & Hcr & Hws & Hct & Hxr & Hcdone)].
  split_and!.
  - intros Hc. rewrite Hxs, Hcr; [done | by left].
  - intros Hc. destruct (closed_responses n) eqn:Hx; [| done].
    destruct Hxr as [Hxr _]. unfold coreAtReplies in Hc.
    by rewrite Hxr in Hc.
  - intros Hw. destruct (closed_timeout n) eqn:Hx; [| done].
    destruct Hxt as [Hxt _]. unfold watcherAtTimeout in Hw.
    by rewrite Hxt in Hw.
  - intros ch a Hd. destruct (closed_timeout n) eqn:Hx; [| done].
    destruct Hxt as [Hxt _]. destruct (Hwdone (Hxt eq_refl)) as [Hempty _].
    apply Hdog in Hd; [| done]. by rewrite Hempty, lookup_empty in Hd.
  - intros Hx. destruct Hxt as [Hxt _].
    destruct (Hwdone (Hxt Hx)) as [Hempty Hseen]. split; [by apply Hws |].
    intros ch a pc Hd. destruct pc; [| | done].
    + apply Hdog in Hd; [| done]. by rewrite Hempty, lookup_empty in Hd.
    + apply Hdog in Hd; [| done]. by rewrite Hempty, lookup_empty in Hd.
  - intros Hx. destruct Hxr as [Hxr _].
    destruct (Hcdone (Hxr Hx)) as [Ht Hr]. split.
    + by rewrite Hxs, Hr.
    + by apply Hct.
Qed.

(** X17.  Whatever the schedule, every member of the server has a
    watchdog in the map of the watcher, but for the member whose
    timeout the watcher is handing to the core at that moment. *)
Theorem server_members_are_watched (g : gob) (acts : list action)
    (n : network) (k : address) :
  exec g network0 acts = Some n →
  k ∈ peers (core_s (core n)) →
  is_Some (watcher_peers (watcher n) !! k)
  ∨ ∃ a, watcher_pc (watcher n) = WatcherSendTimeout a ∧ addrKey a = k.
Proof.
  intros Hexec. by apply (exec_memberInv g acts network0 n memberInv_network0).
Qed.

(** X18.  The core and the watcher can block each other for good.  When
    the watchdog of a member times out and the core takes the next
    datagram before it takes the timeout, the core waits at [seen <-
    request.from] and the watcher at [timeout <- a]: from then on
    neither moves again, whatever the schedule; only timers of other
    watchdogs still fire.  The member stays, no request is served and
    [responses] is never closed. *)
Theorem core_and_watcher_block_each_other (g : gob)
    (order1 order2 : list address) (req1 req2 : request) (r2 : serverRequest) :
  decodeServerRequest g (buffer req1) = Decoded serverRequest_getPeerList →
  decodeServerRequest g (buffer req2) = Decoded r2 →
  ∃ n, exec g network0 (timeoutDuringRequest order1 order2 req1 req2) = Some n
       ∧ core_pc (core n) = CoreSendSeen order2 req2 (Some r2)
       ∧ watcher_pc (watcher n) = WatcherSendTimeout (from req1)
       ∧ addrKey (from req1) ∈ peers (core_s (core n))
       ∧ ∀ more n', exec g n more = Some n' →
                    core n' = core n ∧ watcher n' = watcher n
                    ∧ closed_responses n' = false
                    ∧ Forall isTimerFires more.
Proof.
  intros H1 H2.
  destruct (reach_core_watcher g order1 order2 req1 req2 r2 H1 H2)
    as (n & Hexec & Hc & Hw).
  exists n. split_and!; [done | done | done | |].
  - revert Hexec. unfold exec, step, stepRunning. cbn -[addrKey].
    rewrite H1. cbn -[addrKey]. rewrite lookup_empty. cbn -[addrKey].
    rewrite H2. intros [= <-]. cbn -[addrKey]. set_solver.
  - intros more n' Hmore.
    assert (coreAtSeen n) as Hcs by (unfold coreAtSeen; by rewrite Hc).
    assert (watcherAtTimeout n) as Hwt
      by (unfold watcherAtTimeout; by rewrite Hw).
    destruct (exec_blocked_core_watcher g more n n' Hcs Hwt Hmore)
      as (Hc' & Hw' & Hacts).
    split_and!; [done | done | | done].
    rewrite (exec_serving_core_watcher g more n n' Hcs Hwt Hmore).
    revert Hexec. unfold exec, step, stepRunning. cbn -[addrKey].
    rewrite H1. cbn -[addrKey]. rewrite lookup_empty. cbn -[addrKey].
    rewrite H2. by intros [= <-].
Qed.

(** X19.  The watcher and a watchdog can block each other for good.
    When the timer of a watchdog fires and, before the watcher takes the
    timeout, a datagram of the same address is accepted, the watcher
    waits at [feed <- struct{}{}] for this watchdog and the watchdog at
    [timeout <- addr]: from then on the watcher never moves again,
    whatever the schedule.  The members of the server never change
    again, at most the response to the datagram in hand is still sent,
    and [responses] is never closed. *)
Theorem watcher_and_watchdog_block_each_other (g : gob)
    (order1 order2 : list address) (req1 req2 : request) (r2 : serverRequest) :
  decodeServerRequest g (buffer req1) = Decoded serverRequest_getPeerList →
  decodeServerRequest g (buffer req2) = Decoded r2 →
  addrKey (from req2) = addrKey (from req1) →
  ∃ n, exec g network0 (timerBeforeFeed order1 order2 req1 req2) = Some n
       ∧ watcherBlockedOnDog n 0 (from req1)
       ∧ ∀ more n', exec g n more = Some n' →
                    watcherBlockedOnDog n' 0 (from req1)
                    ∧ watcher n' = watcher n
                    ∧ core_s (core n') = core_s (core n)
                    ∧ closed_responses n' = false
                    ∧ (length (filter (λ a, isReplyHandoff a = true) more) ≤ 1)%nat.
Proof.
  intros H1 H2 Hkey.
  destruct (reach_watcher_dog g order1 order2 req1 req2 r2 H1 H2 Hkey)
    as (n & Hexec & Hb & Hpending).
  exists n. split_and!; [done | done |].
  intros more n' Hmore.
  destruct (exec_blocked_watcher_dog g more n 0%nat (from req1) n' Hb Hmore)
    as (Hb' & Hw' & Hs' & Hreplies).
  split_and!; [done | done | done | | lia].
  assert (serving n) as Hserving.
  { revert Hexec. unfold timerBeforeFeed, exec, step, stepRunning.
    cbn -[addrKey updateServer].
    rewrite H1. cbn -[addrKey updateServer]. rewrite lookup_empty.
    cbn -[addrKey]. rewrite H2. cbn -[addrKey updateServer].
    rewrite Hkey, lookup_insert_eq.
    destruct (updateServer _ _ _ _) as [s' es].
    destruct (responsesOf es); rewrite ?coreLoop_eq; by intros [= <-]. }
  by destruct (exec_serving_watcher_dog g more n 0%nat (from req1) n' Hb Hserving Hmore)
    as (_ & _ & ?).
Qed.

(** ** The goroutines and the loop *)

Lemma step_refines g n a n1 :
  heldInv g n → step g n a = Some n1 →
  heldInv g n1
  ∧ match inputOf g n a with
    | None =>
        core_s (core n1) = core_s (core n)
        ∧ core_pc (core n1) ≠ CorePanicked
        ∧ pendingOf n = option_list (replyOf n a) ++ pendingOf n1
    | Some i =>
        match serverStep g (core_s (core n)) i with
        | Next s e1 =>
            core_s (core n1) = s
            ∧ core_pc (core n1) ≠ CorePanicked
            ∧ pendingOf n = [] ∧ replyOf n a = None
            ∧ responsesOf e1 = pendingOf n1
        | Panicked e1 =>
            core_pc (core n1) = CorePanicked
            ∧ pendingOf n = [] ∧ replyOf n a = None
            ∧ responsesOf e1 = []
        end
    end.
Proof.
  unfold heldInv, pendingOf, replyOf, inputOf. intros Hheld Hstep.
  destruct n as [[cpc cs ct cr] [wpc wp ws] ds xs xt xr]. simpl in *.
  destruct a.
  all: unfold step, stepRunning in Hstep; simpl in Hstep.
  all: rewrite ?coreLoop_eq, ?watcherLoop_eq in Hstep.
  all: repeat (match type of Hstep with
               | context [match ?x with _ => _ end] => destruct x eqn:?
               end; try done; simplify_eq/=).
  all: rewrite ?coreLoop_eq; simpl.
  all: try (by split_and!).
  all: unfold serverOnRequest, serverOnTimeout; rewrite ?Heqd, ?Hheld.
  all: try (by split_and!).
  all: try match goal with r : option serverRequest |- _ => destruct r end.
  all: try (destruct (updateServer _ _ _ _) as [s' es] eqn:Hupd;
            change (responsesOf (SendSeen (from req) :: es))
              with (responsesOf es);
            destruct (responsesOf es) eqn:Hrs).
  all: rewrite ?coreLoop_eq; cbn [core_pc core_s fst].
  all: try (by split_and!).
  all: try (destruct ct; try destruct cr; by split_and!).
  all: try (destruct cr; by split_and!).
Qed.

Lemma exec_panicked g acts n n' :
  core_pc (core n) = CorePanicked → exec g n acts = Some n' →
  acts = [] ∧ n' = n.
Proof.
  intros Hpc Hexec. destruct acts as [| a acts].
  - by injection Hexec as <-.
  - simpl in Hexec. unfold step in Hexec. by rewrite Hpc in Hexec.
Qed.

Lemma exec_refines g acts n n' :
  heldInv g n → exec g n acts = Some n' →
  match run (serverStep g) (core_s (core n)) (inputsOf g n acts) with
  | Next s es =>
      (core_pc (core n) ≠ CorePanicked → core_pc (core n') ≠ CorePanicked)
      ∧ core_s (core n') = s
      ∧ pendingOf n ++ responsesOf es = repliesOf g n acts ++ pendingOf n'
  | Panicked es =>
      core_pc (core n') = CorePanicked
      ∧ pendingOf n ++ responsesOf es = repliesOf g n acts
  end.
Proof.
  revert n. induction acts as [| a acts IH]; intros n Hheld Hexec.
  - injection Hexec as <-. simpl. split_and!; [done | done |].
    by rewrite app_nil_r.
  - simpl in Hexec. simpl. destruct (step g n a) as [n1 |] eqn:Hstep; [| done].
    destruct (step_refines g n a n1 Hheld Hstep) as [Hheld1 Hone].
    specialize (IH n1 Hheld1 Hexec).
    destruct (inputOf g n a) as [i |]; simpl.
    + destruct (serverStep g (core_s (core n)) i) as [s e1 | e1].
      * destruct Hone as (<- & Hpc1 & Hp & -> & He1).
        destruct (run (serverStep g) (core_s (core n1)) (inputsOf g n1 acts))
          as [s2 e2 | e2].
        -- destruct IH as (Hpc & Hs & Hrs). split_and!; [by auto | done |].
           rewrite Hp, responsesOf_app, He1. done.
        -- destruct IH as (Hpc & Hrs). split; [done |].
           rewrite Hp, responsesOf_app, He1. done.
      * destruct Hone as (Hpc1 & Hp & -> & He1).
        destruct (exec_panicked g acts n1 n' Hpc1 Hexec) as [-> ->].
        split; [done |]. by rewrite Hp, He1.
    + destruct Hone as (Hs & Hpc1 & Hp). rewrite <- Hs.
      destruct (run (serverStep g) (core_s (core n1)) (inputsOf g n1 acts))
        as [s2 e2 | e2].
      * destruct IH as (Hpc & Hs2 & Hrs). split_and!; [by auto | done |].
        rewrite Hp, <- !app_assoc. by rewrite Hrs.
      * destruct IH as (Hpc & Hrs). split; [done |].
        rewrite Hp, <- !app_assoc. by rewrite Hrs.
Qed.

(** X20.  The goroutines of the server do what the loop of [meshServer]
    does on the inputs in the order in which the core completes them:
    whatever the schedule, the members of the server are those of the
    loop, the responses the writer has taken followed by those the core
    has still to send are the responses of the loop, and the core has
    panicked exactly when the loop has. *)
Theorem network_refines_meshServer (g : gob) (acts : list action)
    (n : network) :
  exec g network0 acts = Some n →
  match meshServer g (inputsOf g network0 acts) with
  | Next s es =>
      core_pc (core n) ≠ CorePanicked
      ∧ core_s (core n) = s
      ∧ responsesOf es = repliesOf g network0 acts ++ pendingOf n
  | Panicked es =>
      core_pc (core n) = CorePanicked
      ∧ responsesOf es = repliesOf g network0 acts
  end.
Proof.
  intros Hexec.
  pose proof (exec_refines g acts network0 n I Hexec) as H.
  unfold meshServer. change (core_s (core network0)) with server0 in H.
  destruct (run (serverStep g) server0 (inputsOf g network0 acts)).
  - destruct H as (Hpc & Hs & Hrs). split_and!; [by apply Hpc | done | done].
  - done.
Qed.

(** ** Discovery and the liveness handshake *)

(** X21.  Discovery end to end.  The tick of P1 opens with a
    [getPeerList] to the server; the server makes the sender of that
    datagram a member and answers it with the other members; when P1
    has taken in the answer, the addresses it has an id for are the
    members of the server other than itself (as the server saw it),
    and those it already knew keep their ids. *)
Theorem discovery_end_to_end (g : gob) (serverAddressUdp e1 eS : UDPAddr)
    (p1 : peer) (s : server) (order1 orderS : list address) (b1 b2 : bytes) :
  gobRoundTrip g →
  rangeOrder ({[addrKey e1]} ∪ peers s) orderS →
  gobEncode g getPeerList = Some b1 →
  gobEncode g (peerList (filter (λ k, k ≠ addrKey e1) orderS)) = Some b2 →
  let reply := filter (λ k, k ≠ addrKey e1) orderS in
  peerOnTick serverAddressUdp order1 !! 0%nat
  = Some (SendResponse {| to := Some serverAddressUdp; m := getPeerList |})
  ∧ serverOnRequest g orderS s {| from := e1; buffer := b1 |}
    = Next {| peers := {[addrKey e1]} ∪ peers s |}
        [SendSeen e1; Log "getPeerList from";
         SendResponse {| to := Some e1; m := peerList reply |}]
  ∧ peerOnRequest g p1 {| from := eS; buffer := b2 |}
    = Next (peerList_updatePeer reply p1) []
  ∧ dom (peerIds (peerList_updatePeer reply p1)) = peers s ∖ {[addrKey e1]}
  ∧ (∀ a i, peerIds p1 !! a = Some i → a ∈ peers s → a ≠ addrKey e1 →
            peerIds (peerList_updatePeer reply p1) !! a = Some i).
Proof.
  intros Hgob Horder Hb1 Hb2. cbv zeta.
  pose proof (rangeOrder_filter_ne _ _ (addrKey e1) Horder) as Hperm.
  assert (∀ a, a ∈ filter (λ k, k ≠ addrKey e1) orderS
               ↔ a ∈ peers s ∧ a ≠ addrKey e1) as Hmem.
  { intros a. rewrite Hperm, elem_of_elements, elem_of_difference,
      elem_of_union, !elem_of_singleton. tauto. }
  split_and!.
  - done.
  - rewrite (serverOnRequest_decoded g orderS s _ serverRequest_getPeerList).
    + cbn [updateServer from]. unfold getPeerList_updateServer.
      by rewrite foldl_append_filter.
    + unfold decodeServerRequest. cbn [buffer]. by rewrite (Hgob _ _ Hb1).
  - unfold peerOnRequest, decodePeerRequest. cbn [buffer].
    by rewrite (Hgob _ _ Hb2).
  - rewrite peerList_updatePeer_eq. cbn [peerIds].
    rewrite assignIds_dom, dom_empty_L, (left_id_L ∅ (∪)).
    apply set_eq. intros a. rewrite elem_of_list_to_set, Hmem,
      elem_of_difference, elem_of_singleton. tauto.
  - intros a i Hi Ha Hne. rewrite peerList_updatePeer_eq. cbn [peerIds].
    apply assignIds_old; [done |]. left. by apply Hmem.
Qed.

(** X22.  The liveness handshake end to end.  On a tick P1 sends a
    [keepAlive] to the endpoint of every key it has an id for; P2
    answers the datagram with an [isAlive] to its sender; when the
    answer arrives from an endpoint with the key [k2], P1 marks [k2]
    alive and reports the sender to its watcher.  From then on a
    broadcast of P1 goes to [k2] directly, where before it went by the
    server ([data] is what the buffer holds at the round for [k2]). *)
Theorem liveness_handshake_end_to_end (g : gob)
    (serverAddressUdp e1 e2 : UDPAddr) (p1 p2 : peer) (order1 : list address)
    (visits : list (address * bytes)) (k2 : address) (data b1 b2 : bytes) :
  gobRoundTrip g →
  k2 ∈ order1 →
  (k2, data) ∈ visits →
  addrKey e2 = k2 →
  gobEncode g keepAlive = Some b1 →
  gobEncode g isAlive = Some b2 →
  let p1' := {| peerIds := peerIds p1; nextPeerId := nextPeerId p1;
                alivePeers := {[k2]} ∪ alivePeers p1 |} in
  SendResponse {| to := addrFromKey k2; m := keepAlive |}
  ∈ peerOnTick serverAddressUdp order1
  ∧ peerOnRequest g p2 {| from := e1; buffer := b1 |}
    = Next p2 [SendResponse {| to := Some e1; m := isAlive |}]
  ∧ peerOnRequest g p1 {| from := e2; buffer := b2 |} = Next p1' [SendSeen e2]
  ∧ SendResponse {| to := addrFromKey k2; m := dataDirect data |}
    ∈ peerOnBroadcast serverAddressUdp p1' visits
  ∧ (k2 ∉ alivePeers p1 →
     SendResponse {| to := Some serverAddressUdp; m := dataRelayTo k2 data |}
     ∈ peerOnBroadcast serverAddressUdp p1 visits).
Proof.
  intros Hgob Hin Hvisit Hkey Hb1 Hb2. cbv zeta. split_and!.
  - unfold peerOnTick. apply list_elem_of_further, list_elem_of_In, in_flat_map.
    exists k2. split; [by apply list_elem_of_In |]. right. by left.
  - unfold peerOnRequest, decodePeerRequest. cbn [buffer].
    by rewrite (Hgob _ _ Hb1).
  - unfold peerOnRequest, decodePeerRequest. cbn [buffer].
    rewrite (Hgob _ _ Hb2). cbn [asPeerRequest updatePeer from].
    unfold isAlive_updatePeer. by rewrite Hkey.
  - rewrite peerOnBroadcast_eq. apply list_elem_of_fmap. exists (k2, data).
    split; [| done]. unfold broadcastTo. cbn [alivePeers fst snd].
    rewrite bool_decide_eq_true_2; [done |].
    apply elem_of_union. left. by apply elem_of_singleton.
  - intros Hdead. rewrite peerOnBroadcast_eq. apply list_elem_of_fmap.
    exists (k2, data). split; [| done]. unfold broadcastTo. cbn [fst snd].
    by rewrite bool_decide_eq_false_2.
Qed.

(** ** Shutdown of the server *)

Lemma step_idleInv g n a n' :
  idleInv n → step g n a = Some n' → idleInv n'.
Proof.
  unfold idleInv. intros Hinv Hstep.
  destruct n as [[cpc cs ct cr] [wpc wp ws] ds xs xt xr]. simpl in *.
  destruct a.
  all: unfold step, stepRunning in Hstep; simpl in Hstep.
  all: rewrite ?coreLoop_eq, ?watcherLoop_eq in Hstep.
  all: repeat (match type of Hstep with
               | context [match ?x with _ => _ end] => destruct x eqn:?
               end; try done; simplify_eq/=).
  all: try done.
  all: try (by left).
  all: try (destruct ws; simpl; [by left |];
            case_bool_decide; simpl; [done | by right]).
  all: try (case_bool_decide; simpl; [done | by right]).
Qed.

Lemma exec_idleInv g acts n n' :
  idleInv n → exec g n acts = Some n' → idleInv n'.
Proof.
  revert n. induction acts as [| a acts IH]; intros n Hinv Hexec.
  - by injection Hexec as <-.
  - simpl in Hexec. destruct (step g n a) as [n1 |] eqn:Hstep; [| done].
    eapply IH; [| done]. by eapply step_idleInv.
Qed.

Lemma exec_app g acts1 acts2 n n1 :
  exec g n acts1 = Some n1 → exec g n (acts1 ++ acts2) = exec g n1 acts2.
Proof.
  revert n. induction acts1 as [| a acts1 IH]; intros n Hexec.
  - by injection Hexec as <-.
  - simpl in *. destruct (step g n a) as [n2 |]; [by apply IH | done].
Qed.

Lemma exec_watchedInv g acts n n' :
  watchedInv n → exec g n acts = Some n' → watchedInv n'.
Proof.
  revert n. induction acts as [| a acts IH]; intros n Hinv Hexec.
  - by injection Hexec as <-.
  - simpl in Hexec. destruct (step g n a) as [n1 |] eqn:Hstep; [| done].
    eapply IH; [| done]. by eapply step_watchedInv.
Qed.

(** One watchdog times out and its timeout reaches the core. *)
Lemma drain_one g n k ch :
  finishing n → watchedInv n →
  watcher_peers (watcher n) !! k = Some ch →
  ∃ acts n1,
    exec g n acts = Some n1
    ∧ Forall isShutdownAction acts
    ∧ finishing n1
    ∧ watcher_peers (watcher n1) = delete k (watcher_peers (watcher n)).
Proof.
  intros (Hcpc & Hct & Hcr & Hw) [Hmap Hdog] Hk.
  destruct Hw as [(Hwpc & Hws & Hxt & _) | (_ & _ & Hempty)]; last first.
  { by rewrite Hempty, lookup_empty in Hk. }
  destruct (Hmap k ch Hk) as (a & pc & Hd & Hkey & Hlive).
  pose proof (lookup_lt_Some _ _ _ Hd) as Hlt.
  destruct n as [[cpc cs ct cr] [wpc wp ws] ds xs xt xr]. simpl in *.
  subst cpc ct cr wpc ws xt.
  assert (∀ s : server,
            ∃ n1, exec g (mkNetwork (mkCore CoreSelect s true false)
                            (mkWatcher WatcherSelect wp false)
                            (<[ch := (a, DogSendTimeout)]> ds) xs false xr)
                    [InnerTimeoutHandoff ch; TimeoutHandoff] = Some n1
                  ∧ finishing n1
                  ∧ watcher_peers (watcher n1) = delete k wp) as Htail.
  { intros s. eexists. split_and!.
    - unfold exec, step, stepRunning. cbn -[addrKey].
      rewrite list_lookup_insert_eq by done. cbn -[addrKey].
      rewrite watcherLoop_eq. done.
    - unfold finishing. cbn -[addrKey]. rewrite Hkey.
      split_and!; try done.
      case_bool_decide as He; simpl.
      + by right.
      + by left.
    - cbn -[addrKey]. by rewrite Hkey. }
  destruct pc; [| | done].
  - destruct (Htail cs) as (n1 & Hexec & Hfin & Hpeers).
    exists [TimerFires ch; InnerTimeoutHandoff ch; TimeoutHandoff], n1.
    split_and!; [| by repeat constructor | done | done].
    rewrite <- Hexec. unfold exec at 1. unfold step at 1, stepRunning at 1.
    cbn -[addrKey exec step]. by rewrite Hd.
  - destruct (Htail cs) as (n1 & Hexec & Hfin & Hpeers).
    exists [InnerTimeoutHandoff ch; TimeoutHandoff], n1.
    split_and!; [| by repeat constructor | done | done].
    rewrite <- Hexec. f_equal. f_equal.
    by rewrite list_insert_id.
Qed.

Lemma drain g m n :
  size (watcher_peers (watcher n)) = m →
  finishing n → watchedInv n →
  ∃ acts n',
    exec g n acts = Some n'
    ∧ Forall isShutdownAction acts
    ∧ core_pc (core n') = CoreDone
    ∧ watcher_pc (watcher n') = WatcherDone.
Proof.
  revert n. induction m as [| m IH]; intros n Hsize Hfin Hinv.
  all: destruct Hfin as (Hcpc & Hct & Hcr & Hw).
  all: destruct Hw as [(Hwpc & Hws & Hxt & Hne) | (Hwpc & Hxt & Hempty)].
  all: try (exists [TimeoutClosedObserved];
            destruct n as [[cpc cs ct cr] [wpc wp ws] ds xs xt xr];
            simpl in *; subst; eexists; split_and!;
            [unfold exec, step, stepRunning; by simpl
            | by repeat constructor | done | done]).
  - by apply map_size_empty_iff in Hsize.
  - destruct (map_choose _ Hne) as (k & ch & Hk).
    destruct (drain_one g n k ch) as (acts1 & n1 & Hexec1 & Hacts1 & Hfin1 & Hpeers1);
      [by split_and!; [| | | left] | done | done |].
    destruct (IH n1) as (acts2 & n' & Hexec2 & Hacts2 & Hdone);
      [| done | by eapply exec_watchedInv |].
    + rewrite Hpeers1, map_size_delete, Hk, Hsize. simpl. lia.
    + exists (acts1 ++ acts2), n'. split_and!.
      * by rewrite (exec_app g acts1 acts2 n n1).
      * by apply Forall_app.
      * by destruct Hdone.
      * by destruct Hdone.
Qed.

Lemma finishing_start g n :
  closingInv n → idleInv n →
  core_pc (core n) = CoreSelect → watcher_pc (watcher n) = WatcherSelect →
  ∃ acts n1,
    exec g n acts = Some n1 ∧ Forall isShutdownAction acts ∧ finishing n1.
Proof.
  intros (Hxt & Hwdone & Hxs & Hcr & Hws & Hct & Hxr & Hcdone) Hidle Hcpc Hwpc.
  unfold idleInv in Hidle. unfold finishing.
  destruct n as [[cpc cs ct cr] [wpc wp ws] ds xs xt xr]. simpl in *.
  subst cpc wpc xs.
  assert (xt = false) as ->.
  { destruct xt; [| done]. destruct Hxt as [Hxt _]. by specialize (Hxt eq_refl). }
  assert (ct = true) as ->.
  { destruct ct; [done |]. by specialize (Hct eq_refl). }
  destruct cr; [| destruct ws].
  - assert (ws = true) as ->.
    { destruct ws; [done |]. by specialize (Hws eq_refl). }
    exists [RequestsClosed; SeenClosedObserved]. eexists. split_and!.
    + unfold exec, step, stepRunning. simpl. rewrite watcherLoop_eq. done.
    + by repeat constructor.
    + done.
    + done.
    + done.
    + simpl. case_bool_decide as He; simpl; [by right | by left].
  - exists [SeenClosedObserved]. eexists. split_and!.
    + unfold exec, step, stepRunning. simpl. rewrite watcherLoop_eq. done.
    + by repeat constructor.
    + done.
    + done.
    + done.
    + simpl. case_bool_decide as He; simpl; [by right | by left].
  - exists [], (mkNetwork (mkCore CoreSelect cs true false)
                  (mkWatcher WatcherSelect wp false) ds true false xr).
    split_and!; try done. left. split_and!; try done.
    by destruct (Hidle eq_refl).
Qed.

(** X23.  The server can always shut down from rest.  In every state
    the goroutines reach in which the core and the watcher both wait at
    their [select], there is a way on that uses nothing but the closing
    of [requests], the timers of the watchdogs and the hand-over of
    their timeouts, and ends with the core and the watcher returned,
    every watchdog returned, the channels [seen], [timeout] and
    [responses] closed and no member left. *)
Theorem server_can_shut_down (g : gob) (acts : list action) (n : network) :
  exec g network0 acts = Some n →
  core_pc (core n) = CoreSelect →
  watcher_pc (watcher n) = WatcherSelect →
  ∃ more n',
    exec g n more = Some n'
    ∧ Forall isShutdownAction more
    ∧ core_pc (core n') = CoreDone
    ∧ watcher_pc (watcher n') = WatcherDone
    ∧ (∀ ch a pc, dogs n' !! ch = Some (a, pc) → pc = DogDone)
    ∧ closed_seen n' = true
    ∧ closed_timeout n' = true
    ∧ closed_responses n' = true
    ∧ peers (core_s (core n')) = ∅.
Proof.
  intros Hexec Hcpc Hwpc.
  destruct (exec_networkInv g acts network0 n networkInv_network0 Hexec)
    as [Hwatched Hclosing].
  assert (idleInv n) as Hidle.
  { apply (exec_idleInv g acts network0 n); [by left | done]. }
  destruct (finishing_start g n Hclosing Hidle Hcpc Hwpc)
    as (acts1 & n1 & Hexec1 & Hacts1 & Hfin1).
  destruct (drain g _ n1 eq_refl Hfin1 (exec_watchedInv g acts1 n n1 Hwatched Hexec1))
    as (acts2 & n' & Hexec2 & Hacts2 & Hcdone' & Hwdone').
  exists (acts1 ++ acts2), n'.
  assert (exec g n (acts1 ++ acts2) = Some n') as Hmore
    by by rewrite (exec_app g acts1 acts2 n n1).
  assert (exec g network0 (acts ++ acts1 ++ acts2) = Some n') as Hall
    by by rewrite (exec_app g acts _ network0 n).
  destruct (exec_networkInv g _ network0 n' networkInv_network0 Hall)
    as [[Hmap Hdog] (Hxt & Hwdone & Hxs & Hcr & Hws & Hct & Hxr & Hcdone)].
  pose proof (exec_memberInv g _ network0 n' memberInv_network0 Hall) as Hmember.
  destruct (Hwdone Hwdone') as [Hempty Hseen].
  split_and!; [done | by apply Forall_app | done | done | | | | |].
  - intros ch a pc Hd. destruct pc; [| | done].
    + apply Hdog in Hd; [| done]. by rewrite Hempty, lookup_empty in Hd.
    + apply Hdog in Hd; [| done]. by rewrite Hempty, lookup_empty in Hd.
  - by apply Hws.
  - by apply Hxt.
  - by apply Hxr.
  - apply set_eq. intros k. split; [| by intros ?%not_elem_of_empty].
    intros Hk. destruct (Hmember k Hk) as [[ch Hch] | (a & Hpc & _)].
    + by rewrite Hempty, lookup_empty in Hch.
    + by rewrite Hwdone' in Hpc.
Qed.


(** ** The goroutines of a peer *)

Lemma stepRunning_watching g n a :
  match a with
  | SeenClosedObserved =>
      stepRunning g n a = withWatching n <$> watchingSeenClosed (watchingOf n)
  | FeedHandoff =>
      stepRunning g n a = withWatching n <$> watchingFeed (watchingOf n)
  | TimerFires ch =>
      stepRunning g n a = withWatching n <$> watchingTimer ch (watchingOf n)
  | InnerTimeoutHandoff ch =>
      stepRunning g n a = withWatching n <$> watchingInner ch (watchingOf n)
  | _ => True
  end.
Proof.
  destruct n as [c [wpc wp ws] ds xs xt xr].
  destruct a; try done.
  all: unfold stepRunning, watchingSeenClosed, watchingFeed, watchingTimer,
         watchingInner, watchingOf, withWatching; simpl.
  all: rewrite ?watcherLoop_eq.
  all: repeat (case_match; simplify_eq/=; try done).
Qed.

Lemma stepRunning_handoffs g n n' :
  (stepRunning g n SeenHandoff = Some n' →
   ∃ order req r, core_pc (core n) = CoreSendSeen order req r
                  ∧ watchingSeen (from req) (watchingOf n) = Some (watchingOf n'))
  ∧ (stepRunning g n TimeoutHandoff = Some n' →
     ∃ a, watchingTimeout (watchingOf n) = Some (a, watchingOf n')).
Proof.
  destruct n as [[cpc cs ct cr] [wpc wp ws] ds xs xt xr].
  unfold stepRunning, watchingSeen, watchingTimeout, watchingOf. simpl.
  split; intros Hstep.
  - destruct cpc; try done. destruct wpc, ws, xs; try done.
    exists order, req, r. split; [done |]. simpl.
    destruct (wp !! addrKey (from req)); by injection Hstep as <-.
  - destruct wpc; try done. destruct cpc; try done.
    destruct ct, xt; try done. exists a.
    rewrite watcherLoop_eq, ?coreLoop_eq in Hstep. rewrite watcherLoop_eq.
    simpl in *. by injection Hstep as <-.
Qed.

Lemma peerLoop_eq p t r b :
  peerLoop p t r b
  = (mkPeerCore (if t || r then PeerSelect else PeerDone) p t r b,
     negb (t || r)).
Proof. unfold peerLoop. by destruct (t || r). Qed.

Lemma peerStep_Panicked g srv p i es :
  peerStep g srv p i = Panicked es → es = [].
Proof.
  destruct i as [order | a | visits | req]; simpl; try done.
  unfold peerOnRequest.
  destruct (decodePeerRequest g (buffer req)) as [| | r]; try done.
  - by intros [= <-].
  - by destruct (updatePeer r p (from req)).
Qed.

Lemma sendsOf_app es1 es2 : sendsOf (es1 ++ es2) = sendsOf es1 ++ sendsOf es2.
Proof. unfold sendsOf. by rewrite omap_app. Qed.

Lemma peerSends_spec es p t r b :
  peer_p (peerSends es p t r b).1 = p
  ∧ peer_pc (peerSends es p t r b).1 ≠ PeerPanicked
  ∧ match peer_pc (peerSends es p t r b).1 with
    | PeerSending es' => es'
    | PeerRangeSending r' _ => [SendResponse r']
    | _ => []
    end = es
  ∧ match peer_pc (peerSends es p t r b).1 with
    | PeerCopying _ | PeerRangeSending _ _ => False
    | _ => True
    end.
Proof.
  destruct es as [| e es]; simpl.
  - rewrite peerLoop_eq. simpl. by destruct (t || r).
  - done.
Qed.

Lemma peerRange_spec todo p t r b :
  peer_p (peerRange todo p t r b).1 = p
  ∧ peer_pc (peerRange todo p t r b).1 ≠ PeerPanicked
  ∧ match peer_pc (peerRange todo p t r b).1 with
    | PeerSending es' => es'
    | PeerRangeSending r' _ => [SendResponse r']
    | _ => []
    end = [].
Proof.
  destruct todo as [| k todo]; simpl.
  - rewrite peerLoop_eq. simpl. by destruct (t || r).
  - done.
Qed.

Lemma run_snoc {S I : Type} (step : S → I → result S) s ins i :
  run step s (ins ++ [i])
  = match run step s ins with
    | Next s' es =>
        match step s' i with
        | Next s'' e1 => Next s'' (es ++ e1)
        | Panicked e1 => Panicked (es ++ e1)
        end
    | Panicked es => Panicked es
    end.
Proof.
  revert s. induction ins as [| j ins IH]; intros s.
  - simpl. destruct (step s i); simpl; by rewrite ?app_nil_r.
  - simpl. destruct (step s j) as [s1 e0 |]; [| done].
    rewrite IH. destruct (run step s1 ins) as [s2 e2 |]; [| done].
    destruct (step s2 i); by rewrite app_assoc.
Qed.

Lemma peerOnBroadcast_snoc srv p visits v :
  peerOnBroadcast srv p (visits ++ [v])
  = peerOnBroadcast srv p visits
    ++ [SendResponse (broadcastTo srv p (copy (make (length (snd v))) (snd v))
                        (fst v))].
Proof. unfold peerOnBroadcast. by rewrite map_app. Qed.

Lemma sendsOf_peerOnBroadcast srv p visits :
  sendsOf (peerOnBroadcast srv p visits) = peerOnBroadcast srv p visits.
Proof.
  unfold peerOnBroadcast. induction visits as [| v visits IH]; [done |].
  cbn [map]. unfold sendsOf in *. cbn [omap list_omap]. by rewrite IH.
Qed.

Lemma peerNetStep_refines g srv n a n1 ins sent :
  peerNetStep g srv n a = Some n1 →
  peerRefines g srv n ins sent →
  peerRefines g srv n1 (peerInputsAfter n a ins)
              (sent ++ option_list (peerSentOf n a)).
Proof.
  unfold peerRefines, meshPeer, pendingSends, peerSentOf, peerInputsAfter.
  intros Hstep [Hrun Hrange].
  destruct n as [[cpc p ct cr cb] w xo buf]. simpl in *.
  unfold peerNetStep in Hstep. simpl in Hstep.
  destruct (run (peerStep g srv) peer0 (reverse ins)) as [p0 es |] eqn:Hins;
    last first.
  { destruct Hrun as [-> _]. done. }
  destruct Hrun as (Hpc & <- & Hsends).
  destruct a; simpl in Hstep.
  - (* PeerTakes *)
    destruct cpc; try done.
    destruct (match i with PeerTick _ => true | PeerTimeout _ => false
              | PeerBroadcast _ => false | PeerRequest _ => cr end); [| done].
    unfold peerTakes in Hstep. simpl in Hstep.
    rewrite reverse_cons, run_snoc, Hins.
    destruct (peerStep g srv p i) as [p' e1 | e1] eqn:Hone.
    + pose proof (peerSends_spec (sendsOf e1) p' ct cr cb)
        as (Hp & Hnp & Hpending & Hnr).
      destruct (peerSends (sendsOf e1) p' ct cr cb) as [c' closed].
      injection Hstep as <-. simpl in *. split.
      * split_and!; [done | done |].
        rewrite sendsOf_app, Hsends, Hpending, !app_nil_r. done.
      * by destruct (peer_pc c').
    + injection Hstep as <-. simpl. split; [| done]. split; [done |].
      rewrite (peerStep_Panicked _ _ _ _ _ Hone), !app_nil_r in *.
      by rewrite Hsends.
  - (* PeerRequestsClosed *)
    destruct cpc; try done. destruct cr; [| done].
    rewrite peerLoop_eq in Hstep. simpl in Hstep. injection Hstep as <-.
    simpl. rewrite Hins. rewrite ?app_nil_r in *.
    destruct ct; simpl; rewrite ?app_nil_r; by split_and!.
  - (* PeerBroadcastHandoff *)
    destruct cpc; try done. destruct cb; [| done].
    pose proof (peerRange_spec order p ct cr true) as (Hp & Hnp & Hpending).
    destruct (peerRange order p ct cr true) as [c' closed] eqn:Hrange'.
    injection Hstep as <-. simpl in *.
    rewrite reverse_cons, run_snoc, Hins. simpl. split.
    + split_and!; [done | done |].
      rewrite Hpending, !app_nil_r in *. done.
    + destruct (peer_pc c'); try done; by eexists _, _.
  - (* PeerBroadcastClosed *)
    destruct cpc; try done. destruct cb; [| done].
    rewrite peerLoop_eq in Hstep. simpl in Hstep. injection Hstep as <-.
    simpl. rewrite Hins. rewrite ?app_nil_r in *.
    destruct (ct || cr); simpl; rewrite ?app_nil_r; by split_and!.
  - (* PeerAppWrites *)
    destruct cpc; try done; injection Hstep as <-; simpl; rewrite Hins.
    all: rewrite app_nil_r; by split_and!.
  - (* PeerCopies *)
    destruct cpc as [| | [| addr todo] | | |]; try done.
    injection Hstep as <-. simpl.
    destruct Hrange as (visits & rest & ->).
    rewrite reverse_cons, run_snoc in Hins.
    rewrite reverse_cons, run_snoc.
    destruct (run (peerStep g srv) peer0 (reverse rest)) as [q e0 |];
      [| done].
    simpl in Hins. injection Hins as <- <-. simpl. split.
    + split_and!; [done | done |].
      rewrite peerOnBroadcast_snoc, app_assoc, sendsOf_app, Hsends.
      by rewrite !app_nil_r.
    + by eexists _, _.
  - (* PeerSeenHandoff *)
    destruct cpc as [| [| [] es'] | | | |]; try done.
    destruct (watchingSeen a w); [| done].
    pose proof (peerSends_spec es' p ct cr cb) as (Hp & Hnp & Hpending & Hnr).
    destruct (peerSends es' p ct cr cb) as [c' closed].
    injection Hstep as <-. simpl in *. rewrite Hins. split.
    + split_and!; [done | done |].
      rewrite Hsends, Hpending, <- app_assoc. done.
    + by destruct (peer_pc c').
  - (* PeerSeenClosedObserved *)
    destruct (watchingSeenClosed w); [| by destruct cpc].
    destruct cpc; try done; injection Hstep as <-; simpl; rewrite Hins.
    all: rewrite app_nil_r; by split_and!.
  - destruct (watchingFeed w); [| by destruct cpc].
    destruct cpc; try done; injection Hstep as <-; simpl; rewrite Hins.
    all: rewrite app_nil_r; by split_and!.
  - destruct (watchingTimer ch w); [| by destruct cpc].
    destruct cpc; try done; injection Hstep as <-; simpl; rewrite Hins.
    all: rewrite app_nil_r; by split_and!.
  - destruct (watchingInner ch w); [| by destruct cpc].
    destruct cpc; try done; injection Hstep as <-; simpl; rewrite Hins.
    all: rewrite app_nil_r; by split_and!.
  - (* PeerTimeoutHandoff *)
    destruct cpc; try done. destruct ct; [| done].
    unfold watchingTimeout in Hstep.
    destruct (watcher_pc (w_state w)) eqn:Hwpc; try done.
    destruct (w_closed_timeout w); [done |].
    rewrite watcherLoop_eq in Hstep. unfold peerTakes in Hstep.
    simpl in Hstep. rewrite ?peerLoop_eq in Hstep. simpl in Hstep.
    injection Hstep as <-. simpl.
    rewrite reverse_cons, run_snoc, Hins. simpl. split; [| done].
    split_and!; [done | done |]. rewrite sendsOf_app, Hsends. simpl.
    by rewrite !app_nil_r.
  - (* PeerTimeoutClosedObserved *)
    destruct cpc; try done. destruct ct; [| done].
    destruct (w_closed_timeout w); [| done].
    rewrite peerLoop_eq in Hstep. simpl in Hstep. injection Hstep as <-.
    simpl. rewrite Hins. rewrite ?app_nil_r in *.
    destruct cr; simpl; rewrite ?app_nil_r; by split_and!.
  - (* PeerReplyHandoff *)
    destruct cpc as [| [| [] es'] | | r' todo | |]; try done.
    + pose proof (peerSends_spec es' p ct cr cb) as (Hp & Hnp & Hpending & Hnr).
      destruct (peerSends es' p ct cr cb) as [c' closed].
      injection Hstep as <-. simpl in *. rewrite Hins. split.
      * split_and!; [done | done |].
        rewrite Hsends, Hpending, <- app_assoc. done.
      * by destruct (peer_pc c').
    + pose proof (peerRange_spec todo p ct cr cb) as (Hp & Hnp & Hpending).
      destruct (peerRange todo p ct cr cb) as [c' closed] eqn:Hrange'.
      injection Hstep as <-. simpl in *. rewrite Hins. split.
      * split_and!; [done | done |].
        rewrite Hsends, Hpending, app_nil_r. done.
      * by destruct (peer_pc c').
  - (* PeerDataHandoff *)
    destruct cpc as [| [| [] es'] | | | |]; try done.
    pose proof (peerSends_spec es' p ct cr cb) as (Hp & Hnp & Hpending & Hnr).
    destruct (peerSends es' p ct cr cb) as [c' closed].
    injection Hstep as <-. simpl in *. rewrite Hins. split.
    + split_and!; [done | done |].
      rewrite Hsends, Hpending, <- app_assoc. done.
    + by destruct (peer_pc c').
Qed.

Lemma peerExec_trace_refines g srv acts n n' ins sent :
  peerExec g srv n acts = Some n' →
  peerRefines g srv n ins sent →
  peerRefines g srv n' (peerTrace g srv n acts ins sent).1
              (peerTrace g srv n acts ins sent).2.
Proof.
  revert n ins sent. induction acts as [| a acts IH]; intros n ins sent Hexec H.
  - by injection Hexec as <-.
  - simpl in *. destruct (peerNetStep g srv n a) as [n1 |] eqn:Hstep; [| done].
    apply (IH n1); [done |]. by apply peerNetStep_refines.
Qed.

Lemma peerRefines_peerNetwork0 g srv : peerRefines g srv peerNetwork0 [] [].
Proof. by split. Qed.

(** X25.  The goroutines of a peer do what the loop of [meshPeer] does
    on the inputs in the order in which the core takes them, a
    broadcast being the rounds the core has made for it, each with what
    the buffer of the application held when the core copied it:
    whatever the schedule, and whatever the application writes into its
    buffer meanwhile, the state of the peer is that of the loop, the
    sends the core has completed (on [responses], [p.seenPeerAlive] and
    [data]) followed by those of the iteration it is in are the sends
    of the loop, and the core has panicked exactly when the loop has. *)
Theorem peerNetwork_refines_meshPeer (g : gob) (serverAddressUdp : UDPAddr)
    (acts : list peerAction) (n : peerNetwork) :
  peerExec g serverAddressUdp peerNetwork0 acts = Some n →
  match meshPeer g serverAddressUdp
          (peerInputsOf g serverAddressUdp peerNetwork0 acts) with
  | Next p es =>
      peer_pc (pn_core n) ≠ PeerPanicked
      ∧ peer_p (pn_core n) = p
      ∧ sendsOf es
        = peerSentsOf g serverAddressUdp peerNetwork0 acts ++ pendingSends n
  | Panicked es =>
      peer_pc (pn_core n) = PeerPanicked
      ∧ sendsOf es = peerSentsOf g serverAddressUdp peerNetwork0 acts
  end.
Proof.
  intros Hexec.
  exact (proj1 (peerExec_trace_refines g serverAddressUdp acts peerNetwork0 n
                  [] [] Hexec (peerRefines_peerNetwork0 g serverAddressUdp))).
Qed.

Lemma peerExec_panicked g srv acts n n' :
  peer_pc (pn_core n) = PeerPanicked → peerExec g srv n acts = Some n' →
  acts = [] ∧ n' = n.
Proof.
  intros Hpc Hexec. destruct acts as [| a acts].
  - by injection Hexec as <-.
  - simpl in Hexec. unfold peerNetStep in Hexec. by rewrite Hpc in Hexec.
Qed.

Lemma peerNetStep_blocked g srv n a n' :
  peerAtSeen n → peerWatcherAtTimeout n → peerNetStep g srv n a = Some n' →
  pn_core n' = pn_core n
  ∧ w_state (pn_watching n') = w_state (pn_watching n)
  ∧ pn_closed_out n' = pn_closed_out n
  ∧ isPeerTimerFires a.
Proof.
  unfold peerAtSeen, peerWatcherAtTimeout. intros Hc Hw Hstep.
  destruct n as [[cpc p ct cr cb] [[wpc wp ws] ds xs xt] xo buf]. simpl in *.
  destruct cpc as [| [| [] es] | | | |]; try done. destruct wpc; try done.
  destruct a; unfold peerNetStep, peerStepRunning, watchingSeen,
    watchingSeenClosed, watchingFeed, watchingTimer, watchingInner,
    watchingTimeout in Hstep; simpl in Hstep; try done.
  all: repeat (case_match; simplify_eq/=; try done).
Qed.

Lemma peerExec_blocked g srv acts n n' :
  peerAtSeen n → peerWatcherAtTimeout n → peerExec g srv n acts = Some n' →
  pn_core n' = pn_core n
  ∧ w_state (pn_watching n') = w_state (pn_watching n)
  ∧ pn_closed_out n' = pn_closed_out n
  ∧ Forall isPeerTimerFires acts.
Proof.
  revert n. induction acts as [| a acts IH]; intros n Hc Hw Hexec.
  - injection Hexec as <-. by split_and!.
  - simpl in Hexec.
    destruct (peerNetStep g srv n a) as [n1 |] eqn:Hstep; [| done].
    destruct (peerNetStep_blocked _ _ _ _ _ Hc Hw Hstep) as (Hc1 & Hw1 & Hx1 & Ha).
    destruct (IH n1) as (Hc2 & Hw2 & Hx2 & Hacts); [| | done |].
    + unfold peerAtSeen. by rewrite Hc1.
    + unfold peerWatcherAtTimeout. by rewrite Hw1.
    + split_and!; [congruence | congruence | congruence | by constructor].
Qed.

(** X26.  The core of a peer and its watcher can block each other for
    good.  When the watchdog of an alive peer times out and the core
    takes the next [isAlive] before it takes the timeout, the core waits
    at [p.seenPeerAlive <- from] and the watcher at [timeout <- a]: from
    then on neither moves again, whatever the schedule; only timers of
    other watchdogs still fire.  The peer takes no further tick,
    broadcast or datagram, the timed-out key stays alive, and [data] and
    [responses] are never closed. *)
Theorem peer_core_and_watcher_block_each_other (g : gob)
    (serverAddressUdp : UDPAddr) (req1 req2 : request) :
  decodePeerRequest g (buffer req1) = Decoded peerRequest_isAlive →
  decodePeerRequest g (buffer req2) = Decoded peerRequest_isAlive →
  ∃ n, peerExec g serverAddressUdp peerNetwork0
         (peerTimeoutDuringIsAlive req1 req2) = Some n
       ∧ peer_pc (pn_core n) = PeerSending [SendSeen (from req2)]
       ∧ watcher_pc (w_state (pn_watching n)) = WatcherSendTimeout (from req1)
       ∧ addrKey (from req1) ∈ alivePeers (peer_p (pn_core n))
       ∧ ∀ more n', peerExec g serverAddressUdp n more = Some n' →
                    pn_core n' = pn_core n
                    ∧ w_state (pn_watching n') = w_state (pn_watching n)
                    ∧ pn_closed_out n' = false
                    ∧ Forall isPeerTimerFires more.
Proof.
  intros H1 H2.
  assert (∃ n, peerExec g serverAddressUdp peerNetwork0
                 (peerTimeoutDuringIsAlive req1 req2) = Some n
               ∧ peer_pc (pn_core n) = PeerSending [SendSeen (from req2)]
               ∧ watcher_pc (w_state (pn_watching n))
                 = WatcherSendTimeout (from req1)
               ∧ addrKey (from req1) ∈ alivePeers (peer_p (pn_core n))
               ∧ pn_closed_out n = false) as (n & Hexec & Hc & Hw & Hk & Hx).
  { eexists. split_and!.
    - unfold peerTimeoutDuringIsAlive, peerExec, peerNetStep, peerStepRunning,
        peerTakes, peerStep, peerOnRequest, watchingSeen, watchingFeed,
        watchingTimer, watchingInner.
      cbn -[addrKey]. rewrite H1. cbn -[addrKey]. rewrite lookup_empty.
      cbn -[addrKey]. rewrite H2. cbn -[addrKey]. done.
    - done.
    - done.
    - cbn -[addrKey]. set_solver.
    - done. }
  exists n. split_and!; [done | done | done | done |].
  intros more n' Hmore.
  assert (peerAtSeen n) as Hcs by (unfold peerAtSeen; by rewrite Hc).
  assert (peerWatcherAtTimeout n) as Hwt
    by (unfold peerWatcherAtTimeout; by rewrite Hw).
  destruct (peerExec_blocked g serverAddressUdp more n n' Hcs Hwt Hmore)
    as (Hc' & Hw' & Hx' & Hacts).
  split_and!; [done | done | congruence | done].
Qed.

Lemma peerStep_revives_seen g srv k p i p' es :
  peerStep g srv p i = Next p' es → revives g k i →
  ∃ m, SendSeen m ∈ sendsOf es ∧ addrKey m = k.
Proof.
  destruct i as [order | a | visits | req]; simpl; try done.
  intros Hstep [Hdec Hkey]. unfold peerOnRequest in Hstep.
  rewrite Hdec in Hstep. simpl in Hstep. injection Hstep as _ <-.
  exists (from req). split; [| done]. simpl. apply list_elem_of_here.
Qed.

Ltac keep_alive Hinv k Hk :=
  destruct (Hinv k Hk) as [? | [? | (? & Hm & ?)]];
  [by left | by right; left | try (by apply elem_of_nil in Hm)].

Lemma peerNetStep_aliveInv g srv n a n' :
  aliveInv n → peerNetStep g srv n a = Some n' → aliveInv n'.
Proof.
  unfold aliveInv, pendingSends. intros Hinv Hstep.
  destruct n as [[cpc p ct cr cb] [[wpc wp ws] ds xs xt] xo buf]. simpl in *.
  unfold peerNetStep in Hstep. simpl in Hstep.
  destruct a; simpl in Hstep.
  - (* PeerTakes *)
    destruct cpc; try done.
    destruct (match i with PeerTick _ => true | PeerTimeout _ => false
              | PeerBroadcast _ => false | PeerRequest _ => cr end); [| done].
    unfold peerTakes in Hstep. simpl in Hstep.
    destruct (peerStep g srv p i) as [p' es | es] eqn:Hone.
    + pose proof (peerSends_spec (sendsOf es) p' ct cr cb)
        as (Hp & _ & Hpending & _).
      destruct (peerSends (sendsOf es) p' ct cr cb) as [c' closed].
      injection Hstep as <-. simpl in *. intros k Hk. rewrite Hp in Hk.
      apply (peerStep_alive g srv k _ _ _ _ Hone) in Hk as [Hrev | [Hk _]].
      * right. right. rewrite Hpending.
        by apply (peerStep_revives_seen g srv k _ _ _ _ Hone).
      * keep_alive Hinv k Hk.
    + injection Hstep as <-. simpl. intros k Hk. keep_alive Hinv k Hk.
  - (* PeerRequestsClosed *)
    destruct cpc; try done. destruct cr; [| done].
    rewrite peerLoop_eq in Hstep. simpl in Hstep. injection Hstep as <-. simpl.
    intros k Hk. destruct ct; simpl; keep_alive Hinv k Hk.
  - (* PeerBroadcastHandoff *)
    destruct cpc; try done. destruct cb; [| done].
    pose proof (peerRange_spec order p ct cr true) as (Hp & _ & Hpending).
    destruct (peerRange order p ct cr true) as [c' closed].
    injection Hstep as <-. simpl in *. rewrite Hp, Hpending.
    intros k Hk. keep_alive Hinv k Hk.
  - (* PeerBroadcastClosed *)
    destruct cpc; try done. destruct cb; [| done].
    rewrite peerLoop_eq in Hstep. simpl in Hstep. injection Hstep as <-. simpl.
    intros k Hk. destruct (ct || cr); simpl; keep_alive Hinv k Hk.
  - (* PeerAppWrites *)
    destruct cpc; try done; injection Hstep as <-; simpl; done.
  - (* PeerCopies *)
    destruct cpc as [| | [| addr todo] | | |]; try done.
    injection Hstep as <-. simpl. intros k Hk. keep_alive Hinv k Hk.
  - (* PeerSeenHandoff *)
    destruct cpc as [| [| [] es] | | | |]; try done.
    unfold watchingSeen in Hstep. simpl in Hstep.
    destruct wpc; try done. destruct ws; [| done]. destruct xs; [done |].
    pose proof (peerSends_spec es p ct cr cb) as (Hp & _ & Hpending & _).
    destruct (peerSends es p ct cr cb) as [c' closed].
    simpl in *. intros k Hk.
    assert (k ∈ alivePeers p) as Hk' by (destruct (wp !! addrKey a);
      injection Hstep as <-; simpl in *; by rewrite Hp in Hk).
    assert (is_Some (wp !! k) ∨ addrKey a = k
            ∨ ∃ m, SendSeen m ∈ es ∧ addrKey m = k) as Hcases.
    { destruct (Hinv k Hk') as [? | [(? & [=] & _) | (m & Hm & Hkey)]];
        [by left |].
      apply elem_of_cons in Hm as [[= <-] | Hm]; [by right; left |].
      right. right. by exists m. }
    destruct (wp !! addrKey a) as [feed |] eqn:Hfeed;
      injection Hstep as <-; simpl in *; rewrite Hpending.
    + destruct Hcases as [? | [<- | ?]].
      * by left.
      * left. rewrite Hfeed. by eexists.
      * by right; right.
    + destruct Hcases as [? | [<- | ?]]; [| | by right; right].
      * left. apply lookup_insert_is_Some'. by right.
      * left. apply lookup_insert_is_Some'. by left.
  - (* PeerSeenClosedObserved *)
    unfold watchingSeenClosed in Hstep. simpl in Hstep.
    destruct wpc, ws, xs; simpl in Hstep; try (by destruct cpc).
    rewrite watcherLoop_eq in Hstep. simpl in Hstep.
    destruct cpc; try done; injection Hstep as <-; simpl.
    all: intros k Hk; destruct (Hinv k Hk) as [? | [(? & [=] & _) | ?]];
      [by left | by right; right].
  - (* PeerFeedHandoff *)
    unfold watchingFeed in Hstep. simpl in Hstep.
    destruct wpc; try (by destruct cpc).
    destruct (ds !! ch) as [[? []] |]; simpl in Hstep; try (by destruct cpc).
    rewrite watcherLoop_eq in Hstep. simpl in Hstep.
    destruct cpc; try done; injection Hstep as <-; simpl.
    all: intros k Hk; destruct (Hinv k Hk) as [? | [(? & [=] & _) | ?]];
      [by left | by right; right].
  - (* PeerTimerFires *)
    unfold watchingTimer in Hstep. simpl in Hstep.
    destruct (ds !! ch) as [[? []] |]; simpl in Hstep; try (by destruct cpc).
    destruct cpc; try done; injection Hstep as <-; simpl; done.
  - (* PeerInnerTimeoutHandoff *)
    unfold watchingInner in Hstep. simpl in Hstep.
    destruct (ds !! ch) as [[addr []] |]; simpl in Hstep;
      try (by destruct cpc).
    destruct wpc, xt; simpl in Hstep; try (by destruct cpc).
    destruct cpc; try done; injection Hstep as <-; simpl.
    all: intros k Hk; destruct (Hinv k Hk) as [? | [(? & [=] & _) | ?]];
      [| by right; right].
    all: destruct (decide (addrKey addr = k));
      [right; left; by exists addr | left; by rewrite lookup_delete_is_Some].
  - (* PeerTimeoutHandoff *)
    destruct cpc; try done. destruct ct; [| done].
    unfold watchingTimeout in Hstep. simpl in Hstep.
    destruct wpc, xt; simpl in Hstep; try done.
    rewrite watcherLoop_eq in Hstep. simpl in Hstep.
    unfold peerTakes in Hstep. simpl in Hstep.
    injection Hstep as <-. simpl. intros k Hk.
    apply elem_of_difference in Hk as [Hk Hne].
    rewrite elem_of_singleton in Hne.
    destruct (Hinv k Hk) as [? | [(? & [= <-] & ?) | (? & Hm & _)]];
      [by left | done | by apply elem_of_nil in Hm].
  - (* PeerTimeoutClosedObserved *)
    destruct cpc; try done. destruct ct; [| done]. destruct xt; [| done].
    rewrite peerLoop_eq in Hstep. simpl in Hstep. injection Hstep as <-. simpl.
    intros k Hk. destruct cr; simpl; keep_alive Hinv k Hk.
  - (* PeerReplyHandoff *)
    destruct cpc as [| [| [] es] | | r' todo | |]; try done.
    + pose proof (peerSends_spec es p ct cr cb) as (Hp & _ & Hpending & _).
      destruct (peerSends es p ct cr cb) as [c' closed].
      injection Hstep as <-. simpl in *. rewrite Hpending, Hp.
      intros k Hk. destruct (Hinv k Hk) as [? | [? | (m & Hm & ?)]];
        [by left | by right; left |].
      apply elem_of_cons in Hm as [[=] | Hm]. right. right. by exists m.
    + pose proof (peerRange_spec todo p ct cr cb) as (Hp & _ & Hpending).
      destruct (peerRange todo p ct cr cb) as [c' closed].
      injection Hstep as <-. simpl in *. rewrite Hpending, Hp.
      intros k Hk. destruct (Hinv k Hk) as [? | [? | (m & Hm & ?)]];
        [by left | by right; left |].
      by apply list_elem_of_singleton in Hm.
  - destruct cpc as [| [| [] es] | | | |]; try done.
    pose proof (peerSends_spec es p ct cr cb) as (Hp & _ & Hpending & _).
    destruct (peerSends es p ct cr cb) as [c' closed].
    injection Hstep as <-. simpl in *. rewrite Hpending, Hp.
    intros k Hk. destruct (Hinv k Hk) as [? | [? | (m & Hm & ?)]];
      [by left | by right; left |].
    apply elem_of_cons in Hm as [[=] | Hm]. right. right. by exists m.
Qed.

Lemma peerExec_aliveInv g srv acts n n' :
  aliveInv n → peerExec g srv n acts = Some n' → aliveInv n'.
Proof.
  revert n. induction acts as [| a acts IH]; intros n Hinv Hexec.
  - by injection Hexec as <-.
  - simpl in Hexec.
    destruct (peerNetStep g srv n a) as [n1 |] eqn:Hstep; [| done].
    eapply IH; [| done]. by eapply peerNetStep_aliveInv.
Qed.

(** X27.  Whatever the schedule, every key the peer holds alive has a
    watchdog in the map of the watcher, but for a key whose timeout the
    watcher is handing to the core at that moment and a key whose
    sender the core has still to hand to the watcher. *)
Theorem peer_alive_are_watched (g : gob) (serverAddressUdp : UDPAddr)
    (acts : list peerAction) (n : peerNetwork) (k : address) :
  peerExec g serverAddressUdp peerNetwork0 acts = Some n →
  k ∈ alivePeers (peer_p (pn_core n)) →
  is_Some (watcher_peers (w_state (pn_watching n)) !! k)
  ∨ (∃ a, watcher_pc (w_state (pn_watching n)) = WatcherSendTimeout a
          ∧ addrKey a = k)
  ∨ (∃ m, SendSeen m ∈ pendingSends n ∧ addrKey m = k).
Proof.
  intros Hexec.
  apply (peerExec_aliveInv g serverAddressUdp acts peerNetwork0 n); [| done].
  intros k' Hk'. simpl in Hk'. by apply not_elem_of_empty in Hk'.
Qed.

(** ** Instances of the properties above *)

Lemma writer_datagrams_in_order_witness :
  snd (writer tagCodec (λ _ _, false)
         [ {| to := Some endpointP1; m := keepAlive |};
           {| to := None; m := isAlive |} ]) = true.
Proof.
  refine (proj1 (writer_datagrams_in_order tagCodec (λ _ _, false) _ _
                   tagCodec_round_trip)).
  constructor; [by right | constructor; [by left | constructor]].
Defined.

Lemma server_member_iff_joined_since_timeout_witness :
  ∃ s' es,
    run (serverStep tagCodec) server0
        [ServerRequest [keyP1] (datagram endpointP1 getPeerList)]
    = Next s' es
    ∧ keyP1 ∈ peers s'.
Proof.
  destruct (run (serverStep tagCodec) server0
              [ServerRequest [keyP1] (datagram endpointP1 getPeerList)])
    as [s' es | es] eqn:Hrun; [| by vm_compute in Hrun].
  exists s', es. split; [done |].
  apply (server_member_iff_joined_since_timeout tagCodec keyP1 server0 s' _ es
           Hrun).
  left. exists [], (ServerRequest [keyP1] (datagram endpointP1 getPeerList)), [].
  split_and!; [done | split; by vm_compute | constructor].
Defined.

Lemma peer_alive_iff_seen_since_timeout_witness :
  ∃ p' es,
    run (peerStep tagCodec endpointS) peer0
        [PeerRequest (datagram endpointP1 isAlive)]
    = Next p' es
    ∧ keyP1 ∈ alivePeers p'.
Proof.
  destruct (run (peerStep tagCodec endpointS) peer0
              [PeerRequest (datagram endpointP1 isAlive)])
    as [p' es | es] eqn:Hrun; [| by vm_compute in Hrun].
  exists p', es. split; [done |].
  apply (peer_alive_iff_seen_since_timeout tagCodec endpointS keyP1 peer0 p' _
           es Hrun).
  left. exists [], (PeerRequest (datagram endpointP1 isAlive)), [].
  split_and!; [done | split; by vm_compute | constructor].
Defined.

Lemma peerList_of_known_addresses_witness :
  nextPeerId (peerList_updatePeer [keyP1] peerP1P2) = nextPeerId peerP1P2.
Proof.
  assert (∀ a, a ∈ [keyP1] → is_Some (peerIds peerP1P2 !! a)) as Hknown.
  { intros a Ha. apply list_elem_of_singleton in Ha as ->.
    apply (bool_decide_unpack _). by vm_compute. }
  pose proof (peerList_of_known_addresses [keyP1] peerP1P2 Hknown) as H.
  cbv zeta in H. exact (proj1 H).
Defined.

Lemma peerList_allocates_in_order_witness :
  nextPeerId (peerList_updatePeer [keyP2; keyP1] peer0)
  = nextPeerId peer0 + Z.of_nat (unknownIn peer0 [keyP2; keyP1]).
Proof.
  assert (- 2 ^ 63 <= nextPeerId peer0) as Hlo by by vm_compute.
  assert (nextPeerId peer0 + Z.of_nat (length [keyP2; keyP1]) < 2 ^ 63) as Hhi
    by by vm_compute.
  pose proof (peerList_allocates_in_order [keyP2; keyP1] peer0 Hlo Hhi) as H.
  cbv zeta in H. exact (proj1 H).
Defined.

Lemma peerList_returning_address_gets_new_id_witness :
  peerIds (peerList_updatePeer []
             {| peerIds := {[keyP1 := 0]}; nextPeerId := 1; alivePeers := ∅ |})
  !! keyP1 = None.
Proof.
  assert (meshPeer tagCodec endpointS [PeerRequest datagramListP1]
          = Next {| peerIds := {[keyP1 := 0]}; nextPeerId := 1; alivePeers := ∅ |} [])
    as Hrun by by vm_compute.
  assert (Z.of_nat (announced tagCodec [PeerRequest datagramListP1]
                    + length (@nil address) + length [keyP1]) < 2 ^ 63)
    as Hhi by by vm_compute.
  assert (peerIds {| peerIds := {[keyP1 := 0]}; nextPeerId := 1; alivePeers := ∅ |}
          !! keyP1 = Some 0) as Hid by by vm_compute.
  assert (keyP1 ∉ @nil address) as HA by apply not_elem_of_nil.
  assert (keyP1 ∈ [keyP1]) as HB by apply list_elem_of_here.
  exact (proj1 (peerList_returning_address_gets_new_id tagCodec endpointS _ _ _
                  [] [keyP1] keyP1 0 Hrun Hhi Hid HA HB)).
Defined.

Lemma addrFromKey_normal_form_witness :
  ∃ e', addrFromKey (addrKey endpointP1) = Some e'
        ∧ addrKey e' = addrKey endpointP1.
Proof.
  assert (legalKey keyP1) as H1 by (apply (bool_decide_unpack _); by vm_compute).
  assert (legalKey keyP2) as H2 by (apply (bool_decide_unpack _); by vm_compute).
  assert (Forall isByte (IP endpointP1)) as H3
    by (apply (bool_decide_unpack _); by vm_compute).
  destruct (addrFromKey_normal_form keyP1 keyP2 endpointP1 H1 H2 H3)
    as (_ & _ & H & _).
  exact H.
Defined.

Lemma server_sends_only_peer_requests_witness :
  ∃ s' es,
    run (serverStep tagCodec) serverP1P2
        [ServerRequest [keyP1; keyP2]
           (datagram endpointP1 (dataRelayTo keyP2 [7]))]
    = Next s' es
    ∧ dataOf es = [].
Proof.
  destruct (run (serverStep tagCodec) serverP1P2
              [ServerRequest [keyP1; keyP2]
                 (datagram endpointP1 (dataRelayTo keyP2 [7]))])
    as [s' es | es] eqn:Hrun; [| by vm_compute in Hrun].
  exists s', es. split; [done |].
  destruct (server_sends_only_peer_requests tagCodec serverP1P2 s' _ es Hrun)
    as (_ & H & _).
  exact H.
Defined.

Lemma peer_sends_server_requests_to_server_witness :
  ∃ p' es,
    run (peerStep tagCodec endpointS) peerP1P2
        [PeerBroadcast [(keyP1, [7]); (keyP2, [7])]]
    = Next p' es
    ∧ Forall (λ r : response,
                sentByPeer (m r)
                ∧ (is_Some (asServerRequest (m r)) → to r = Some endpointS))
             (responsesOf es).
Proof.
  destruct (run (peerStep tagCodec endpointS) peerP1P2
              [PeerBroadcast [(keyP1, [7]); (keyP2, [7])]])
    as [p' es | es] eqn:Hrun; [| by vm_compute in Hrun].
  exists p', es. split; [done |].
  exact (peer_sends_server_requests_to_server tagCodec endpointS peerP1P2 p' _
           es Hrun).
Defined.

Lemma relay_end_to_end_witness :
  SendResponse {| to := Some endpointS; m := dataRelayTo keyP2 [7] |}
  ∈ peerOnBroadcast endpointS peerP1P2 [(keyP1, [7]); (keyP2, [7])].
Proof.
  assert (legalKey keyP2) as Hk by (apply (bool_decide_unpack _); by vm_compute).
  assert ((keyP2, [7]) ∈ [(keyP1, [7]); (keyP2, [7])]) as Hin
    by (apply list_elem_of_further, list_elem_of_here).
  assert (keyP2 ∉ alivePeers peerP1P2) as Hdead
    by (apply (bool_decide_unpack _); by vm_compute).
  assert (keyP2 ∈ peers serverP1P2) as Hmember
    by (apply (bool_decide_unpack _); by vm_compute).
  assert (gobEncode tagCodec (dataRelayTo keyP2 [7])
          = Some (default [] (tagEncode (dataRelayTo keyP2 [7])))) as Hb1
    by by vm_compute.
  assert (gobEncode tagCodec (dataRelayedFrom (addrKey endpointP1) [7])
          = Some (default [] (tagEncode (dataRelayedFrom (addrKey endpointP1) [7]))))
    as Hb2 by by vm_compute.
  pose proof (relay_end_to_end tagCodec (λ _ _, false) (λ _ _, false)
                endpointS endpointP1 endpointS peerP1P2 peer0 serverP1P2
                [(keyP1, [7]); (keyP2, [7])] [keyP1; keyP2] keyP2 [7] _ _
                tagCodec_round_trip Hk Hin Hdead Hmember Hb1 Hb2) as H.
  cbv zeta in H. exact (proj1 H).
Defined.

Lemma direct_end_to_end_witness :
  peerOnRequest tagCodec peerP1P2
    {| from := endpointP2;
       buffer := default [] (tagEncode (dataDirect [7])) |}
  = Next peerP1P2
      (Log "dataDirect from"
       :: match peerIds peerP1P2 !! addrKey endpointP2 with
          | Some id => [SendData {| PeerId := id; Buf := [7] |}]
          | None => [Log "dataDirect from unknown Peer, ignoring it"]
          end).
Proof.
  assert (legalKey keyP1) as Hk by (apply (bool_decide_unpack _); by vm_compute).
  assert ((keyP1, [7]) ∈ [(keyP1, [7]); (keyP2, [7])]) as Hin
    by apply list_elem_of_here.
  assert (keyP1 ∈ alivePeers peerP1P2) as Halive
    by (apply (bool_decide_unpack _); by vm_compute).
  assert (gobEncode tagCodec (dataDirect [7])
          = Some (default [] (tagEncode (dataDirect [7])))) as Hb
    by by vm_compute.
  exact (proj2 (direct_end_to_end tagCodec (λ _ _, false) endpointS endpointP2
                  peerP1P2 peerP1P2 [(keyP1, [7]); (keyP2, [7])] keyP1 [7] _
                  tagCodec_round_trip Hk Hin Halive Hb)).
Defined.

Lemma watcher_one_watchdog_per_key_witness :
  ∃ n, exec tagCodec network0
         [RecvRequest [] (datagram endpointP1 getPeerList); SeenHandoff]
       = Some n
       ∧ ∀ ch a pc, dogs n !! ch = Some (a, pc) → liveDog pc →
                    watcher_peers (watcher n) !! addrKey a = Some ch.
Proof.
  destruct (exec tagCodec network0
              [RecvRequest [] (datagram endpointP1 getPeerList); SeenHandoff])
    as [n |] eqn:Hexec; [| by vm_compute in Hexec].
  exists n. split; [done |].
  destruct (watcher_one_watchdog_per_key tagCodec _ n Hexec) as (_ & H & _).
  exact H.
Defined.

Lemma server_channels_close_in_order_witness :
  ∃ n, exec tagCodec network0
         [RequestsClosed; SeenClosedObserved; TimeoutClosedObserved]
       = Some n
       ∧ (closed_responses n = true →
          closed_seen n = true ∧ closed_timeout n = true).
Proof.
  destruct (exec tagCodec network0
              [RequestsClosed; SeenClosedObserved; TimeoutClosedObserved])
    as [n |] eqn:Hexec; [| by vm_compute in Hexec].
  exists n. split; [done |].
  destruct (server_channels_close_in_order tagCodec _ n Hexec)
    as (_ & _ & _ & _ & _ & H).
  exact H.
Defined.

Lemma server_members_are_watched_witness :
  ∃ n, exec tagCodec network0
         [RecvRequest [] (datagram endpointP1 getPeerList); SeenHandoff]
       = Some n
       ∧ keyP1 ∈ peers (core_s (core n))
       ∧ is_Some (watcher_peers (watcher n) !! keyP1).
Proof.
  destruct (exec tagCodec network0
              [RecvRequest [] (datagram endpointP1 getPeerList); SeenHandoff])
    as [n |] eqn:Hexec; [| by vm_compute in Hexec].
  exists n.
  assert (keyP1 ∈ peers (core_s (core n))) as Hk.
  { vm_compute in Hexec. injection Hexec as <-.
    apply (bool_decide_unpack _). by vm_compute. }
  split_and!; [done | done |].
  destruct (server_members_are_watched tagCodec _ n keyP1 Hexec Hk)
    as [H | (a & Hpc & _)]; [done |].
  vm_compute in Hexec. injection Hexec as <-. by vm_compute in Hpc.
Defined.

Lemma core_and_watcher_block_each_other_witness :
  ∃ n, exec tagCodec network0
         (timeoutDuringRequest [] [keyP1]
            (datagram endpointP1 getPeerList)
            (datagram endpointP2 getPeerList))
       = Some n
       ∧ coreAtSeen n ∧ watcherAtTimeout n.
Proof.
  destruct (core_and_watcher_block_each_other tagCodec [] [keyP1]
              (datagram endpointP1 getPeerList)
              (datagram endpointP2 getPeerList)
              serverRequest_getPeerList eq_refl eq_refl)
    as (n & Hexec & Hc & Hw & _).
  exists n. unfold coreAtSeen, watcherAtTimeout. rewrite Hc, Hw. by split_and!.
Defined.

Lemma watcher_and_watchdog_block_each_other_witness :
  ∃ n, exec tagCodec network0
         (timerBeforeFeed [] [keyP1]
            (datagram endpointP1 getPeerList)
            (datagram endpointP1 getPeerList))
       = Some n
       ∧ watcherBlockedOnDog n 0 endpointP1.
Proof.
  destruct (watcher_and_watchdog_block_each_other tagCodec [] [keyP1]
              (datagram endpointP1 getPeerList)
              (datagram endpointP1 getPeerList)
              serverRequest_getPeerList eq_refl eq_refl eq_refl)
    as (n & Hexec & Hb & _).
  by exists n.
Defined.

Lemma network_refines_meshServer_witness :
  ∃ n, exec tagCodec network0
         [RecvRequest [] (datagram endpointP1 getPeerList); SeenHandoff;
          FeedHandoff; ReplyHandoff]
       = Some n
       ∧ core_s (core n) = {| peers := {[keyP1]} |}
       ∧ repliesOf tagCodec network0
           [RecvRequest [] (datagram endpointP1 getPeerList); SeenHandoff;
            FeedHandoff; ReplyHandoff]
         = [ {| to := Some endpointP1; m := peerList [] |} ].
Proof.
  destruct (exec tagCodec network0
              [RecvRequest [] (datagram endpointP1 getPeerList); SeenHandoff;
               FeedHandoff; ReplyHandoff])
    as [n |] eqn:Hexec; [| by vm_compute in Hexec].
  exists n. split; [done |].
  pose proof (network_refines_meshServer tagCodec _ n Hexec) as H.
  assert (meshServer tagCodec
            (inputsOf tagCodec network0
               [RecvRequest [] (datagram endpointP1 getPeerList); SeenHandoff;
                FeedHandoff; ReplyHandoff])
          = Next {| peers := {[keyP1]} |}
              [SendSeen endpointP1; Log "getPeerList from";
               SendResponse {| to := Some endpointP1; m := peerList [] |}])
    as Hrun by by vm_compute.
  rewrite Hrun in H. destruct H as (_ & Hs & Hrs). split; [done |].
  by vm_compute.
Defined.

Lemma discovery_end_to_end_witness :
  dom (peerIds (peerList_updatePeer
                  (filter (λ k, k ≠ addrKey endpointP1) [keyP2; keyP1]) peer0))
  = peers serverP1P2 ∖ {[addrKey endpointP1]}.
Proof.
  assert (rangeOrder ({[addrKey endpointP1]} ∪ peers serverP1P2) [keyP2; keyP1])
    as Horder.
  { unfold rangeOrder. vm_compute. first [reflexivity | apply Permutation_swap]. }
  assert (gobEncode tagCodec getPeerList
          = Some (default [] (tagEncode getPeerList))) as Hb1 by by vm_compute.
  assert (gobEncode tagCodec
            (peerList (filter (λ k, k ≠ addrKey endpointP1) [keyP2; keyP1]))
          = Some (default []
                    (tagEncode
                       (peerList
                          (filter (λ k, k ≠ addrKey endpointP1) [keyP2; keyP1])))))
    as Hb2 by by vm_compute.
  pose proof (discovery_end_to_end tagCodec endpointS endpointP1 endpointS peer0
                serverP1P2 [] [keyP2; keyP1] _ _ tagCodec_round_trip Horder
                Hb1 Hb2) as H.
  cbv zeta in H. destruct H as (_ & _ & _ & H & _). exact H.
Defined.

Lemma liveness_handshake_end_to_end_witness :
  SendResponse {| to := addrFromKey keyP2; m := keepAlive |}
  ∈ peerOnTick endpointS [keyP1; keyP2].
Proof.
  assert (keyP2 ∈ [keyP1; keyP2]) as Hin
    by (apply list_elem_of_further, list_elem_of_here).
  assert ((keyP2, [7]) ∈ [(keyP1, [7]); (keyP2, [7])]) as Hvisit
    by (apply list_elem_of_further, list_elem_of_here).
  assert (addrKey endpointP2 = keyP2) as Hkey by by vm_compute.
  assert (gobEncode tagCodec keepAlive
          = Some (default [] (tagEncode keepAlive))) as Hb1 by by vm_compute.
  assert (gobEncode tagCodec isAlive
          = Some (default [] (tagEncode isAlive))) as Hb2 by by vm_compute.
  pose proof (liveness_handshake_end_to_end tagCodec endpointS endpointP1
                endpointP2 peerP1P2 peer0 [keyP1; keyP2]
                [(keyP1, [7]); (keyP2, [7])] keyP2 [7] _ _
                tagCodec_round_trip Hin Hvisit Hkey Hb1 Hb2) as H.
  cbv zeta in H. exact (proj1 H).
Defined.

Lemma server_can_shut_down_witness :
  ∃ n more n',
    exec tagCodec network0
      [RecvRequest [] (datagram endpointP1 getPeerList); SeenHandoff;
       FeedHandoff; ReplyHandoff]
    = Some n
    ∧ keyP1 ∈ peers (core_s (core n))
    ∧ exec tagCodec n more = Some n'
    ∧ closed_responses n' = true
    ∧ peers (core_s (core n')) = ∅.
Proof.
  destruct (exec tagCodec network0
              [RecvRequest [] (datagram endpointP1 getPeerList); SeenHandoff;
               FeedHandoff; ReplyHandoff])
    as [n |] eqn:Hexec; [| by vm_compute in Hexec].
  assert (core_pc (core n) = CoreSelect ∧ watcher_pc (watcher n) = WatcherSelect
          ∧ keyP1 ∈ peers (core_s (core n))) as (Hc & Hw & Hk).
  { vm_compute in Hexec. injection Hexec as <-. split_and!; [done | done |].
    apply (bool_decide_unpack _). by vm_compute. }
  destruct (server_can_shut_down tagCodec _ n Hexec Hc Hw)
    as (more & n' & Hmore & _ & _ & _ & _ & _ & _ & Hxr & Hempty).
  by exists n, more, n'.
Defined.


Lemma peerNetwork_refines_meshPeer_witness :
  ∃ n, peerExec tagCodec endpointS peerNetwork0
         [PeerTakes (PeerRequest (datagram endpointS (peerList [keyP1; keyP2])));
          PeerBroadcastHandoff [keyP1; keyP2] [1; 2; 3]; PeerCopies;
          PeerAppWrites [9; 9; 9]; PeerReplyHandoff; PeerCopies]
       = Some n
       ∧ peerInputsOf tagCodec endpointS peerNetwork0
           [PeerTakes (PeerRequest (datagram endpointS (peerList [keyP1; keyP2])));
            PeerBroadcastHandoff [keyP1; keyP2] [1; 2; 3]; PeerCopies;
            PeerAppWrites [9; 9; 9]; PeerReplyHandoff; PeerCopies]
         = [PeerRequest (datagram endpointS (peerList [keyP1; keyP2]));
            PeerBroadcast [(keyP1, [1; 2; 3]); (keyP2, [9; 9; 9])]]
       ∧ pendingSends n
         = [SendResponse {| to := Some endpointS;
                            m := dataRelayTo keyP2 [9; 9; 9] |}].
Proof.
  set (acts := [PeerTakes (PeerRequest (datagram endpointS (peerList [keyP1; keyP2])));
                PeerBroadcastHandoff [keyP1; keyP2] [1; 2; 3]; PeerCopies;
                PeerAppWrites [9; 9; 9]; PeerReplyHandoff; PeerCopies]).
  destruct (peerExec tagCodec endpointS peerNetwork0 acts)
    as [n |] eqn:Hexec; [| by vm_compute in Hexec].
  exists n. split; [done |].
  assert (peerInputsOf tagCodec endpointS peerNetwork0 acts
          = [PeerRequest (datagram endpointS (peerList [keyP1; keyP2]));
             PeerBroadcast [(keyP1, [1; 2; 3]); (keyP2, [9; 9; 9])]]) as Hins
    by by vm_compute.
  split; [done |].
  pose proof (peerNetwork_refines_meshPeer tagCodec endpointS acts n Hexec) as H.
  rewrite Hins in H.
  assert (meshPeer tagCodec endpointS
            [PeerRequest (datagram endpointS (peerList [keyP1; keyP2]));
             PeerBroadcast [(keyP1, [1; 2; 3]); (keyP2, [9; 9; 9])]]
          = Next {| peerIds := {[keyP1 := 0; keyP2 := 1]}; nextPeerId := 2;
                    alivePeers := ∅ |}
              [SendResponse {| to := Some endpointS;
                               m := dataRelayTo keyP1 [1; 2; 3] |};
               SendResponse {| to := Some endpointS;
                               m := dataRelayTo keyP2 [9; 9; 9] |}])
    as Hrun by by vm_compute.
  rewrite Hrun in H. destruct H as (_ & Hp & Hsends).
  assert (peerSentsOf tagCodec endpointS peerNetwork0 acts
          = [SendResponse {| to := Some endpointS;
                             m := dataRelayTo keyP1 [1; 2; 3] |}])
    as Hsent by by vm_compute.
  rewrite Hsent in Hsends. simpl in Hsends. by injection Hsends as <-.
Defined.

Lemma peer_core_and_watcher_block_each_other_witness :
  ∃ n, peerExec tagCodec endpointS peerNetwork0
         (peerTimeoutDuringIsAlive (datagram endpointP1 isAlive)
                                   (datagram endpointP2 isAlive))
       = Some n
       ∧ peerAtSeen n ∧ peerWatcherAtTimeout n.
Proof.
  destruct (peer_core_and_watcher_block_each_other tagCodec endpointS
              (datagram endpointP1 isAlive) (datagram endpointP2 isAlive)
              eq_refl eq_refl)
    as (n & Hexec & Hc & Hw & _).
  exists n. unfold peerAtSeen, peerWatcherAtTimeout. rewrite Hc, Hw.
  by split_and!.
Defined.

Lemma peer_alive_are_watched_witness :
  ∃ n, peerExec tagCodec endpointS peerNetwork0
         [PeerTakes (PeerRequest (datagram endpointP1 isAlive)); PeerSeenHandoff]
       = Some n
       ∧ keyP1 ∈ alivePeers (peer_p (pn_core n))
       ∧ is_Some (watcher_peers (w_state (pn_watching n)) !! keyP1).
Proof.
  destruct (peerExec tagCodec endpointS peerNetwork0
              [PeerTakes (PeerRequest (datagram endpointP1 isAlive));
               PeerSeenHandoff])
    as [n |] eqn:Hexec; [| by vm_compute in Hexec].
  exists n.
  assert (keyP1 ∈ alivePeers (peer_p (pn_core n))) as Hk.
  { vm_compute in Hexec. injection Hexec as <-.
    apply (bool_decide_unpack _). by vm_compute. }
  split_and!; [done | done |].
  destruct (peer_alive_are_watched tagCodec endpointS _ n keyP1 Hexec Hk)
    as [H | [(a & Hpc & _) | (m & Hm & _)]]; [done | |].
  - vm_compute in Hexec. injection Hexec as <-. by vm_compute in Hpc.
  - vm_compute in Hexec. injection Hexec as <-. vm_compute in Hm.
    by apply elem_of_nil in Hm.
Defined.
